(** * ontology-ts-vm: stack items, cycle/depth guard and binary codec

    A shallow embedding of

      - [src/smartcontract/service/runtime.ts]
        ([serializeStackItem], [deserializeStackItem],
        [serializeStackItemInternal], [deserializeStackItemInternal],
        [circularRefAndDepthDetection], [circularRefAndDepthDetectionInternal]),
      - [src/vm/types/boolean.ts] ([BooleanType]),
      - [src/vm/types/integer.ts] ([IntegerType]),

    together with the properties the specification states about them and
    further properties of the same functions.

    JavaScript objects have identity and may be shared or cyclic, so stack
    items live in an explicit store ([Heap]); the output of the decoder, which
    only ever builds fresh objects, is an inductive tree ([value]). *)

From Stdlib Require Import ZArith Lia.
From Stdlib.Strings Require Import Byte.
From stdpp Require Import base option list sorting gmap strings relations.

Set Warnings "-notation-for-abbreviation,-register-all".

(** ** Bytes, buffers and JavaScript strings *)

Notation Buffer := (list byte).

Definition byte_of_N (n : N) : byte :=
  match Byte.of_N (n mod 256) with
  | Some b => b
  | None => x00
  end.

Definition byte_of_Z (z : Z) : byte := byte_of_N (Z.to_N (z mod 256)).
Definition Z_of_byte (b : byte) : Z := Z.of_N (Byte.to_N b).

#[global] Instance byte_eq_decision : EqDecision byte := Byte.byte_eq_dec.

(** A JavaScript string is a sequence of UTF-16 code units. *)
Notation jsstring := (list N).

(** [a <= b] for JavaScript strings: code unit by code unit, a proper prefix
    first.  This is the order [Array.prototype.sort] uses without a
    comparator. *)
Fixpoint jsstring_leb (a b : jsstring) : bool :=
  match a, b with
  | [], _ => true
  | _ :: _, [] => false
  | x :: a', y :: b' =>
      if (x <? y)%N then true
      else if (y <? x)%N then false
      else jsstring_leb a' b'
  end.

Definition jsstring_le (a b : jsstring) : Prop := jsstring_leb a b = true.

#[global] Instance jsstring_le_dec a b : Decision (jsstring_le a b).
Proof. unfold jsstring_le. apply _. Defined.

(** [Array.prototype.sort()] on an array of strings. The result is the sorted
    permutation of the input; equal strings are indistinguishable, so the
    sorting algorithm of the engine cannot be observed. *)
Definition sort (l : list jsstring) : list jsstring := merge_sort jsstring_le l.

(** Lexicographic order on byte sequences. *)
Fixpoint bytes_leb (a b : Buffer) : bool :=
  match a, b with
  | [], _ => true
  | _ :: _, [] => false
  | x :: a', y :: b' =>
      if (Byte.to_N x <? Byte.to_N y)%N then true
      else if (Byte.to_N y <? Byte.to_N x)%N then false
      else bytes_leb a' b'
  end.

(** ** Exceptions and results *)

Inductive exn : Type :=
| Error (msg : string)                   (* [new Error(msg)] *)
| Rethrown (prefix : string) (e : exn)   (* [new Error(`${prefix}${e}`)] *)
| TypeError                              (* a property of [undefined] is read *)
| WriterError                            (* raised by the size-limited writer *)
| ReaderError.                           (* raised by the reader *)

(** Outcome of a call: a value, an exception, or the model's recursion
    budget is used up (JavaScript has no such outcome; the lemmas named
    [*_fuel] show the budgets used below are never exhausted). *)
Inductive result (A : Type) : Type :=
| Ok (a : A)
| Throw (e : exn)
| OutOfFuel.
Arguments Ok {A} a.
Arguments Throw {A} e.
Arguments OutOfFuel {A}.

#[global] Instance result_ret : MRet result := fun A a => Ok a.
#[global] Instance result_bind : MBind result := fun A B k m =>
  match m with
  | Ok a => k a
  | Throw e => Throw e
  | OutOfFuel => OutOfFuel
  end.

(** [try { m } catch (e) { throw new Error(`${prefix}${e}`) }] *)
Definition try_rethrow {A} (prefix : string) (m : result A) : result A :=
  match m with
  | Throw e => Throw (Rethrown prefix e)
  | r => r
  end.

(** The exception at the bottom of a chain of rethrown errors. *)
Fixpoint root_cause (e : exn) : exn :=
  match e with
  | Rethrown _ e' => root_cause e'
  | _ => e
  end.

(** [for (const v of l) { s = f(v, s) }] with exceptions. *)
Fixpoint for_of {A S} (f : A -> S -> result S) (l : list A) (s : S) : result S :=
  match l with
  | [] => Ok s
  | v :: l' => s' ← f v s; for_of f l' s'
  end.

(** ** Collaborators that are not part of these sources

    The constants [MAX_STRUCT_DEPTH] (vm/types/struct.ts) and
    [MAX_BYTEARRAY_SIZE] (vm/consts.ts), the variable-length integer of
    [Writer.writeVarUint] / [Reader.readVarUInt] (vm/utils) and Node's
    [Buffer.prototype.toString()] are consumed through this interface. *)
Class Host : Type := {
  MAX_STRUCT_DEPTH : nat;
  MAX_BYTEARRAY_SIZE : N;
  encodeVarUint : N -> Buffer;
  decodeVarUint : Buffer -> option (N * Buffer);
  Buffer_toString : Buffer -> jsstring
}.

(** What the codec relies on: a variable-length integer below 2^64 is read
    back as written, reading never lengthens the input, and the size cap is
    itself below 2^64. *)
Class HostLaws (H : Host) : Prop := {
  decode_encodeVarUint : forall (n : N) (rest : Buffer),
    (n < 2 ^ 64)%N -> decodeVarUint (encodeVarUint n ++ rest) = Some (n, rest);
  decodeVarUint_length : forall (bs rest : Buffer) (n : N),
    decodeVarUint bs = Some (n, rest) -> length rest <= length bs;
  MAX_BYTEARRAY_SIZE_lt : (MAX_BYTEARRAY_SIZE < 2 ^ 64)%N
}.

Section Codec.
Context `{host : Host}.

(** ** Type tags

    [BooleanType.id] and [IntegerType.id] are in the sources. *)
Definition BooleanType_id : byte := x01.
Definition IntegerType_id : byte := x02.

(** Modelled from the spec: the [id] of ByteArrayType, ArrayType, StructType
    and MapType, whose classes are not part of these sources (the table of
    type tags gives 0x00, 0x80, 0x81, 0x82). *)
Definition ByteArrayType_id : byte := x00.
Definition ArrayType_id : byte := x80.
Definition StructType_id : byte := x81.
Definition MapType_id : byte := x82.

(** ** Integers as bytes *)

(** Modelled from the spec: the byte loop of [bigIntToBytes] (common/utils.ts,
    not part of these sources): little-endian two's complement, stopping at
    the first byte whose sign bit agrees with the sign of what is left. A
    [Long] has 64 bits, so eight bytes are enough. *)
Fixpoint minimalLE (n : nat) (v : Z) : Buffer :=
  match n with
  | O => []
  | S n' =>
      if ((-128 <=? v) && (v <? 128))%Z then [byte_of_Z v]
      else byte_of_Z v :: minimalLE n' (v / 256)
  end.

(** Modelled from the spec: [bigIntToBytes] of common/utils.ts, which is not
    part of these sources ("minimal two's-complement little-endian encoding
    (empty for zero)"). *)
Definition bigIntToBytes (value : Z) : Buffer :=
  if (value =? 0)%Z then [] else minimalLE 8 value.

(** Modelled from the spec: the number [Reader.readInt64] (vm/utils/reader.ts,
    not part of these sources) makes of the bytes it has read, "as a signed
    64-bit integer": the signed integer a little-endian two's complement byte
    sequence denotes. *)
Fixpoint bigIntFromBytes (bs : Buffer) : Z :=
  match bs with
  | [] => 0
  | [b] => if (Z_of_byte b <? 128)%Z then Z_of_byte b else Z_of_byte b - 256
  | b :: bs' => Z_of_byte b + 256 * bigIntFromBytes bs'
  end.

(** ** Reader and size-limited writer *)

(** Modelled from the spec: [Reader] of vm/utils/reader.ts, which is not part
    of these sources. The state of a reader is the input not yet consumed;
    every read fails on underrun. *)
Definition Reader : Type := Buffer.

(** Modelled from the spec: [Reader.readByte], which is not part of these
    sources. *)
Definition readByte (r : Reader) : result (byte * Reader) :=
  match r with
  | [] => Throw ReaderError
  | b :: r' => Ok (b, r')
  end.

(** Modelled from the spec: [Reader.readVarUInt], which is not part of these
    sources; the format of the variable-length integer is the host's. *)
Definition readVarUInt (r : Reader) : result (N * Reader) :=
  match decodeVarUint r with
  | Some (n, r') => Ok (n, r')
  | None => Throw ReaderError
  end.

(** Modelled from the spec: [Reader.readVarBytes], which is not part of these
    sources ("varlen := varint length, then that many bytes"). *)
Definition readVarBytes (r : Reader) : result (Buffer * Reader) :=
  '(n, r1) ← readVarUInt r;
  if (N.of_nat (length r1) <? n)%N then Throw ReaderError
  else Ok (take (N.to_nat n) r1, drop (N.to_nat n) r1).

(** Modelled from the spec: [Reader.readInt64], which is not part of these
    sources ("reads length-prefixed bytes as a signed 64-bit integer (fails
    if byte length exceeds 8)"). *)
Definition readInt64 (r : Reader) : result (Z * Reader) :=
  '(bs, r1) ← readVarBytes r;
  if 8 <? length bs then Throw ReaderError
  else Ok (bigIntFromBytes bs, r1).

(** Modelled from the spec: [LimitedWriter] of vm/utils/writer.ts, which is
    not part of these sources ("fail with SizeLimitExceeded once cumulative
    bytes exceed the configured cap"). *)
Record Writer : Type := mkWriter { limit : N; written : Buffer }.

(** Modelled from the spec: the constructor of [LimitedWriter] and
    [Writer.getBytes], which are not part of these sources. *)
Definition LimitedWriter (cap : N) : Writer := mkWriter cap [].

Definition getBytes (w : Writer) : Buffer := written w.

(** Modelled from the spec: what every write of [LimitedWriter] does, which is
    not part of these sources: the bytes are added unless the total would
    exceed the cap. *)
Definition write (bs : Buffer) (w : Writer) : result Writer :=
  if (limit w <? N.of_nat (length (written w) + length bs))%N
  then Throw WriterError
  else Ok (mkWriter (limit w) (written w ++ bs)).

(** The writer after [bs] has been written, and the condition under which
    writing [bs] stays within the cap. *)
Definition append (bs : Buffer) (w : Writer) : Writer :=
  mkWriter (limit w) (written w ++ bs).

Definition fits (bs : Buffer) (w : Writer) : Prop :=
  (N.of_nat (length (written w) + length bs) <= limit w)%N.

(** Modelled from the spec: [Writer.writeUint8], [Writer.writeVarUint] and
    [Writer.writeVarBytes], which are not part of these sources ("varlen :=
    varint length, then that many bytes"). *)
Definition writeUint8 (b : byte) (w : Writer) : result Writer := write [b] w.

Definition writeVarUint (n : N) (w : Writer) : result Writer :=
  write (encodeVarUint n) w.

Definition writeVarBytes (bs : Buffer) (w : Writer) : result Writer :=
  w1 ← writeVarUint (N.of_nat (length bs)) w;
  write bs w1.

(** ** Stack items in the store *)

Definition loc : Type := nat.

(** Modelled from the spec: the classes ByteArrayType, ArrayType, StructType,
    MapType and InteropType, which are not part of these sources, next to
    BooleanType and IntegerType, which are. Every class stores one payload in
    [value]. A container class holds a reference to its payload, a JavaScript
    array or [Map], which is an object of its own: [getArray], [getStruct]
    and [getMap] hand out that reference. *)
Inductive StackItem : Type :=
| ByteArrayType (value : Buffer)
| BooleanType (value : bool)
| IntegerType (value : Z)
| ArrayType (value : loc)
| StructType (value : loc)
| MapType (value : loc)
| InteropType.

(** [items]: the StackItem objects; [arrays]: the [StackItem[]] objects, each
    a sequence of references to items; [maps]: the [Map<StackItem, StackItem>]
    objects, each its entries in insertion order, keyed by the identity of
    the key object. *)
Record Heap : Type := mkHeap {
  items : gmap loc StackItem;
  arrays : gmap loc (list loc);
  maps : gmap loc (list (loc * loc))
}.

(** Reading a reference; a reference to nothing is [undefined], and using
    [undefined] as an object raises a TypeError. *)
Definition deref {A} (o : option A) : result A :=
  match o with
  | Some a => Ok a
  | None => Throw TypeError
  end.

(** [mp.get(key)] *)
Fixpoint Map_get (mp : list (loc * loc)) (key : loc) : option loc :=
  match mp with
  | [] => None
  | (k, v) :: mp' => if decide (k = key) then Some v else Map_get mp' key
  end.

(** ** The cycle and depth guard *)

(** Keys of [visited]: a JavaScript array ([inl]) or a JavaScript Map
    ([inr]). *)
Notation container := (loc + loc)%type.

Section guard.
Variable h : Heap.
(** The recursive call, one level down. *)
Variable rec : loc -> gmap container bool -> nat -> result (bool * gmap container bool).

(** [for (const v of a) { if (rec(v, visited, depth + 1)) return true; }];
    the boolean tells whether the loop returned. *)
Fixpoint guard_each (a : list loc) (visited : gmap container bool) (depth : nat)
  : result (bool * gmap container bool) :=
  match a with
  | [] => Ok (false, visited)
  | v :: a' =>
      '(b, visited1) ← rec v visited (depth + 1);
      if b : bool then Ok (true, visited1) else guard_each a' visited1 depth
  end.

(** The same loop over the entries of a Map: key, then value. *)
Fixpoint guard_entries (mp : list (loc * loc)) (visited : gmap container bool) (depth : nat)
  : result (bool * gmap container bool) :=
  match mp with
  | [] => Ok (false, visited)
  | (k, v) :: mp' =>
      '(b, visited1) ← rec k visited (depth + 1);
      if b : bool then Ok (true, visited1)
      else
        '(b', visited2) ← rec v visited1 (depth + 1);
        if b' : bool then Ok (true, visited2) else guard_entries mp' visited2 depth
  end.

(** The body shared by the Array and the Struct branch. *)
Definition guard_sequence (a : loc) (visited : gmap container bool) (depth : nat)
  : result (bool * gmap container bool) :=
  elems ← deref (arrays h !! a);
  if decide (length elems = 0) then Ok (false, visited)
  else if decide (visited !! inl a = Some true) then Ok (true, visited)
  else
    '(b, visited1) ← guard_each elems (<[inl a := true]> visited) depth;
    if b : bool then Ok (true, visited1)
    else Ok (false, delete (inl a) visited1).
End guard.

Fixpoint circularRefAndDepthDetectionInternal (fuel : nat) (h : Heap)
    (value : loc) (visited : gmap container bool) (depth : nat)
  : result (bool * gmap container bool) :=
  match fuel with
  | O => OutOfFuel
  | S fuel' =>
      if decide (MAX_STRUCT_DEPTH < depth) then Ok (true, visited)
      else
        item ← deref (items h !! value);
        match item with
        | ArrayType a | StructType a =>
            guard_sequence h (circularRefAndDepthDetectionInternal fuel' h) a visited depth
        | MapType m =>
            mp ← deref (maps h !! m);
            if decide (visited !! inr m = Some true) then Ok (true, visited)
            else
              '(b, visited1) ←
                guard_entries (circularRefAndDepthDetectionInternal fuel' h)
                  mp (<[inr m := true]> visited) depth;
              if b : bool then Ok (true, visited1)
              else Ok (false, delete (inr m) visited1)
        | _ => Ok (false, visited)
        end
  end.

(** The depth grows by one per call and the call at depth
    [MAX_STRUCT_DEPTH + 1] returns at once, so this budget is never used up
    ([guard_fuel]). *)
Definition circularRefAndDepthDetection (h : Heap) (value : loc) : result bool :=
  '(b, _) ← circularRefAndDepthDetectionInternal (MAX_STRUCT_DEPTH + 2) h value ∅ 0;
  Ok b.


(** ** The serializer *)

(** Modelled from the spec: [ByteArrayType.getByteArray], which is not part of
    these sources (the raw bytes), next to [IntegerType.getByteArray], which
    is: [k.getByteArray()] for a key that passed
    [isByteArrayType(k) || isIntegerType(k)]. *)
Definition key_bytes (k : StackItem) : option Buffer :=
  match k with
  | ByteArrayType ba => Some ba
  | IntegerType v => Some (bigIntToBytes v)
  | _ => None
  end.

(** The first loop of the Map branch: the string of every key is pushed on
    [unsortKey] and registered in [keyMap], a later key replacing an earlier
    one registered under the same string. *)
Fixpoint collect_keys (h : Heap) (mp : list (loc * loc))
    (unsortKey : list jsstring) (keyMap : gmap jsstring loc)
  : result (list jsstring * gmap jsstring loc) :=
  match mp with
  | [] => Ok (unsortKey, keyMap)
  | (k, _) :: mp' =>
      item ← deref (items h !! k);
      match key_bytes item with
      | Some ba =>
          let key := Buffer_toString ba in
          if decide (key = []) then Throw (Error "Serialize Map error: invalid key type")
          else collect_keys h mp' (unsortKey ++ [key]) (<[key := k]> keyMap)
      | None => Throw (Error "Unsupport map key type.")
      end
  end.

Section serialize.
Variable h : Heap.
(** The recursive call, one level down. *)
Variable rec : loc -> Writer -> result Writer.

(** The second loop of the Map branch, over the sorted strings. *)
Definition emit_entry (mp : list (loc * loc)) (keyMap : gmap jsstring loc)
    (v : jsstring) (w : Writer) : result Writer :=
  match keyMap !! v with
  | None => Throw TypeError
  | Some key =>
      w1 ← rec key w;
      val ← deref (Map_get mp key);
      rec val w1
  end.

Definition serialize_sequence (id : byte) (a : loc) (w : Writer) : result Writer :=
  w1 ← writeUint8 id w;
  elems ← deref (arrays h !! a);
  w2 ← writeVarUint (N.of_nat (length elems)) w1;
  for_of rec elems w2.

Definition serialize_map (m : loc) (w : Writer) : result Writer :=
  mp ← deref (maps h !! m);
  '(w2, unsortKey, keyMap) ←
    try_rethrow "Serialize Struct stackItems error: "
      (w1 ← writeUint8 MapType_id w;
       w2 ← writeVarUint (N.of_nat (length mp)) w1;
       '(unsortKey, keyMap) ← collect_keys h mp [] ∅;
       Ok (w2, unsortKey, keyMap));
  for_of (emit_entry mp keyMap) (sort unsortKey) w2.
End serialize.

Fixpoint serializeStackItemInternal (fuel : nat) (h : Heap) (item : loc) (w : Writer)
  : result Writer :=
  match fuel with
  | O => OutOfFuel
  | S fuel' =>
      it ← deref (items h !! item);
      match it with
      | ByteArrayType ba =>
          try_rethrow "Serialize ByteArray stackItems error: "
            (w1 ← writeUint8 ByteArrayType_id w;
             writeVarBytes ba w1)
      | BooleanType b =>
          try_rethrow "Serialize Boolean stackItems error: "
            (w1 ← writeUint8 BooleanType_id w;
             writeUint8 (if b then x01 else x00) w1)
      | IntegerType v =>
          try_rethrow "Serialize Integer stackItems error: "
            (w1 ← writeUint8 IntegerType_id w;
             writeVarBytes (bigIntToBytes v) w1)
      | ArrayType a =>
          try_rethrow "Serialize Array stackItems error: "
            (serialize_sequence h (serializeStackItemInternal fuel' h) ArrayType_id a w)
      | StructType a =>
          try_rethrow "Serialize Struct stackItems error: "
            (serialize_sequence h (serializeStackItemInternal fuel' h) StructType_id a w)
      | MapType m =>
          serialize_map h (serializeStackItemInternal fuel' h) m w
      | InteropType => Throw (Error "unknown type")
      end
  end.

(** Once the guard has passed, the nesting is at most [MAX_STRUCT_DEPTH], so
    the recursion budget given here is never used up
    ([serializeStackItem_fuel]). *)
Definition serializeStackItem (h : Heap) (item : loc) : result Buffer :=
  b ← circularRefAndDepthDetection h item;
  if b : bool
  then Throw (Error "runtime serialize: can not serialize circular reference data")
  else
    w ← serializeStackItemInternal (MAX_STRUCT_DEPTH + 1) h item
          (LimitedWriter MAX_BYTEARRAY_SIZE);
    Ok (getBytes w).

(** ** The deserializer *)

(** What the deserializer builds. Every object it creates is new, so its
    result is a tree; the entries of a Map are listed in insertion order and
    two entries never have the same key object. *)
Inductive value : Type :=
| VByteArray (b : Buffer)
| VBoolean (b : bool)
| VInteger (v : Z)
| VArray (arr : list value)
| VStruct (arr : list value)
| VMap (mp : list (value * value)).

Section deserialize.
(** The recursive call, one level down. *)
Variable rec : Reader -> result (value * Reader).

(** [for (let i = 0; i < count; i++) { arr.push(rec(r)) }] *)
Fixpoint read_items (count : nat) (r : Reader) : result (list value * Reader) :=
  match count with
  | O => Ok ([], r)
  | S count' =>
      '(item, r1) ← rec r;
      '(arr, r2) ← read_items count' r1;
      Ok (item :: arr, r2)
  end.

(** [for (let i = 0; i < count; i++) { m.set(rec(r), rec(r)) }]; every key
    is a new object, so [set] always adds an entry. *)
Fixpoint read_entries (count : nat) (r : Reader)
  : result (list (value * value) * Reader) :=
  match count with
  | O => Ok ([], r)
  | S count' =>
      '(key, r1) ← rec r;
      '(val, r2) ← rec r1;
      '(mp, r3) ← read_entries count' r2;
      Ok ((key, val) :: mp, r3)
  end.
End deserialize.

Fixpoint deserializeStackItemInternal (fuel : nat) (r : Reader)
  : result (value * Reader) :=
  match fuel with
  | O => OutOfFuel
  | S fuel' =>
      try_rethrow "Deserialize error: "
        ('(t, r1) ← readByte r;
         if decide (t = ByteArrayType_id) then
           try_rethrow "Deserialize stackItems ByteArray error: "
             ('(b, r2) ← readVarBytes r1;
              Ok (VByteArray b, r2))
         else if decide (t = BooleanType_id) then
           try_rethrow "Deserialize stackItems Boolean error: "
             ('(b, r2) ← readByte r1;
              Ok (VBoolean (0 <? Byte.to_N b)%N, r2))
         else if decide (t = IntegerType_id) then
           try_rethrow "Deserialize stackItems Integer error: "
             ('(v, r2) ← readInt64 r1;
              Ok (VInteger v, r2))
         else if decide (t = ArrayType_id \/ t = StructType_id) then
           try_rethrow "Deserialize stackItems error: "
             ('(count, r2) ← readVarUInt r1;
              '(arr, r3) ← read_items (deserializeStackItemInternal fuel')
                             (N.to_nat count) r2;
              if decide (t = StructType_id) then Ok (VStruct arr, r3)
              else Ok (VArray arr, r3))
         else if decide (t = MapType_id) then
           try_rethrow "Deserialize stackItems map error: "
             ('(count, r2) ← readVarUInt r1;
              '(mp, r3) ← read_entries (deserializeStackItemInternal fuel')
                            (N.to_nat count) r2;
              Ok (VMap mp, r3))
         else Throw (Error "unknown type"))
  end.

(** Every nested call has consumed at least the tag byte of its parent, so a
    budget of one more than the length of the input is never used up
    ([deserializeStackItem_fuel]). *)
Definition deserializeStackItem (data : Buffer) : result value :=
  '(item, _) ← deserializeStackItemInternal (S (length data)) data;
  Ok item.

(** On inputs of at most [bound] bytes, [rec] returns or throws, and when it
    returns it has consumed at least one byte. *)
Definition progresses (rec : Reader -> result (value * Reader)) (bound : nat) : Prop :=
  forall r, length r <= bound ->
    rec r <> OutOfFuel /\ forall v r', rec r = Ok (v, r') -> length r' < length r.

(** ** Reading a stored item back as a tree *)

(** The items an item refers to directly: the elements of an Array or
    Struct, the keys and values of a Map. [None] when a reference leads
    nowhere. *)
Definition children (h : Heap) (l : loc) : option (list loc) :=
  match items h !! l with
  | None => None
  | Some (ArrayType a) | Some (StructType a) => arrays h !! a
  | Some (MapType m) => (fun mp => flat_map (fun e => [e.1; e.2]) mp) <$> maps h !! m
  | Some _ => Some []
  end.

(** The payload object of a container item, which is what the guard records
    in [visited]. *)
Definition payload (h : Heap) (l : loc) : option (loc + loc) :=
  match items h !! l with
  | Some (ArrayType a) | Some (StructType a) => Some (inl a)
  | Some (MapType m) => Some (inr m)
  | _ => None
  end.

Definition child (h : Heap) (l c : loc) : Prop :=
  exists cs, children h l = Some cs /\ c ∈ cs.

(** No payload object at or below [l] is in the open set [V] of the guard. *)
Definition unopened (h : Heap) (V : gmap (loc + loc) bool) (l : loc) : Prop :=
  forall x c, rtc (child h) l x -> payload h x = Some c -> V !! c = None.

(** An item that is among its own descendants. *)
Definition cyclic (h : Heap) (l : loc) : Prop := tc (child h) l l.

(** Every reference in the store leads to an object, as the static types
    ([StackItem[]], [Map<StackItem, StackItem>]) promise. *)
Definition item_closed (h : Heap) (l : loc) : bool :=
  match children h l with
  | Some cs => forallb (fun c => bool_decide (is_Some (items h !! c))) cs
  | None => false
  end.

Definition closed (h : Heap) : Prop :=
  map_Forall (fun l _ => item_closed h l = true) (items h).

(** What lies below [l] is a tree in which an item with children has at most
    [n] levels above it, the root included: the guard visits nothing at a
    depth beyond [n]. *)
Fixpoint within_depth (h : Heap) (n : nat) (l : loc) : bool :=
  match children h l with
  | None => false
  | Some [] => true
  | Some cs =>
      match n with
      | O => false
      | S n' => forallb (within_depth h n') cs
      end
  end.

(** The tree a stored item unfolds to, looking at most [n] levels deep.
    Interop handles have no tree. *)
Fixpoint read_back (n : nat) (h : Heap) (l : loc) : option value :=
  match n with
  | O => None
  | S n' =>
      match items h !! l with
      | Some (ByteArrayType b) => Some (VByteArray b)
      | Some (BooleanType b) => Some (VBoolean b)
      | Some (IntegerType v) => Some (VInteger v)
      | Some (ArrayType a) =>
          elems ← arrays h !! a;
          VArray <$> mapM (read_back n' h) elems
      | Some (StructType a) =>
          elems ← arrays h !! a;
          VStruct <$> mapM (read_back n' h) elems
      | Some (MapType m) =>
          mp ← maps h !! m;
          VMap <$> mapM (fun e => k ← read_back n' h e.1;
                                  v ← read_back n' h e.2;
                                  Some (k, v)) mp
      | _ => None
      end
  end.

Definition represents (h : Heap) (l : loc) (v : value) : Prop :=
  exists n, read_back n h l = Some v.

(** ** The wire format on trees *)

(** The encoding of a tree as the grammar of the wire format gives it, every
    container in the order it has. *)
Fixpoint encode (v : value) : Buffer :=
  match v with
  | VByteArray b =>
      ByteArrayType_id :: encodeVarUint (N.of_nat (length b)) ++ b
  | VBoolean b => [BooleanType_id; if b then x01 else x00]
  | VInteger z =>
      IntegerType_id ::
        encodeVarUint (N.of_nat (length (bigIntToBytes z))) ++ bigIntToBytes z
  | VArray arr =>
      ArrayType_id :: encodeVarUint (N.of_nat (length arr)) ++ concat (map encode arr)
  | VStruct arr =>
      StructType_id :: encodeVarUint (N.of_nat (length arr)) ++ concat (map encode arr)
  | VMap mp =>
      MapType_id :: encodeVarUint (N.of_nat (length mp)) ++
        concat (map (fun kv => encode kv.1 ++ encode kv.2) mp)
  end.

(** The string the serializer sorts a Map key by. *)
Definition key_string (k : value) : option jsstring :=
  match k with
  | VByteArray b => Some (Buffer_toString b)
  | VInteger z => Some (Buffer_toString (bigIntToBytes z))
  | _ => None
  end.

Definition entry_string (kv : value * value) : jsstring :=
  default [] (key_string kv.1).

Definition entry_le (a b : value * value) : Prop :=
  jsstring_le (entry_string a) (entry_string b).

#[global] Instance entry_le_dec a b : Decision (entry_le a b).
Proof. unfold entry_le. apply _. Defined.

(** The entries of a Map in ascending order of the strings of their keys. *)
Definition sort_entries (mp : list (value * value)) : list (value * value) :=
  merge_sort entry_le mp.

(** The tree with the entries of every Map in sorted order. *)
Fixpoint canonical (v : value) : value :=
  match v with
  | VArray arr => VArray (map canonical arr)
  | VStruct arr => VStruct (map canonical arr)
  | VMap mp => VMap (sort_entries (map (fun kv => (kv.1, canonical kv.2)) mp))
  | _ => v
  end.

(** Nesting as the guard counts it: the depth of the deepest item below the
    root. An empty container has nothing below it. *)
Fixpoint depth (v : value) : nat :=
  match v with
  | VArray arr | VStruct arr =>
      match arr with
      | [] => 0
      | _ => S (max_list (map depth arr))
      end
  | VMap mp =>
      match mp with
      | [] => 0
      | _ => S (max_list (map (fun kv => depth kv.1 `max` depth kv.2) mp))
      end
  | _ => 0
  end.

Fixpoint distinct (l : list jsstring) : bool :=
  match l with
  | [] => true
  | s :: l' => bool_decide (s ∉ l') && distinct l'
  end.

(** Every key of every Map is a ByteArray or an Integer, its string is not
    empty, and no two keys of one Map have the same string. *)
Fixpoint well_keyed (v : value) : bool :=
  match v with
  | VArray arr | VStruct arr => forallb well_keyed arr
  | VMap mp =>
      forallb (fun kv =>
                 match key_string kv.1 with
                 | Some s => bool_decide (s ≠ [])
                 | None => false
                 end && well_keyed kv.2) mp
      && distinct (map entry_string mp)
  | _ => true
  end.

(** Every Integer is a [Long]: a signed 64-bit number. *)
Fixpoint longs (v : value) : bool :=
  match v with
  | VInteger z => bool_decide (- 2 ^ 63 <= z < 2 ^ 63)%Z
  | VArray arr | VStruct arr => forallb longs arr
  | VMap mp => forallb (fun kv => longs kv.1 && longs kv.2) mp
  | _ => true
  end.

(** Every length that is written as a variable-length integer is below
    2^64 (an Integer has at most eight bytes). *)
Fixpoint sized (v : value) : bool :=
  match v with
  | VByteArray b => bool_decide (N.of_nat (length b) < 2 ^ 64)%N
  | VArray arr | VStruct arr =>
      bool_decide (N.of_nat (length arr) < 2 ^ 64)%N && forallb sized arr
  | VMap mp =>
      bool_decide (N.of_nat (length mp) < 2 ^ 64)%N
      && forallb (fun kv => sized kv.1 && sized kv.2) mp
  | _ => true
  end.

Definition scalar (v : value) : bool :=
  match v with
  | VByteArray _ | VBoolean _ | VInteger _ => true
  | _ => false
  end.

(** A scalar or an empty container: an item with nothing below it. *)
Definition childless (v : value) : bool :=
  match v with
  | VArray [] | VStruct [] | VMap [] => true
  | VArray _ | VStruct _ | VMap _ => false
  | _ => true
  end.

(** [n] Arrays of one element each around [v]. *)
Fixpoint nest (n : nat) (v : value) : value :=
  match n with
  | O => v
  | S n' => VArray [nest n' v]
  end.

(** Nesting depth as a count of containers: the number of containers on the
    longest chain of containers inside one another, an empty container
    counting as one. *)
Fixpoint levels (v : value) : nat :=
  match v with
  | VArray arr | VStruct arr => S (max_list (map levels arr))
  | VMap mp => S (max_list (map (fun kv => levels kv.1 `max` levels kv.2) mp))
  | _ => 0
  end.

(** Equal up to the order of Map entries: the same variant everywhere, the
    elements of an Array or Struct pairwise and in order, the entries of a
    Map pairwise after a rearrangement. *)
Inductive same_structure : value -> value -> Prop :=
| same_ByteArray b : same_structure (VByteArray b) (VByteArray b)
| same_Boolean b : same_structure (VBoolean b) (VBoolean b)
| same_Integer z : same_structure (VInteger z) (VInteger z)
| same_Array l1 l2 :
    Forall2 same_structure l1 l2 -> same_structure (VArray l1) (VArray l2)
| same_Struct l1 l2 :
    Forall2 same_structure l1 l2 -> same_structure (VStruct l1) (VStruct l2)
| same_Map m1 m1' m2 :
    m1 ≡ₚ m1' ->
    Forall2 (fun a b => same_structure a.1 b.1 /\ same_structure a.2 b.2) m1' m2 ->
    same_structure (VMap m1) (VMap m2).

(** ** What the serializer refuses *)

(** A Map key at which the first loop of the Map branch throws: an item that
    is neither a ByteArray nor an Integer, or one whose bytes give the empty
    string. *)
Definition key_refused (it : StackItem) : bool :=
  match key_bytes it with
  | Some ba => bool_decide (Buffer_toString ba = [])
  | None => true
  end.

(** An item the serializer has no branch for, a Map with a refused key, or
    an Array or Struct holding such an item at any depth. *)
Inductive unserializable (h : Heap) : loc -> Prop :=
| unserializable_interop l :
    items h !! l = Some InteropType -> unserializable h l
| unserializable_array l a elems c :
    items h !! l = Some (ArrayType a) -> arrays h !! a = Some elems ->
    c ∈ elems -> unserializable h c -> unserializable h l
| unserializable_struct l a elems c :
    items h !! l = Some (StructType a) -> arrays h !! a = Some elems ->
    c ∈ elems -> unserializable h c -> unserializable h l
| unserializable_key l m mp e it :
    items h !! l = Some (MapType m) -> maps h !! m = Some mp ->
    e ∈ mp -> items h !! e.1 = Some it -> key_refused it = true ->
    unserializable h l.

(** What the exceptions of [serializeStackItemInternal] go back to when
    every reference leads to an object: the size cap of the writer, an item
    of no known type, and the two refusals of a Map key. *)
Definition internal_failures : list exn :=
  [WriterError; Error "unknown type";
   Error "Serialize Map error: invalid key type"; Error "Unsupport map key type."].

Definition benign {A} (m : result A) : Prop :=
  forall e, m = Throw e -> root_cause e ∈ internal_failures.

(** A step of the serializer that, when it returns, has added bytes to the
    writer that do not depend on what the writer held: the writer stays
    within its cap, and the step adds the same bytes to any writer they
    fit in. *)
Definition emits (f : Writer -> result Writer) : Prop :=
  forall w w', f w = Ok w' ->
    exists bs, w' = append bs w /\ (fits [] w -> fits bs w) /\
      forall w2, fits bs w2 -> f w2 = Ok (append bs w2).

(** The six type tags of the wire format. *)
Definition tags : list byte :=
  [ByteArrayType_id; BooleanType_id; IntegerType_id;
   ArrayType_id; StructType_id; MapType_id].

(** The tag of the variant of a decoded value. *)
Definition tag_of (v : value) : byte :=
  match v with
  | VByteArray _ => ByteArrayType_id
  | VBoolean _ => BooleanType_id
  | VInteger _ => IntegerType_id
  | VArray _ => ArrayType_id
  | VStruct _ => StructType_id
  | VMap _ => MapType_id
  end.

End Codec.

(** ** The StackItem interface and its Integer and Boolean implementations *)

(** What calling an accessor gives: a value or an exception. *)
Inductive outcome (A : Type) : Type :=
| Returns (a : A)
| Throws (e : exn).
Arguments Returns {A} a.
Arguments Throws {A} e.

#[global] Instance outcome_bind : MBind outcome := fun A B k m =>
  match m with
  | Returns a => k a
  | Throws e => Throws e
  end.

(** [try { m } catch (e) { handler }] *)
Definition try_catch {A} (m : outcome A) (handler : outcome A) : outcome A :=
  match m with
  | Throws _ => handler
  | r => r
  end.

(** An object seen through the [StackItem] interface: its identity and what
    each of its accessors returns or throws. *)
Record StackItemObject : Type := mkObject {
  identity : loc;
  getBigInteger : outcome Z;
  getBoolean : outcome bool;
  getByteArray : outcome Buffer;
  getInterface : outcome loc;
  getArray : outcome loc;
  getStruct : outcome loc;
  getMap : outcome loc;
  isMapKey : bool
}.

Module IntegerType.
(** An instance: its identity and its [value] field, a [Long]. *)
Record t : Type := new { this : loc; value : Z }.

Definition object (i : t) : StackItemObject := {|
  identity := this i;
  getBigInteger := Returns (value i);
  getBoolean := Returns (negb (value i =? 0)%Z);
  getByteArray := Returns (bigIntToBytes (value i));
  getInterface := Throws (Error "Not support integer to interface");
  getArray := Throws (Error "Not support integer to array");
  getStruct := Throws (Error "Not support integer to struct");
  getMap := Throws (Error "Not support integer to map");
  isMapKey := true
|}.

(** [other] is [None] when the argument is [undefined]. *)
Definition equals (i : t) (other : option StackItemObject) : outcome bool :=
  match other with
  | None => Returns false
  | Some o =>
      if decide (this i = identity o) then Returns true
      else
        try_catch
          (v ← getBigInteger o;
           Returns (value i =? v)%Z)
          (b ← getByteArray o;
           tb ← getByteArray (object i);
           Returns (bool_decide (b = tb)))
  end.
End IntegerType.

Module BooleanType.
Record t : Type := new { this : loc; value : bool }.

Definition object (i : t) : StackItemObject := {|
  identity := this i;
  getBigInteger := Returns (if value i then 1 else 0)%Z;
  getBoolean := Returns (value i);
  getByteArray := Returns [if value i then x01 else x00];
  getInterface := Throws (Error "Not support boolean to interface");
  getArray := Throws (Error "Not support boolean to array");
  getStruct := Throws (Error "Not support boolean to struct");
  getMap := Throws (Error "Not support boolean to map");
  isMapKey := true
|}.

(** Calling a method of [undefined] raises a TypeError inside the [try]. *)
Definition equals (i : t) (other : option StackItemObject) : outcome bool :=
  if decide (Some (this i) = identity <$> other) then Returns true
  else
    try_catch
      (b ← from_option getByteArray (Throws TypeError) other;
       tb ← getByteArray (object i);
       Returns (bool_decide (tb = b)))
      (Returns false).
End BooleanType.

(** ** A concrete host

    The theorems below hold for every [Host] satisfying [HostLaws]. This one,
    used for the worked examples, has the variable-length integer of the
    Ontology wire format, the UTF-8 decoding of [Buffer.prototype.toString()]
    and the limits of the Ontology virtual machine. *)

Fixpoint le_bytes (k : nat) (n : N) : Buffer :=
  match k with
  | O => []
  | S k' => byte_of_N n :: le_bytes k' (n / 256)
  end.

Fixpoint le_value (bs : Buffer) : N :=
  match bs with
  | [] => 0
  | b :: bs' => Byte.to_N b + 256 * le_value bs'
  end.

Definition varuint_bytes (n : N) : Buffer :=
  if (n <? 0xFD)%N then [byte_of_N n]
  else if (n <=? 0xFFFF)%N then xfd :: le_bytes 2 n
  else if (n <=? 0xFFFFFFFF)%N then xfe :: le_bytes 4 n
  else xff :: le_bytes 8 n.

Definition read_le (k : nat) (r : Buffer) : option (N * Buffer) :=
  if length r <? k then None else Some (le_value (take k r), drop k r).

Definition varuint_read (bs : Buffer) : option (N * Buffer) :=
  match bs with
  | [] => None
  | b :: r =>
      if decide (b = xfd) then read_le 2 r
      else if decide (b = xfe) then read_le 4 r
      else if decide (b = xff) then read_le 8 r
      else Some (Byte.to_N b, r)
  end.

(** State of the UTF-8 decoder inside a multi-byte sequence: continuation
    bytes still needed, the code point so far, and the range the next byte
    must lie in. *)
Record utf8_state : Type := mkUtf8 {
  needed : nat; code_point : N; lower : N; upper : N
}.

(** A byte met outside a sequence. *)
Definition utf8_start (x : N) (continue : option utf8_state -> list N) : list N :=
  if (x <=? 0x7F)%N then x :: continue None
  else if ((0xC2 <=? x) && (x <=? 0xDF))%N then
    continue (Some (mkUtf8 1 (x - 0xC0) 0x80 0xBF))
  else if ((0xE0 <=? x) && (x <=? 0xEF))%N then
    continue (Some (mkUtf8 2 (x - 0xE0)
                      (if (x =? 0xE0)%N then 0xA0 else 0x80)
                      (if (x =? 0xED)%N then 0x9F else 0xBF))%N)
  else if ((0xF0 <=? x) && (x <=? 0xF4))%N then
    continue (Some (mkUtf8 3 (x - 0xF0)
                      (if (x =? 0xF0)%N then 0x90 else 0x80)
                      (if (x =? 0xF4)%N then 0x8F else 0xBF))%N)
  else 0xFFFD%N :: continue None.

(** The code points of a byte sequence; every maximal ill-formed part
    becomes U+FFFD. *)
Fixpoint utf8_decode (bs : Buffer) (st : option utf8_state) : list N :=
  match bs with
  | [] => match st with Some _ => [0xFFFD%N] | None => [] end
  | b :: bs' =>
      let x := Byte.to_N b in
      match st with
      | None => utf8_start x (utf8_decode bs')
      | Some s =>
          if ((lower s <=? x) && (x <=? upper s))%N then
            let cp := (code_point s * 64 + (x - 0x80))%N in
            match needed s with
            | 1 => cp :: utf8_decode bs' None
            | n => utf8_decode bs' (Some (mkUtf8 (pred n) cp 0x80 0xBF))
            end
          else 0xFFFD%N :: utf8_start x (utf8_decode bs')
      end
  end.

(** Code points as UTF-16 code units. *)
Definition utf16 (cps : list N) : jsstring :=
  flat_map (fun cp =>
              if (cp <? 0x10000)%N then [cp]
              else [0xD800 + (cp - 0x10000) / 1024; 0xDC00 + (cp - 0x10000) mod 1024]%N)
           cps.

Definition utf8_toString (bs : Buffer) : jsstring := utf16 (utf8_decode bs None).

#[global] Instance ontology_host : Host := {|
  MAX_STRUCT_DEPTH := 10;
  MAX_BYTEARRAY_SIZE := 1048576;
  encodeVarUint := varuint_bytes;
  decodeVarUint := varuint_read;
  Buffer_toString := utf8_toString
|}.

(** ** Example stores *)

Definition store (its : list (loc * StackItem)) (arrs : list (loc * list loc))
    (mps : list (loc * list (loc * loc))) : Heap :=
  mkHeap (list_to_map its) (list_to_map arrs) (list_to_map mps).

(** [n] Arrays of one element each, the item at [i] holding the item at
    [i + 1], around [leaf] at [n]. *)
Definition chain_store (n : nat) (leaf : StackItem) (leaf_arrays : list (loc * list loc)) : Heap :=
  store (map (fun i => (i, ArrayType i)) (seq 0 n) ++ [(n, leaf)])
        (map (fun i => (i, [S i])) (seq 0 n) ++ leaf_arrays)
        [].

(** [Integer(0)] on its own. *)
Definition store_zero : Heap := store [(0, IntegerType 0)] [] [].

(** An Array holding scalars and a Map. *)
Definition store_mixed : Heap :=
  store [(0, ArrayType 0); (1, IntegerType 0); (2, BooleanType true);
         (3, ByteArrayType [x61]); (4, MapType 0); (5, ByteArrayType [x62]);
         (6, IntegerType (-129)); (7, StructType 1)]
        [(0, [1; 2; 3; 4; 6; 7]); (1, [2; 2])]
        [(0, [(5, 1); (3, 2)])].

Definition tree_mixed : value :=
  VArray [VInteger 0; VBoolean true; VByteArray [x61];
          VMap [(VByteArray [x62], VInteger 0); (VByteArray [x61], VBoolean true)];
          VInteger (-129); VStruct [VBoolean true; VBoolean true]].

(** A Map with a Boolean key. *)
Definition store_boolean_key : Heap :=
  store [(0, MapType 0); (1, BooleanType true); (2, IntegerType 1)]
        [] [(0, [(1, 2)])].

(** Two Maps with the entries "b" -> 2 and "a" -> 1, inserted in opposite
    orders. *)
Definition store_two_orders : Heap :=
  store [(0, MapType 0); (1, MapType 1);
         (2, ByteArrayType [x62]); (3, IntegerType 2);
         (4, ByteArrayType [x61]); (5, IntegerType 1)]
        [] [(0, [(2, 3); (4, 5)]); (1, [(4, 5); (2, 3)])].

(** A Map whose keys are the byte 0x80, which is not UTF-8 and becomes
    U+FFFD, and the bytes 0xC2 0x80, which are U+0080. *)
Definition store_byte_order : Heap :=
  store [(0, MapType 0); (1, ByteArrayType [x80]); (2, ByteArrayType [xc2; x80]);
         (3, IntegerType 1); (4, IntegerType 2)]
        [] [(0, [(1, 3); (2, 4)])].

(** Two Maps with the same two entries, inserted in opposite orders; the
    keys, a ByteArray and an Integer, have the same bytes. *)
Definition store_same_bytes : Heap :=
  store [(0, MapType 0); (1, MapType 1);
         (2, ByteArrayType [x01]); (3, BooleanType true);
         (4, IntegerType 1); (5, BooleanType false)]
        [] [(0, [(2, 3); (4, 5)]); (1, [(4, 5); (2, 3)])].

(** A Map whose two ByteArray keys, 0xFF and 0xFE, are both ill-formed
    UTF-8. *)
Definition store_colliding : Heap :=
  store [(0, MapType 0); (1, ByteArrayType [xff]); (2, IntegerType 1);
         (3, ByteArrayType [xfe]); (4, IntegerType 2)]
        [] [(0, [(1, 2); (3, 4)])].

(** An Array that holds an Integer and, inside a Struct inside a Map,
    itself. *)
Definition store_cyclic : Heap :=
  store [(0, ArrayType 0); (1, IntegerType 7); (2, MapType 0);
         (3, ByteArrayType [x6b]); (4, StructType 1)]
        [(0, [1; 2]); (1, [0])]
        [(0, [(3, 4)])].

(** An Array that holds one Array twice and one Map twice, the Map holding
    that Array again. *)
Definition store_shared : Heap :=
  store [(0, ArrayType 0); (1, ArrayType 1); (2, IntegerType 7);
         (3, MapType 0); (4, ByteArrayType [x6b])]
        [(0, [1; 1; 3; 3]); (1, [2; 2])]
        [(0, [(4, 1)])].

(** An Array that holds a Struct that holds an Interop item. *)
Definition store_interop : Heap :=
  store [(0, ArrayType 0); (1, StructType 1); (2, InteropType)]
        [(0, [1]); (1, [2])] [].

(** A Map whose only key is the Integer 0. *)
Definition store_zero_key : Heap :=
  store [(0, MapType 0); (1, IntegerType 0); (2, ByteArrayType [x61])]
        [] [(0, [(1, 2)])].

(** An empty Array, an empty Struct and an empty Map. *)
Definition store_empty : Heap :=
  store [(0, ArrayType 0); (1, StructType 0); (2, MapType 0)]
        [(0, [])] [(0, [])].

(** Objects for [equals]: the Integer 5, the Boolean true, and an item whose
    coercion to a big integer throws and whose bytes are 0x05. *)
Definition integer_five : IntegerType.t := IntegerType.new 0 5.
Definition boolean_true : BooleanType.t := BooleanType.new 1 true.
Definition bytes_five : StackItemObject := {|
  identity := 2;
  getBigInteger := Throws (Error "Not support byte array to integer");
  getBoolean := Returns true;
  getByteArray := Returns [x05];
  getInterface := Throws (Error "Not support byte array to interface");
  getArray := Throws (Error "Not support byte array to array");
  getStruct := Throws (Error "Not support byte array to struct");
  getMap := Throws (Error "Not support byte array to map");
  isMapKey := true
|}.

(** An item whose coercion to bytes throws. *)
Definition no_bytes : StackItemObject := {|
  identity := 3;
  getBigInteger := Throws (Error "Not support to integer");
  getBoolean := Returns true;
  getByteArray := Throws (Error "Not support to byte array");
  getInterface := Throws (Error "Not support to interface");
  getArray := Returns 0;
  getStruct := Throws (Error "Not support to struct");
  getMap := Throws (Error "Not support to map");
  isMapKey := false
|}.

(** * Properties *)

(** ** Bytes *)

Lemma to_N_lt_256 (b : byte) : (Byte.to_N b < 256)%N.
Proof. pose proof (Byte.to_N_bounded b). lia. Qed.

Lemma to_N_byte_of_N (n : N) : Byte.to_N (byte_of_N n) = (n mod 256)%N.
Proof.
  unfold byte_of_N.
  destruct (Byte.of_N (n mod 256)) as [b|] eqn:E.
  - by apply Byte.to_of_N.
  - apply Byte.of_N_None_iff in E.
    pose proof (N.mod_upper_bound n 256). lia.
Qed.

Lemma byte_of_N_to_N (b : byte) : byte_of_N (Byte.to_N b) = b.
Proof.
  unfold byte_of_N. rewrite N.mod_small by apply to_N_lt_256.
  by rewrite Byte.of_to_N.
Qed.

Lemma Z_of_byte_of_Z (z : Z) : Z_of_byte (byte_of_Z z) = (z mod 256)%Z.
Proof.
  unfold Z_of_byte, byte_of_Z. rewrite to_N_byte_of_N.
  pose proof (Z.mod_pos_bound z 256).
  rewrite N.mod_small; lia.
Qed.

Lemma to_N_inj (a b : byte) : Byte.to_N a = Byte.to_N b -> a = b.
Proof.
  intros E. rewrite <- (byte_of_N_to_N a), <- (byte_of_N_to_N b). by rewrite E.
Qed.

(** ** The order on JavaScript strings *)

Lemma jsstring_leb_total (a b : jsstring) :
  jsstring_leb a b = true \/ jsstring_leb b a = true.
Proof.
  revert b. induction a as [|x a IH]; intros [|y b]; simpl; auto.
  destruct (N.ltb_spec x y), (N.ltb_spec y x); auto; lia.
Qed.

Lemma jsstring_leb_trans (a b c : jsstring) :
  jsstring_leb a b = true -> jsstring_leb b c = true -> jsstring_leb a c = true.
Proof.
  revert b c. induction a as [|x a IH]; intros [|y b] [|z c]; simpl; auto; try done.
  destruct (N.ltb_spec x y), (N.ltb_spec y x), (N.ltb_spec y z), (N.ltb_spec z y),
    (N.ltb_spec x z), (N.ltb_spec z x); try done; try lia.
  apply IH.
Qed.

Lemma jsstring_leb_antisym (a b : jsstring) :
  jsstring_leb a b = true -> jsstring_leb b a = true -> a = b.
Proof.
  revert b. induction a as [|x a IH]; intros [|y b]; simpl; auto; try done.
  destruct (N.ltb_spec x y), (N.ltb_spec y x); try done; try lia.
  intros. f_equal; [lia | auto].
Qed.

#[global] Instance jsstring_le_total : Total jsstring_le.
Proof. intros a b. apply jsstring_leb_total. Qed.
#[global] Instance jsstring_le_trans : Transitive jsstring_le.
Proof. intros a b c. apply jsstring_leb_trans. Qed.
#[global] Instance jsstring_le_antisym : AntiSymm (=) jsstring_le.
Proof. intros a b. apply jsstring_leb_antisym. Qed.

(** The result of [sort] does not depend on the order of its input. *)
Lemma sort_Permutation (l1 l2 : list jsstring) : l1 ≡ₚ l2 -> sort l1 = sort l2.
Proof.
  intros HP. unfold sort.
  apply (Sorted_unique jsstring_le); try apply Sorted_merge_sort; try apply _.
  by rewrite !merge_sort_Permutation.
Qed.

Lemma sort_sorted (l : list jsstring) : StronglySorted jsstring_le (sort l).
Proof. apply StronglySorted_merge_sort; apply _. Qed.

(** ** Integers as bytes *)

Lemma single_byte_signed (v : Z) :
  (-128 <= v < 128)%Z ->
  (if (v mod 256 <? 128)%Z then v mod 256 else v mod 256 - 256)%Z = v.
Proof.
  intros Hv. destruct (Z.le_gt_cases 0 v) as [Hpos|Hneg].
  - rewrite Z.mod_small by lia. destruct (Z.ltb_spec v 128); lia.
  - assert (v mod 256 = v + 256)%Z as ->
      by (symmetry; apply Z.mod_unique with (q := (-1)%Z); lia).
    destruct (Z.ltb_spec (v + 256) 128); lia.
Qed.

Lemma small_test (v : Z) :
  ((-128 <=? v) && (v <? 128))%Z = true <-> (-128 <= v < 128)%Z.
Proof. rewrite andb_true_iff, Z.leb_le, Z.ltb_lt. done. Qed.

Lemma minimalLE_spec (n : nat) (v : Z) :
  (- (128 * 256 ^ Z.of_nat n) <= v < 128 * 256 ^ Z.of_nat n)%Z ->
  bigIntFromBytes (minimalLE (S n) v) = v /\
  1 <= length (minimalLE (S n) v) <= S n.
Proof.
  revert v. induction n as [|n IH]; intros v Hv.
  - assert (-128 <= v < 128)%Z as Hs by (simpl in Hv; lia).
    simpl. rewrite (proj2 (small_test v) Hs). simpl.
    rewrite Z_of_byte_of_Z. split; [by apply single_byte_signed | lia].
  - change (minimalLE (S (S n)) v) with
      (if ((-128 <=? v)%Z && (v <? 128)%Z) then [byte_of_Z v]
       else byte_of_Z v :: minimalLE (S n) (v / 256)).
    destruct ((-128 <=? v)%Z && (v <? 128)%Z) eqn:E.
    + apply small_test in E. simpl. rewrite Z_of_byte_of_Z.
      split; [by apply single_byte_signed | lia].
    + rewrite Nat2Z.inj_succ, Z.pow_succ_r in Hv by lia.
      assert (0 < 256 ^ Z.of_nat n)%Z by (apply Z.pow_pos_nonneg; lia).
      destruct (IH (v / 256)%Z) as [Hval Hlen].
      { split.
        - apply Z.div_le_lower_bound; lia.
        - apply Z.div_lt_upper_bound; lia. }
      split; [|cbn [length]; lia].
      destruct (minimalLE (S n) (v / 256)) as [|b bs] eqn:Em; [simpl in Hlen; lia|].
      change (bigIntFromBytes (byte_of_Z v :: b :: bs))
        with (Z_of_byte (byte_of_Z v) + 256 * bigIntFromBytes (b :: bs))%Z.
      rewrite Hval, Z_of_byte_of_Z.
      pose proof (Z.div_mod v 256). lia.
Qed.

(** A [Long] is read back from its bytes, of which there are at most
    eight. *)
Lemma bigIntFromBytes_bigIntToBytes (z : Z) :
  (- 2 ^ 63 <= z < 2 ^ 63)%Z ->
  bigIntFromBytes (bigIntToBytes z) = z /\ length (bigIntToBytes z) <= 8.
Proof.
  intros Hz. unfold bigIntToBytes.
  destruct (Z.eqb_spec z 0) as [->|Hnz]; [simpl; split; [done|lia]|].
  destruct (minimalLE_spec 7 z) as [? ?]; [|split; [done|lia]].
  change (128 * 256 ^ Z.of_nat 7)%Z with (2 ^ 63)%Z. lia.
Qed.

(** Whatever at most eight bytes denote is a signed 64-bit number. *)
Lemma bigIntFromBytes_range (bs : Buffer) :
  bs <> [] ->
  (- (128 * 256 ^ Z.of_nat (pred (length bs))) <= bigIntFromBytes bs
   < 128 * 256 ^ Z.of_nat (pred (length bs)))%Z.
Proof.
  induction bs as [|b bs IH]; [done|]. intros _.
  assert (0 <= Z_of_byte b < 256)%Z as Hb
    by (unfold Z_of_byte; pose proof (to_N_lt_256 b); lia).
  destruct bs as [|b' bs].
  - simpl. destruct (Z.ltb_spec (Z_of_byte b) 128); lia.
  - change (bigIntFromBytes (b :: b' :: bs))
      with (Z_of_byte b + 256 * bigIntFromBytes (b' :: bs))%Z.
    specialize (IH ltac:(done)).
    change (pred (length (b :: b' :: bs))) with (S (pred (length (b' :: bs)))).
    rewrite Nat2Z.inj_succ, Z.pow_succ_r by lia. lia.
Qed.

Lemma bigIntFromBytes_int64 (bs : Buffer) :
  length bs <= 8 -> (- 2 ^ 63 <= bigIntFromBytes bs < 2 ^ 63)%Z.
Proof.
  intros Hlen. destruct (decide (bs = [])) as [->|Hne]; [simpl; lia|].
  pose proof (bigIntFromBytes_range bs Hne) as Hr.
  assert (0 < 256 ^ Z.of_nat (pred (length bs)) <= 256 ^ 7)%Z.
  { split; [apply Z.pow_pos_nonneg; lia | apply Z.pow_le_mono_r; lia]. }
  change (2 ^ 63)%Z with (128 * 256 ^ 7)%Z. lia.
Qed.

(** ** The concrete host satisfies the laws *)

Lemma length_le_bytes (k : nat) (n : N) : length (le_bytes k n) = k.
Proof. revert n. induction k as [|k IH]; intros n; simpl; [done|]. by rewrite IH. Qed.

Lemma le_value_le_bytes (k : nat) (n : N) :
  le_value (le_bytes k n) = (n mod 256 ^ N.of_nat k)%N.
Proof.
  revert n. induction k as [|k IH]; intros n.
  - simpl. by rewrite N.mod_1_r.
  - cbn [le_bytes le_value]. rewrite IH, to_N_byte_of_N.
    rewrite Nat2N.inj_succ, N.pow_succ_r'.
    rewrite N.Div0.mod_mul_r. lia.
Qed.

Lemma read_le_le_bytes (k : nat) (n : N) (rest : Buffer) :
  (n < 256 ^ N.of_nat k)%N ->
  read_le k (le_bytes k n ++ rest) = Some (n, rest).
Proof.
  intros Hn. unfold read_le.
  rewrite length_app, length_le_bytes.
  destruct (Nat.ltb_spec (k + length rest) k); [lia|].
  rewrite take_app_length', drop_app_length' by (by rewrite length_le_bytes).
  by rewrite le_value_le_bytes, N.mod_small.
Qed.

Lemma varuint_read_varuint_bytes (n : N) (rest : Buffer) :
  (n < 2 ^ 64)%N -> varuint_read (varuint_bytes n ++ rest) = Some (n, rest).
Proof.
  intros Hn. unfold varuint_bytes.
  destruct (N.ltb_spec n 0xFD) as [Hs|Hs].
  - simpl. assert (Byte.to_N (byte_of_N n) = n) as Hb
      by (rewrite to_N_byte_of_N, N.mod_small; lia).
    repeat case_decide;
      try (match goal with E : byte_of_N n = _ |- _ =>
             rewrite E in Hb; simpl in Hb; lia end).
    by rewrite Hb.
  - destruct (N.leb_spec n 0xFFFF); [|destruct (N.leb_spec n 0xFFFFFFFF)];
      cbn [app varuint_read]; repeat (case_decide; try done);
      apply read_le_le_bytes; simpl; lia.
Qed.

Lemma read_le_length (k : nat) (bs rest : Buffer) (n : N) :
  read_le k bs = Some (n, rest) -> length rest <= length bs.
Proof.
  unfold read_le. destruct (length bs <? k); [done|].
  intros [= _ <-]. rewrite length_drop. lia.
Qed.

Lemma varuint_read_length (bs rest : Buffer) (n : N) :
  varuint_read bs = Some (n, rest) -> length rest <= length bs.
Proof.
  destruct bs as [|b r]; [done|]. cbn [varuint_read length].
  repeat case_decide; try (intros ?%read_le_length; lia).
  intros [= _ <-]. lia.
Qed.

#[global] Instance ontology_laws : HostLaws ontology_host.
Proof.
  split.
  - apply varuint_read_varuint_bytes.
  - apply varuint_read_length.
  - done.
Qed.

Section Properties.
Context `{host : Host} {laws : HostLaws host}.

(** ** Writer and reader *)

Lemma write_fits (bs : Buffer) (w : Writer) :
  fits bs w -> write bs w = Ok (append bs w).
Proof.
  unfold fits, write, append. intros Hf.
  destruct (N.ltb_spec (limit w) (N.of_nat (length (written w) + length bs))); [lia|done].
Qed.

Lemma write_overflow (bs : Buffer) (w : Writer) :
  ~ fits bs w -> write bs w = Throw WriterError.
Proof.
  unfold fits, write. intros Hf.
  destruct (N.ltb_spec (limit w) (N.of_nat (length (written w) + length bs))); [done|lia].
Qed.

Lemma append_append (b1 b2 : Buffer) (w : Writer) :
  append b2 (append b1 w) = append (b1 ++ b2) w.
Proof. unfold append. simpl. by rewrite app_assoc. Qed.

Lemma append_nil (w : Writer) : append [] w = w.
Proof. destruct w. unfold append. simpl. by rewrite app_nil_r. Qed.

Lemma fits_app (b1 b2 : Buffer) (w : Writer) :
  fits (b1 ++ b2) w <-> fits b1 w /\ fits b2 (append b1 w).
Proof. unfold fits, append. simpl. rewrite !length_app. lia. Qed.

Lemma fits_cons (b : byte) (bs : Buffer) (w : Writer) :
  fits (b :: bs) w <-> fits [b] w /\ fits bs (append [b] w).
Proof. apply (fits_app [b] bs). Qed.

Lemma fits_length (bs : Buffer) (w : Writer) :
  fits bs w -> (N.of_nat (length bs) <= limit w)%N.
Proof. unfold fits. lia. Qed.

Lemma readVarUInt_encode (n : N) (rest : Buffer) :
  (n < 2 ^ 64)%N -> readVarUInt (encodeVarUint n ++ rest) = Ok (n, rest).
Proof. intros Hn. unfold readVarUInt. by rewrite decode_encodeVarUint. Qed.

Lemma readVarBytes_encode (bs rest : Buffer) :
  (N.of_nat (length bs) < 2 ^ 64)%N ->
  readVarBytes (encodeVarUint (N.of_nat (length bs)) ++ bs ++ rest) = Ok (bs, rest).
Proof.
  intros Hn. unfold readVarBytes. rewrite readVarUInt_encode by done. simpl.
  rewrite length_app.
  destruct (N.ltb_spec (N.of_nat (length bs + length rest)) (N.of_nat (length bs))); [lia|].
  rewrite Nat2N.id. by rewrite take_app_length, drop_app_length.
Qed.

End Properties.

(** ** Equality of Integer and Boolean items *)

(** Claim C10. [IntegerType.equals] compares numerically whenever the other
    item can be coerced to a big integer, and compares the byte arrays of
    both sides only when that coercion throws (an exception of the byte
    coercion then escapes). [BooleanType.equals] looks at the byte arrays
    only, and an exception of the coercion gives [false]. *)
Theorem equals_fallback (i : IntegerType.t) (b : BooleanType.t) (o : StackItemObject) :
  IntegerType.this i <> identity o ->
  BooleanType.this b <> identity o ->
  IntegerType.equals i (Some o) =
    match getBigInteger o with
    | Returns v => Returns (IntegerType.value i =? v)%Z
    | Throws _ =>
        match getByteArray o with
        | Returns bs => Returns (bool_decide (bs = bigIntToBytes (IntegerType.value i)))
        | Throws e => Throws e
        end
    end
  /\ BooleanType.equals b (Some o) =
    match getByteArray o with
    | Returns bs =>
        Returns (bool_decide ([if BooleanType.value b then x01 else x00] = bs))
    | Throws _ => Returns false
    end
  /\ BooleanType.equals b None = Returns false.
Proof.
  intros Hi Hb. split; [|split].
  - unfold IntegerType.equals. case_decide; [done|].
    destruct (getBigInteger o); simpl; [done|].
    by destruct (getByteArray o).
  - unfold BooleanType.equals. simpl. case_decide; [congruence|].
    by destruct (getByteArray o).
  - done.
Qed.

(** The identity short-circuit of both methods. *)
Lemma equals_identity (i : IntegerType.t) (b : BooleanType.t) :
  IntegerType.equals i (Some (IntegerType.object i)) = Returns true /\
  BooleanType.equals b (Some (BooleanType.object b)) = Returns true.
Proof.
  split.
  - unfold IntegerType.equals. by case_decide.
  - unfold BooleanType.equals. by case_decide.
Qed.

Section Guard.
Context `{host : Host}.

(** ** The cycle and depth guard *)

Lemma guard_too_deep (fuel : nat) (h : Heap) (l : loc)
    (visited : gmap (loc + loc) bool) (d : nat) :
  MAX_STRUCT_DEPTH < d ->
  circularRefAndDepthDetectionInternal (S fuel) h l visited d = Ok (true, visited).
Proof. intros Hd. simpl. by case_decide. Qed.

(** Claim C8, as the code has it. The depth check comes first for every
    value, so beyond [MAX_STRUCT_DEPTH] the answer is [true] whatever the
    value is. Up to that depth an empty Array or Struct gives [false] without
    a look at the open set; an empty Map is looked up in the open set like
    any other Map, and gives [false] when it is not in it. In each case the
    open set is left as it was. *)
Theorem guard_empty_container (fuel : nat) (h : Heap) (l : loc)
    (visited : gmap (loc + loc) bool) (d : nat) :
  match items h !! l with
  | Some (ArrayType a) | Some (StructType a) => arrays h !! a = Some []
  | Some (MapType m) => maps h !! m = Some [] /\ visited !! inr m = None
  | _ => False
  end ->
  circularRefAndDepthDetectionInternal (S fuel) h l visited d =
    Ok (bool_decide (MAX_STRUCT_DEPTH < d), visited).
Proof.
  intros Hl. simpl. case_decide as Hd.
  - by rewrite bool_decide_eq_true_2.
  - rewrite bool_decide_eq_false_2 by done.
    destruct (items h !! l) as [[bs|bo|z|a|a|a|]|]; try done; simpl.
    + unfold guard_sequence. by rewrite Hl.
    + unfold guard_sequence. by rewrite Hl.
    + destruct Hl as [-> Hv]. simpl. case_decide; [congruence|].
      simpl. by rewrite delete_insert_id.
Qed.

(** *** The loops *)

Notation visited_set := (gmap (loc + loc) bool).

Lemma guard_each_false (rec : loc -> visited_set -> nat -> result (bool * visited_set))
    (cs : list loc) (V : visited_set) (d : nat) :
  Forall (fun c => rec c V (d + 1) = Ok (false, V)) cs ->
  guard_each rec cs V d = Ok (false, V).
Proof.
  induction 1 as [|c cs Hc _ IH]; simpl; [done|]. rewrite Hc. simpl. done.
Qed.

Lemma guard_entries_false (rec : loc -> visited_set -> nat -> result (bool * visited_set))
    (mp : list (loc * loc)) (V : visited_set) (d : nat) :
  Forall (fun c => rec c V (d + 1) = Ok (false, V)) (flat_map (fun e => [e.1; e.2]) mp) ->
  guard_entries rec mp V d = Ok (false, V).
Proof.
  induction mp as [|[k v] mp IH]; simpl; [done|].
  intros HF. apply Forall_cons in HF as [Hk HF]. apply Forall_cons in HF as [Hv Hmp]. rewrite Hk. simpl. rewrite Hv. simpl. auto.
Qed.

Lemma guard_each_inv (rec : loc -> visited_set -> nat -> result (bool * visited_set))
    (cs : list loc) (V V' : visited_set) (d : nat) :
  guard_each rec cs V d = Ok (false, V') ->
  Forall (fun c => exists V1 V2, rec c V1 (d + 1) = Ok (false, V2)) cs.
Proof.
  revert V. induction cs as [|c cs IH]; intros V; simpl; [constructor|].
  destruct (rec c V (d + 1)) as [[[] V1]| |] eqn:E; simpl; try done.
  intros HR. constructor; eauto.
Qed.

Lemma guard_entries_inv (rec : loc -> visited_set -> nat -> result (bool * visited_set))
    (mp : list (loc * loc)) (V V' : visited_set) (d : nat) :
  guard_entries rec mp V d = Ok (false, V') ->
  Forall (fun c => exists V1 V2, rec c V1 (d + 1) = Ok (false, V2))
    (flat_map (fun e => [e.1; e.2]) mp).
Proof.
  revert V. induction mp as [|[k v] mp IH]; intros V; simpl; [constructor|].
  destruct (rec k V (d + 1)) as [[[] V1]| |] eqn:Ek; simpl; try done.
  destruct (rec v V1 (d + 1)) as [[[] V2]| |] eqn:Ev; simpl; try done.
  intros HR. repeat constructor; eauto.
Qed.

Lemma guard_each_total (rec : loc -> visited_set -> nat -> result (bool * visited_set))
    (cs : list loc) (V : visited_set) (d : nat) :
  Forall (fun c => forall V1, exists r, rec c V1 (d + 1) = Ok r) cs ->
  exists r, guard_each rec cs V d = Ok r.
Proof.
  intros HF. revert V. induction HF as [|c cs Hc _ IH]; intros V; simpl; [eauto|].
  destruct (Hc V) as [[[] V1] ->]; simpl; eauto.
Qed.

Lemma guard_entries_total (rec : loc -> visited_set -> nat -> result (bool * visited_set))
    (mp : list (loc * loc)) (V : visited_set) (d : nat) :
  Forall (fun c => forall V1, exists r, rec c V1 (d + 1) = Ok r)
    (flat_map (fun e => [e.1; e.2]) mp) ->
  exists r, guard_entries rec mp V d = Ok r.
Proof.
  revert V. induction mp as [|[k v] mp IH]; intros V; simpl; [eauto|].
  intros HF. apply Forall_cons in HF as [Hk HF]. apply Forall_cons in HF as [Hv Hmp].
  destruct (Hk V) as [[[] V1] ->]; simpl; eauto.
  destruct (Hv V1) as [[[] V2] ->]; simpl; eauto.
Qed.

(** *** The guard always answers *)

(** Where every reference that is followed leads to an object, the guard
    returns [true] or [false]: it neither throws nor runs beyond the depth
    limit. [P] is any set of items closed under taking children. *)
Lemma guard_total_on (P : loc -> Prop) (h : Heap) :
  (forall l, P l -> exists cs, children h l = Some cs /\ Forall P cs) ->
  forall (fuel : nat) (l : loc) (V : visited_set) (d : nat),
    P l -> 1 <= fuel -> MAX_STRUCT_DEPTH + 2 <= fuel + d ->
    exists r, circularRefAndDepthDetectionInternal fuel h l V d = Ok r.
Proof.
  intros Hc fuel. induction fuel as [|fuel IH]; intros l V d Hl H1 Hf; [lia|].
  simpl. case_decide as Hd; [eauto|].
  assert (forall cs, Forall P cs ->
            Forall (fun c => forall V1, exists r,
              circularRefAndDepthDetectionInternal fuel h c V1 (d + 1) = Ok r) cs) as Hrec.
  { intros cs HF. eapply Forall_impl; [done|]. intros c Hsome V1. apply IH; [done|lia..]. }
  destruct (Hc l Hl) as (cs & Hcs & Hall). apply Hrec in Hall.
  unfold children in Hcs.
  destruct (items h !! l) as [[bs|bo|z|a|a|a|]|] eqn:Eit; simpl; eauto.
  - unfold guard_sequence. rewrite Hcs. simpl.
    repeat case_decide; eauto.
    destruct (guard_each_total _ cs (<[inl a:=true]> V) d Hall) as [[[] V1] ->];
      simpl; eauto.
  - unfold guard_sequence. rewrite Hcs. simpl.
    repeat case_decide; eauto.
    destruct (guard_each_total _ cs (<[inl a:=true]> V) d Hall) as [[[] V1] ->];
      simpl; eauto.
  - destruct (maps h !! a) as [mp|] eqn:Emp; [|done]. simpl in *.
    injection Hcs as <-. case_decide; eauto.
    destruct (guard_entries_total _ mp (<[inr a:=true]> V) d Hall) as [[[] V1] ->];
      simpl; eauto.
  - done.
Qed.

Lemma closed_children (h : Heap) (l : loc) :
  closed h -> is_Some (items h !! l) ->
  exists cs, children h l = Some cs /\ Forall (fun c => is_Some (items h !! c)) cs.
Proof.
  intros Hc [it Hit]. specialize (Hc l it Hit). simpl in Hc.
  unfold item_closed in Hc. destruct (children h l) as [cs|]; [|done].
  exists cs. split; [done|]. apply Forall_forall. intros c Hin.
  rewrite forallb_forall in Hc. apply list_elem_of_In, Hc in Hin.
  by apply bool_decide_eq_true in Hin.
Qed.

Lemma guard_total (fuel : nat) (h : Heap) (l : loc) (V : visited_set) (d : nat) :
  closed h -> is_Some (items h !! l) ->
  1 <= fuel -> MAX_STRUCT_DEPTH + 2 <= fuel + d ->
  exists r, circularRefAndDepthDetectionInternal fuel h l V d = Ok r.
Proof.
  intros Hc. apply (guard_total_on (fun l => is_Some (items h !! l))).
  intros l'. by apply closed_children.
Qed.

(** *** What the answer [false] means *)

Lemma within_depth_unfold (h : Heap) (n : nat) (l : loc) :
  within_depth h n l =
    match children h l with
    | None => false
    | Some [] => true
    | Some cs =>
        match n with
        | O => false
        | S n' => forallb (within_depth h n') cs
        end
    end.
Proof. by destruct n. Qed.

Lemma within_depth_children (h : Heap) (n : nat) (l : loc) (cs : list loc) :
  children h l = Some cs -> cs <> [] -> 0 < n ->
  Forall (fun c => within_depth h (pred n) c = true) cs ->
  within_depth h n l = true.
Proof.
  intros Hcs Hne Hn HF. rewrite within_depth_unfold, Hcs.
  destruct cs as [|c cs]; [done|]. destruct n as [|n]; [lia|].
  apply forallb_forall. intros x Hx. rewrite Forall_forall in HF.
  apply HF. by apply list_elem_of_In.
Qed.

(** If the guard answers [false], no item below is deeper than the limit. *)
Lemma guard_false_within_depth (fuel : nat) (h : Heap) (l : loc)
    (V V' : visited_set) (d : nat) :
  circularRefAndDepthDetectionInternal fuel h l V d = Ok (false, V') ->
  d <= MAX_STRUCT_DEPTH /\ within_depth h (MAX_STRUCT_DEPTH - d) l = true.
Proof.
  revert l V V' d. induction fuel as [|fuel IH]; intros l V V' d; [done|].
  simpl. case_decide as Hd; [done|]. intros HR. split; [lia|].
  assert (forall cs, cs <> [] -> children h l = Some cs ->
            Forall (fun c => exists V1 V2,
              circularRefAndDepthDetectionInternal fuel h c V1 (d + 1) = Ok (false, V2)) cs ->
            within_depth h (MAX_STRUCT_DEPTH - d) l = true) as Hrec.
  { intros cs Hne Hcs HF.
    assert (Forall (fun c => d + 1 <= MAX_STRUCT_DEPTH /\
              within_depth h (MAX_STRUCT_DEPTH - (d + 1)) c = true) cs) as HF'.
    { eapply Forall_impl; [done|]. intros c (V1 & V2 & Hc). by eapply IH. }
    destruct cs as [|c cs]; [done|].
    pose proof (Forall_inv HF') as [Hle _].
    apply (within_depth_children h _ l (c :: cs)); [done|done|lia|].
    eapply Forall_impl; [done|]. intros x [_ Hx].
    by replace (pred (MAX_STRUCT_DEPTH - d)) with (MAX_STRUCT_DEPTH - (d + 1)) by lia. }
  assert (children h l = Some [] -> within_depth h (MAX_STRUCT_DEPTH - d) l = true) as Hleaf.
  { intros Hcs. by rewrite within_depth_unfold, Hcs. }
  unfold children in *.
  destruct (items h !! l) as [[bs|bo|z|a|a|a|]|] eqn:Eit; simpl in HR; try done; auto.
  - unfold guard_sequence in HR.
    destruct (arrays h !! a) as [cs|]; [|done]. simpl in HR.
    case_decide as Hlen; [destruct cs; [auto|done]|].
    case_decide; [done|].
    destruct (guard_each _ cs _ d) as [[[] V1]| |] eqn:Eg; try done.
    apply guard_each_inv in Eg. apply (Hrec cs); [by intros ->|done..].
  - unfold guard_sequence in HR.
    destruct (arrays h !! a) as [cs|]; [|done]. simpl in HR.
    case_decide as Hlen; [destruct cs; [auto|done]|].
    case_decide; [done|].
    destruct (guard_each _ cs _ d) as [[[] V1]| |] eqn:Eg; try done.
    apply guard_each_inv in Eg. apply (Hrec cs); [by intros ->|done..].
  - destruct (maps h !! a) as [mp|]; [|done]. simpl in HR.
    case_decide; [done|].
    destruct (guard_entries _ mp _ d) as [[[] V1]| |] eqn:Eg; try done.
    apply guard_entries_inv in Eg. simpl.
    destruct mp as [|e mp]; [auto|].
    by apply (Hrec (flat_map (fun e => [e.1; e.2]) (e :: mp))).
Qed.

Lemma within_depth_child (h : Heap) (n : nat) (l c : loc) :
  within_depth h n l = true -> child h l c ->
  exists n', n = S n' /\ within_depth h n' c = true.
Proof.
  rewrite within_depth_unfold. intros Hw (cs & Hcs & Hin). rewrite Hcs in Hw.
  destruct cs as [|c0 cs]; [by apply elem_of_nil in Hin|].
  destruct n as [|n]; [done|]. exists n. split; [done|].
  rewrite forallb_forall in Hw. apply Hw. by apply list_elem_of_In.
Qed.

Lemma within_depth_descendant (h : Heap) (n : nat) (l x : loc) :
  within_depth h n l = true -> tc (child h) l x ->
  exists m, m < n /\ within_depth h m x = true.
Proof.
  intros Hw Htc. revert n Hw. induction Htc as [l x Hc|l y x Hc _ IH]; intros n Hw.
  - destruct (within_depth_child h n l x Hw Hc) as (n' & -> & ?). eauto.
  - destruct (within_depth_child h n l y Hw Hc) as (n' & -> & Hy).
    destruct (IH n' Hy) as (m & ? & ?). exists m. split; [lia|done].
Qed.

(** An item of bounded depth is not among its own descendants. *)
Lemma within_depth_acyclic (h : Heap) (n : nat) (l : loc) :
  within_depth h n l = true -> ~ cyclic h l.
Proof.
  revert l. induction (lt_wf n) as [n _ IH]. intros l Hw Hcyc.
  destruct (within_depth_descendant h n l l Hw Hcyc) as (m & Hm & Hw').
  by apply (IH m Hm l).
Qed.

(** *** Shared substructures *)

Lemma payload_children (h : Heap) (x : loc) (c : loc + loc) :
  payload h x = Some c ->
  children h x =
    match c with
    | inl a => arrays h !! a
    | inr m => (fun mp => flat_map (fun e => [e.1; e.2]) mp) <$> maps h !! m
    end.
Proof.
  unfold payload, children.
  destruct (items h !! x) as [[bs|bo|z|a|a|a|]|]; try done; by intros [= <-].
Qed.

(** Opening the payload of [l] keeps the open set clear of everything below
    a child of [l], because the child does not lead back to [l]. *)
Lemma unopened_child (h : Heap) (V : visited_set) (n : nat) (l k : loc)
    (c : loc + loc) (cs : list loc) :
  unopened h V l -> payload h l = Some c -> children h l = Some cs ->
  k ∈ cs -> within_depth h n k = true ->
  unopened h (<[c := true]> V) k.
Proof.
  intros HV Hp Hcs Hk Hw x c' Hx Hp'.
  assert (child h l k) as Hlk by (by exists cs).
  destruct (decide (c = c')) as [<-|Hne].
  - exfalso. apply (within_depth_acyclic h n k Hw).
    eapply tc_rtc_l; [done|]. apply tc_once. exists cs. split; [|done].
    rewrite <- Hcs. rewrite (payload_children h x c Hp'), (payload_children h l c Hp). done.
  - rewrite lookup_insert_ne by done. apply (HV x); [|done].
    by eapply rtc_l.
Qed.

(** An item of bounded depth passes the guard, whether or not parts of it
    are shared, and the open set is afterwards what it was before. *)
Lemma guard_within_depth (fuel : nat) (h : Heap) (n : nat) (l : loc)
    (V : visited_set) (d : nat) :
  within_depth h n l = true -> n + d <= MAX_STRUCT_DEPTH -> n < fuel ->
  unopened h V l ->
  circularRefAndDepthDetectionInternal fuel h l V d = Ok (false, V).
Proof.
  revert fuel l V d. induction n as [n IH] using lt_wf_ind.
  intros fuel l V d Hw Hd Hf HV.
  destruct fuel as [|fuel]; [lia|]. simpl. case_decide; [lia|].
  assert (forall c cs, payload h l = Some c -> children h l = Some cs -> cs <> [] ->
            V !! c = None /\
            Forall (fun k => circularRefAndDepthDetectionInternal fuel h k
                               (<[c := true]> V) (d + 1) = Ok (false, <[c := true]> V)) cs)
    as Hrec.
  { intros c cs Hp Hcs Hne. split; [by apply (HV l)|].
    rewrite within_depth_unfold, Hcs in Hw.
    destruct cs as [|c0 cs]; [done|]. destruct n as [|n]; [done|].
    rewrite forallb_forall in Hw. apply Forall_forall. intros k Hk.
    assert (within_depth h n k = true) as Hwk by (by apply Hw, list_elem_of_In).
    apply (IH n); [lia|done|lia|lia|]. by eapply unopened_child. }
  rewrite within_depth_unfold in Hw.
  unfold payload, children in *.
  destruct (items h !! l) as [[bs|bo|z|a|a|a|]|] eqn:Eit; simpl; try done.
  - unfold guard_sequence.
    destruct (arrays h !! a) as [cs|]; [|done]. simpl.
    case_decide as Hlen; [done|].
    destruct (Hrec (inl a) cs) as [HVc Hcs]; [done|done|by intros ->|].
    case_decide; [congruence|].
    rewrite (guard_each_false _ _ _ _ Hcs). simpl. by rewrite delete_insert_id.
  - unfold guard_sequence.
    destruct (arrays h !! a) as [cs|]; [|done]. simpl.
    case_decide as Hlen; [done|].
    destruct (Hrec (inl a) cs) as [HVc Hcs]; [done|done|by intros ->|].
    case_decide; [congruence|].
    rewrite (guard_each_false _ _ _ _ Hcs). simpl. by rewrite delete_insert_id.
  - destruct (maps h !! a) as [mp|]; [|done]. simpl in *.
    assert (V !! inr a = None) as HVc
      by (apply (HV l); [done | unfold payload; by rewrite Eit]).
    case_decide; [congruence|].
    destruct mp as [|e mp]; [simpl; by rewrite delete_insert_id|].
    destruct (Hrec (inr a) (flat_map (fun e => [e.1; e.2]) (e :: mp)))
      as [_ Hcs]; [done|done|done|].
    rewrite (guard_entries_false _ _ _ _ Hcs). simpl. by rewrite delete_insert_id.
Qed.

Lemma unopened_empty (h : Heap) (l : loc) : unopened h ∅ l.
Proof. intros x c _ _. apply lookup_empty. Qed.

(** With an empty open set at depth 0: an item all of whose descendants lie
    within the depth limit passes, and the open set is empty again. *)
Lemma guard_accepts (h : Heap) (l : loc) :
  within_depth h MAX_STRUCT_DEPTH l = true ->
  circularRefAndDepthDetectionInternal (MAX_STRUCT_DEPTH + 2) h l ∅ 0 = Ok (false, ∅).
Proof.
  intros Hw.
  apply (guard_within_depth _ h MAX_STRUCT_DEPTH); [done|lia|lia|apply unopened_empty].
Qed.

(** Claim C9. The open set holds only the containers on the current path: an
    item all of whose descendants lie within the depth limit, which is then
    acyclic but may well contain one container object in several places,
    passes the guard, and the open set is empty again when the guard
    returns. *)
Theorem guard_accepts_shared (h : Heap) (l : loc) :
  within_depth h MAX_STRUCT_DEPTH l = true ->
  circularRefAndDepthDetectionInternal (MAX_STRUCT_DEPTH + 2) h l ∅ 0 = Ok (false, ∅)
  /\ circularRefAndDepthDetection h l = Ok false.
Proof.
  intros Hw. pose proof (guard_accepts h l Hw) as HR.
  split; [done|]. unfold circularRefAndDepthDetection. by rewrite HR.
Qed.

(** Claim C6. In a store without dangling references, the guard answers
    [true] for every item that is among its own descendants (an Array in
    particular), and [serializeStackItem] throws the circular-reference
    error. Both calls return within the recursion budget of the model, which
    the depth limit fixes: the traversal ends. *)
Theorem cyclic_rejected (h : Heap) (l : loc) :
  closed h -> cyclic h l ->
  circularRefAndDepthDetection h l = Ok true
  /\ serializeStackItem h l =
       Throw (Error "runtime serialize: can not serialize circular reference data").
Proof.
  intros Hc Hcyc.
  assert (is_Some (items h !! l)) as Hl.
  { assert (exists c, child h l c) as (c & cs & Hcs & _).
    { unfold cyclic in Hcyc. inversion Hcyc; eauto. }
    unfold children in Hcs. by destruct (items h !! l). }
  destruct (guard_total (MAX_STRUCT_DEPTH + 2) h l ∅ 0 Hc Hl) as [[b V] HR]; [lia..|].
  assert (circularRefAndDepthDetection h l = Ok true) as Hg.
  { unfold circularRefAndDepthDetection. rewrite HR. simpl.
    destruct b; [done|]. exfalso.
    apply guard_false_within_depth in HR as [_ Hw].
    by apply (within_depth_acyclic h _ l Hw). }
  split; [done|]. unfold serializeStackItem. by rewrite Hg.
Qed.

End Guard.

(** ** Induction on trees *)

Lemma value_ind_nested (P : value -> Prop) :
  (forall b, P (VByteArray b)) ->
  (forall b, P (VBoolean b)) ->
  (forall z, P (VInteger z)) ->
  (forall arr, Forall P arr -> P (VArray arr)) ->
  (forall arr, Forall P arr -> P (VStruct arr)) ->
  (forall mp, Forall (fun kv => P kv.1 /\ P kv.2) mp -> P (VMap mp)) ->
  forall v, P v.
Proof.
  intros Hba Hbo Hin Harr Hst Hmp.
  fix IH 1. intros [b|b|z|arr|arr|mp].
  - apply Hba.
  - apply Hbo.
  - apply Hin.
  - apply Harr. induction arr as [|v arr IHarr]; constructor; [apply IH|apply IHarr].
  - apply Hst. induction arr as [|v arr IHarr]; constructor; [apply IH|apply IHarr].
  - apply Hmp. induction mp as [|[k v] mp IHmp]; constructor;
      [split; apply IH|apply IHmp].
Qed.

Section Wire.
Context `{host : Host} {laws : HostLaws host}.

(** ** The deserializer inverts the wire format *)

Lemma encode_nonempty (v : value) : 1 <= length (encode v).
Proof. destruct v; simpl; lia. Qed.

Lemma length_bigIntToBytes (z : Z) : length (bigIntToBytes z) <= 8.
Proof.
  unfold bigIntToBytes. destruct (z =? 0)%Z; [simpl; lia|].
  generalize 8 as n. intros n. revert z.
  induction n as [|n IH]; intros z; simpl; [lia|].
  destruct ((-128 <=? z)%Z && (z <? 128)%Z); simpl; [lia|].
  specialize (IH (z / 256)%Z). lia.
Qed.

Lemma read_items_encode (rec : Reader -> result (value * Reader))
    (arr : list value) (rest : Buffer) :
  Forall (fun v => forall rest', rec (encode v ++ rest') = Ok (v, rest')) arr ->
  read_items rec (length arr) (concat (map encode arr) ++ rest) = Ok (arr, rest).
Proof.
  induction 1 as [|v arr Hv _ IH]; simpl; [done|].
  rewrite <- app_assoc, Hv. simpl. rewrite IH. done.
Qed.

Lemma read_entries_encode (rec : Reader -> result (value * Reader))
    (mp : list (value * value)) (rest : Buffer) :
  Forall (fun kv => (forall rest', rec (encode kv.1 ++ rest') = Ok (kv.1, rest')) /\
                    (forall rest', rec (encode kv.2 ++ rest') = Ok (kv.2, rest'))) mp ->
  read_entries rec (length mp)
    (concat (map (fun kv => encode kv.1 ++ encode kv.2) mp) ++ rest) = Ok (mp, rest).
Proof.
  induction 1 as [|[k v] mp [Hk Hv] _ IH]; simpl in *; [done|].
  rewrite <- !app_assoc, Hk. simpl. rewrite Hv. simpl. rewrite IH. done.
Qed.

Lemma length_concat_le {A} (f : A -> Buffer) (l : list A) (x : A) :
  x ∈ l -> length (f x) <= length (concat (map f l)).
Proof.
  induction 1 as [x l|x y l _ IH]; simpl; rewrite length_app; lia.
Qed.

Lemma deserialize_encode (v : value) :
  forall (fuel : nat) (rest : Buffer),
    longs v = true -> sized v = true -> length (encode v) <= fuel ->
    deserializeStackItemInternal fuel (encode v ++ rest) = Ok (v, rest).
Proof.
  induction v as [b|b|z|arr IH|arr IH|mp IH] using value_ind_nested;
    intros fuel rest Hl Hs Hf;
    (destruct fuel as [|fuel]; [simpl in Hf; lia|]).
  - simpl in *. apply bool_decide_eq_true in Hs.
    rewrite <- app_assoc, readVarBytes_encode by done. done.
  - simpl. by destruct b.
  - simpl in *. apply bool_decide_eq_true in Hl.
    destruct (bigIntFromBytes_bigIntToBytes z Hl) as [Hz Hlen].
    unfold readInt64. rewrite <- app_assoc, readVarBytes_encode by lia. simpl.
    destruct (Nat.ltb_spec 8 (length (bigIntToBytes z))); [lia|]. by rewrite Hz.
  - simpl in *. apply andb_true_iff in Hs as [Hn%bool_decide_eq_true Hs].
    rewrite <- app_assoc, readVarUInt_encode by done. simpl.
    rewrite Nat2N.id, read_items_encode; [done|].
    rewrite length_app in Hf.
    rewrite forallb_forall in Hl, Hs. rewrite Forall_forall in IH |- *.
    intros v Hv rest'. apply IH; [done|by apply Hl, list_elem_of_In|by apply Hs, list_elem_of_In|].
    pose proof (length_concat_le encode arr v Hv). lia.
  - simpl in *. apply andb_true_iff in Hs as [Hn%bool_decide_eq_true Hs].
    rewrite <- app_assoc, readVarUInt_encode by done. simpl.
    rewrite Nat2N.id, read_items_encode; [done|].
    rewrite length_app in Hf.
    rewrite forallb_forall in Hl, Hs. rewrite Forall_forall in IH |- *.
    intros v Hv rest'. apply IH; [done|by apply Hl, list_elem_of_In|by apply Hs, list_elem_of_In|].
    pose proof (length_concat_le encode arr v Hv). lia.
  - simpl in *. apply andb_true_iff in Hs as [Hn%bool_decide_eq_true Hs].
    rewrite <- app_assoc, readVarUInt_encode by done. simpl.
    rewrite Nat2N.id, read_entries_encode; [done|].
    rewrite length_app in Hf.
    rewrite forallb_forall in Hl, Hs. rewrite Forall_forall in IH |- *.
    intros kv Hkv.
    pose proof (length_concat_le (fun kv => encode kv.1 ++ encode kv.2) mp kv Hkv) as Hlen.
    cbn beta in Hlen. rewrite length_app in Hlen.
    apply list_elem_of_In in Hkv as Hin.
    apply Hl in Hin as [? ?]%andb_true_iff. apply list_elem_of_In in Hkv as Hin.
    apply Hs in Hin as [? ?]%andb_true_iff.
    destruct (IH kv Hkv) as [IHk IHv].
    split; intros rest'; [apply IHk|apply IHv]; try done; lia.
Qed.

End Wire.

Section Serializer.
Context `{host : Host} {laws : HostLaws host}.

(** ** The serializer writes the wire format of the sorted tree *)

Lemma writeUint8_fits (b : byte) (w : Writer) :
  fits [b] w -> writeUint8 b w = Ok (append [b] w).
Proof. apply write_fits. Qed.

Lemma writeVarUint_fits (n : N) (w : Writer) :
  fits (encodeVarUint n) w -> writeVarUint n w = Ok (append (encodeVarUint n) w).
Proof. apply write_fits. Qed.

Lemma writeVarBytes_fits (bs : Buffer) (w : Writer) :
  fits (encodeVarUint (N.of_nat (length bs)) ++ bs) w ->
  writeVarBytes bs w = Ok (append (encodeVarUint (N.of_nat (length bs)) ++ bs) w).
Proof.
  intros [H1 H2]%fits_app. unfold writeVarBytes, writeVarUint.
  rewrite write_fits by done. simpl. rewrite write_fits by done.
  by rewrite append_append.
Qed.

Lemma for_of_append {A} (f : A -> Writer -> result Writer) (g : A -> Buffer)
    (l : list A) (w : Writer) :
  Forall (fun x => forall w', fits (g x) w' -> f x w' = Ok (append (g x) w')) l ->
  fits (concat (map g l)) w ->
  for_of f l w = Ok (append (concat (map g l)) w).
Proof.
  intros HF. revert w. induction HF as [|x l Hx _ IH]; intros w; simpl.
  - by rewrite append_nil.
  - intros [H1 H2]%fits_app. rewrite Hx by done. simpl.
    rewrite IH by done. by rewrite append_append.
Qed.

Lemma for_of_append2 {A B} (f : A -> Writer -> result Writer) (g : B -> Buffer)
    (l : list A) (k : list B) (w : Writer) :
  Forall2 (fun x y => forall w', fits (g y) w' -> f x w' = Ok (append (g y) w')) l k ->
  fits (concat (map g k)) w ->
  for_of f l w = Ok (append (concat (map g k)) w).
Proof.
  intros HF. revert w. induction HF as [|x y l k Hx _ IH]; intros w; simpl.
  - by rewrite append_nil.
  - intros [H1 H2]%fits_app. rewrite Hx by done. simpl.
    rewrite IH by done. by rewrite append_append.
Qed.

Lemma for_of_map {A B S} (f : B -> S -> result S) (g : A -> B) (l : list A) (s : S) :
  for_of f (map g l) s = for_of (fun x => f (g x)) l s.
Proof.
  revert s. induction l as [|x l IH]; intros s; simpl; [done|].
  destruct (f (g x) s); simpl; auto.
Qed.

(** *** Keys *)

(** A key is a scalar: it is its own sorted form, has nothing below it and is
    stored as a ByteArray or Integer item with the bytes its string comes
    from. *)
Lemma key_string_scalar (k : value) (s : jsstring) :
  key_string k = Some s ->
  canonical k = k /\ depth k = 0 /\ well_keyed k = true.
Proof. by destruct k. Qed.

Lemma read_back_key (n : nat) (h : Heap) (l : loc) (k : value) (s : jsstring) :
  read_back n h l = Some k -> key_string k = Some s ->
  exists item ba, items h !! l = Some item /\ key_bytes item = Some ba /\
                  Buffer_toString ba = s.
Proof.
  destruct n as [|n]; [done|]. simpl.
  destruct (items h !! l) as [[bs|bo|z|a|a|a|]|]; try done.
  - intros [= <-] [= <-]. eauto.
  - by intros [= <-].
  - intros [= <-] [= <-]. eauto.
  - destruct (arrays h !! a); simpl; [|done].
    destruct (mapM _ _); simpl; [|done]. by intros [= <-].
  - destruct (arrays h !! a); simpl; [|done].
    destruct (mapM _ _); simpl; [|done]. by intros [= <-].
  - destruct (maps h !! a); simpl; [|done].
    destruct (mapM _ _); simpl; [|done]. by intros [= <-].
Qed.

(** The tree an item unfolds to does not depend on how deep one looks. *)
Lemma read_back_mono (n m : nat) (h : Heap) (l : loc) (v : value) :
  read_back n h l = Some v -> n <= m -> read_back m h l = Some v.
Proof.
  revert m l v. induction n as [|n IH]; intros m l v; [done|].
  intros HR Hm. destruct m as [|m]; [lia|]. simpl in *.
  destruct (items h !! l) as [[bs|bo|z|a|a|a|]|]; try done.
  - destruct (arrays h !! a) as [elems|]; simpl in *; [|done].
    destruct (mapM (read_back n h) elems) as [vs|] eqn:E; simpl in *; [|done].
    assert (mapM (read_back m h) elems = Some vs) as ->; [|done].
    apply mapM_Some. apply mapM_Some in E.
    eapply Forall2_impl; [done|]. intros x y Hxy. apply IH; [done|lia].
  - destruct (arrays h !! a) as [elems|]; simpl in *; [|done].
    destruct (mapM (read_back n h) elems) as [vs|] eqn:E; simpl in *; [|done].
    assert (mapM (read_back m h) elems = Some vs) as ->; [|done].
    apply mapM_Some. apply mapM_Some in E.
    eapply Forall2_impl; [done|]. intros x y Hxy. apply IH; [done|lia].
  - destruct (maps h !! a) as [mp|]; simpl in *; [|done].
    destruct (mapM _ mp) as [kvs|] eqn:E; simpl in *; [|done].
    match goal with |- context [mapM ?f mp] =>
      assert (mapM f mp = Some kvs) as ->; [|done] end.
    apply mapM_Some. apply mapM_Some in E.
    eapply Forall2_impl; [done|]. intros [k v'] [k' v''] Hxy. simpl in *.
    destruct (read_back n h k) as [kk|] eqn:Ek; simpl in *; [|done].
    destruct (read_back n h v') as [vv|] eqn:Ev; simpl in *; [|done].
    rewrite (IH m k kk), (IH m v' vv); [done|done|lia|done|lia].
Qed.

Lemma represents_functional (h : Heap) (l : loc) (v1 v2 : value) :
  represents h l v1 -> represents h l v2 -> v1 = v2.
Proof.
  intros [n1 H1] [n2 H2].
  apply (read_back_mono _ (n1 `max` n2)) in H1; [|lia].
  apply (read_back_mono _ (n1 `max` n2)) in H2; [|lia]. congruence.
Qed.

Lemma distinct_NoDup (l : list jsstring) : distinct l = true <-> NoDup l.
Proof.
  induction l as [|s l IH]; simpl.
  - split; [constructor|done].
  - rewrite andb_true_iff, bool_decide_eq_true, NoDup_cons, IH. done.
Qed.

#[global] Instance entry_le_total : Total entry_le.
Proof. intros a b. apply jsstring_le_total. Qed.
#[global] Instance entry_le_trans : Transitive entry_le.
Proof. intros a b c. apply jsstring_le_trans. Qed.

(** The strings of the sorted entries are the sorted strings. *)
Lemma sort_entries_strings (mp : list (value * value)) :
  map entry_string (sort_entries mp) = sort (map entry_string mp).
Proof.
  apply (Sorted_unique jsstring_le).
  - change (map entry_string (sort_entries mp)) with (entry_string <$> sort_entries mp).
    apply Sorted_fmap with (R1 := entry_le); [done|]. apply Sorted_merge_sort. apply _.
  - apply Sorted_merge_sort. apply _.
  - unfold sort, sort_entries. transitivity (map entry_string mp).
    + apply Permutation_map, merge_sort_Permutation.
    + symmetry. apply merge_sort_Permutation.
Qed.

Lemma collect_keys_spec (h : Heap) (mp : list (loc * loc)) (kvs : list (value * value))
    (unsortKey : list jsstring) (keyMap : gmap jsstring loc) :
  Forall2 (fun e kv => exists item ba,
             items h !! e.1 = Some item /\ key_bytes item = Some ba /\
             Buffer_toString ba = entry_string kv /\ entry_string kv <> []) mp kvs ->
  NoDup (map entry_string kvs) ->
  exists keyMap',
    collect_keys h mp unsortKey keyMap = Ok (unsortKey ++ map entry_string kvs, keyMap') /\
    Forall2 (fun e kv => keyMap' !! entry_string kv = Some e.1) mp kvs /\
    (forall s, s ∉ map entry_string kvs -> keyMap' !! s = keyMap !! s).
Proof.
  intros HF. revert unsortKey keyMap.
  induction HF as [|[k v] kv mp kvs (item & ba & Hit & Hkb & Hstr & Hne) _ IH];
    intros unsortKey keyMap Hnd.
  - exists keyMap. simpl. rewrite app_nil_r. split; [done|]. split; [constructor|done].
  - simpl in Hnd. apply NoDup_cons in Hnd as [Hfresh Hnd].
    destruct (IH (unsortKey ++ [entry_string kv]) (<[entry_string kv := k]> keyMap) Hnd)
      as (keyMap' & Hck & Hall & Hother).
    exists keyMap'. simpl in *. rewrite Hit. simpl. rewrite Hkb, Hstr.
    rewrite decide_False by done. rewrite Hck, <- app_assoc. simpl.
    split; [done|]. split.
    + constructor; [|done]. simpl. rewrite Hother by done. apply lookup_insert_eq.
    + intros s [Hs1 Hs2]%not_elem_of_cons. rewrite Hother by done.
      by rewrite lookup_insert_ne.
Qed.

Lemma Map_get_entry (h : Heap) (mp : list (loc * loc)) (kvs : list (value * value))
    (i : nat) (e : loc * loc) :
  Forall2 (fun e kv => represents h e.1 kv.1) mp kvs ->
  NoDup (map entry_string kvs) ->
  mp !! i = Some e -> Map_get mp e.1 = Some e.2.
Proof.
  intros HF. revert i. induction HF as [|[k v] kv mp kvs Hk HF IH]; intros i Hnd Hi; [done|].
  simpl in Hnd. apply NoDup_cons in Hnd as [Hfresh Hnd].
  destruct i as [|i]; simpl in *.
  - injection Hi as <-. simpl. by rewrite decide_True.
  - destruct (decide (k = e.1)) as [->|Hne]; [|by apply (IH i)].
    exfalso. apply Hfresh.
    destruct (Forall2_lookup_l _ _ _ _ _ HF Hi) as (kv' & Hkv' & He).
    assert (kv.1 = kv'.1) as Heq by (by eapply represents_functional).
    assert (entry_string kv = entry_string kv') as ->
      by (unfold entry_string; by rewrite Heq).
    apply list_elem_of_In, in_map, list_elem_of_In.
    by eapply list_elem_of_lookup_2.
Qed.

Lemma Forall2_with_r {A B} (P : A -> B -> Prop) (Q : B -> Prop) (l : list A) (k : list B) :
  Forall2 P l k -> Forall Q k -> Forall2 (fun x y => P x y /\ Q y) l k.
Proof.
  induction 1 as [|x y l k ? ? IH]; intros HQ; [constructor|].
  apply Forall_cons in HQ as [? ?]. constructor; auto.
Qed.

Lemma depth_array_elem (arr : list value) (v : value) (fuel : nat) :
  v ∈ arr -> S (max_list (map depth arr)) <= fuel -> depth v < fuel.
Proof.
  intros Hv Hd.
  assert (depth v <= max_list (map depth arr)); [|lia].
  apply max_list_elem_of_le. apply list_elem_of_In, in_map, list_elem_of_In, Hv.
Qed.

Lemma depth_map_entry (mp : list (value * value)) (kv : value * value) (fuel : nat) :
  kv ∈ mp ->
  S (max_list (map (fun kv => depth kv.1 `max` depth kv.2) mp)) <= fuel ->
  depth kv.1 < fuel /\ depth kv.2 < fuel.
Proof.
  intros Hv Hd.
  assert (depth kv.1 `max` depth kv.2
          <= max_list (map (fun kv => depth kv.1 `max` depth kv.2) mp)); [|lia].
  apply max_list_elem_of_le.
  apply list_elem_of_In. apply (in_map (fun kv => depth kv.1 `max` depth kv.2)).
  by apply list_elem_of_In.
Qed.

Lemma read_back_entries (n : nat) (h : Heap) (mp : list (loc * loc))
    (kvs : list (value * value)) :
  mapM (fun e => k ← read_back n h e.1; v ← read_back n h e.2; Some (k, v)) mp = Some kvs ->
  Forall2 (fun e kv => read_back n h e.1 = Some kv.1 /\ read_back n h e.2 = Some kv.2) mp kvs.
Proof.
  intros E%mapM_Some. eapply Forall2_impl; [done|].
  intros [k v] [k' v'] Hxy. simpl in *.
  destruct (read_back n h k); simpl in *; [|done].
  destruct (read_back n h v); simpl in *; [|done]. by injection Hxy as -> ->.
Qed.

Lemma well_keyed_entries (mp : list (value * value)) :
  well_keyed (VMap mp) = true ->
  Forall (fun kv => (exists s, key_string kv.1 = Some s /\ s <> []) /\
                    well_keyed kv.2 = true) mp
  /\ NoDup (map entry_string mp).
Proof.
  simpl. intros [Hall Hd]%andb_true_iff. split; [|by apply distinct_NoDup].
  apply Forall_forall. intros kv Hkv.
  rewrite forallb_forall in Hall. apply list_elem_of_In, Hall in Hkv.
  apply andb_true_iff in Hkv as [Hk Hv]. split; [|done].
  destruct (key_string kv.1) as [s|]; [|done].
  apply bool_decide_eq_true in Hk. eauto.
Qed.

(** The serializer, given enough recursion budget for the depth of the item
    and room in the writer, appends the wire format of the sorted tree. *)
Lemma serialize_read_back (n : nat) (h : Heap) :
  forall (l : loc) (v : value) (fuel : nat) (w : Writer),
    read_back n h l = Some v -> well_keyed v = true -> depth v < fuel ->
    fits (encode (canonical v)) w ->
    serializeStackItemInternal fuel h l w = Ok (append (encode (canonical v)) w).
Proof.
  induction n as [|n IH]; intros l v fuel w HR Hwk Hd Hfit; [done|].
  destruct fuel as [|fuel]; [lia|].
  assert (forall elems vs,
            Forall2 (fun x y => read_back n h x = Some y) elems vs ->
            forallb well_keyed vs = true ->
            match vs with [] => 0 | _ => S (max_list (map depth vs)) end < S fuel ->
            Forall2 (fun x y => forall w', fits (encode (canonical y)) w' ->
              serializeStackItemInternal fuel h x w' = Ok (append (encode (canonical y)) w'))
              elems vs) as Hseq.
  { intros elems vs HF Hk Hdv.
    assert (Forall (fun y => well_keyed y = true /\ depth y < fuel) vs) as HQ.
    { apply Forall_forall. intros y Hy. split.
      - rewrite forallb_forall in Hk. by apply Hk, list_elem_of_In.
      - destruct vs as [|v0 vs]; [by apply elem_of_nil in Hy|].
        eapply depth_array_elem; [done|lia]. }
    eapply Forall2_impl; [by apply Forall2_with_r|].
    intros x y [Hxy [? ?]] w' Hw'. by apply IH. }
  simpl in HR. simpl.
  destruct (items h !! l) as [[b|b|z|a|a|m|]|] eqn:Eit; try done; simpl in *.
  - injection HR as <-. simpl in *.
    apply fits_cons in Hfit as [H1 H2].
    rewrite writeUint8_fits by done. simpl.
    rewrite writeVarBytes_fits by done. simpl. by rewrite append_append.
  - injection HR as <-. simpl in *.
    apply (fits_app [BooleanType_id]) in Hfit as [H1 H2].
    rewrite writeUint8_fits by done. simpl.
    rewrite writeUint8_fits by done. simpl. by rewrite append_append.
  - injection HR as <-. simpl in *.
    apply fits_cons in Hfit as [H1 H2].
    rewrite writeUint8_fits by done. simpl.
    rewrite writeVarBytes_fits by done. simpl. by rewrite append_append.
  - destruct (arrays h !! a) as [elems|] eqn:Earr; simpl in *; [|done].
    destruct (mapM (read_back n h) elems) as [vs|] eqn:E; simpl in *; [|done].
    injection HR as <-. apply mapM_Some in E. simpl in *.
    rewrite length_map, map_map in Hfit.
    apply fits_cons in Hfit as [H1 [H2 H3]%fits_app].
    unfold serialize_sequence.
    rewrite writeUint8_fits by done. simpl. rewrite Earr. simpl.
    rewrite (Forall2_length _ _ _ E), writeVarUint_fits by done. simpl.
    rewrite (for_of_append2 _ (fun y => encode (canonical y)) elems vs); [|by apply Hseq|done].
    simpl. rewrite map_map, length_map, !append_append. done.
  - destruct (arrays h !! a) as [elems|] eqn:Earr; simpl in *; [|done].
    destruct (mapM (read_back n h) elems) as [vs|] eqn:E; simpl in *; [|done].
    injection HR as <-. apply mapM_Some in E. simpl in *.
    rewrite length_map, map_map in Hfit.
    apply fits_cons in Hfit as [H1 [H2 H3]%fits_app].
    unfold serialize_sequence.
    rewrite writeUint8_fits by done. simpl. rewrite Earr. simpl.
    rewrite (Forall2_length _ _ _ E), writeVarUint_fits by done. simpl.
    rewrite (for_of_append2 _ (fun y => encode (canonical y)) elems vs); [|by apply Hseq|done].
    simpl. rewrite map_map, length_map, !append_append. done.
  - destruct (maps h !! m) as [mp|] eqn:Emp; simpl in *; [|done].
    destruct (mapM _ mp) as [kvs|] eqn:E; simpl in *; [|done].
    injection HR as <-. apply read_back_entries in E.
    destruct (well_keyed_entries kvs Hwk) as [Hkeys Hnd].
    set (kvs' := map (fun kv => (kv.1, canonical kv.2)) kvs) in *.
    assert (map entry_string kvs' = map entry_string kvs) as Hstr
      by (unfold kvs'; by rewrite map_map).
    assert (length (sort_entries kvs') = length mp) as Hlen.
    { unfold sort_entries. rewrite merge_sort_Permutation. unfold kvs'.
      rewrite length_map. symmetry. by eapply Forall2_length. }
    cbn [canonical encode] in Hfit. fold kvs' in Hfit.
    apply fits_cons in Hfit as [H1 [H2 H3]%fits_app].
    unfold serialize_map. rewrite Emp. simpl. rewrite writeUint8_fits by done. simpl.
    rewrite <- Hlen, writeVarUint_fits by done. simpl.
    destruct (collect_keys_spec h mp kvs [] ∅) as (keyMap & Hck & Hkm & _); [|done|].
    { eapply Forall2_impl; [by apply Forall2_with_r|].
      intros e kv [[Hk _] [(s & Hs & Hne) _]].
      destruct (read_back_key n h e.1 kv.1 s Hk Hs) as (item & ba & ? & ? & ?).
      exists item, ba. unfold entry_string. rewrite Hs. simpl. by subst. }
    rewrite Hck. simpl. rewrite <- Hstr, <- sort_entries_strings, for_of_map.
    rewrite (for_of_append _ (fun kv => encode kv.1 ++ encode kv.2)); [|..|done].
    { simpl. by rewrite !append_append. }
    apply Forall_forall. intros kv' Hkv' w' Hw'.
    assert (kv' ∈ kvs') as Hin.
    { unfold sort_entries in Hkv'. by rewrite merge_sort_Permutation in Hkv'. }
    apply list_elem_of_In, in_map_iff in Hin as (kv & <- & Hkv%list_elem_of_In).
    apply list_elem_of_lookup_1 in Hkv as [i Hi].
    destruct (Forall2_lookup_r _ _ _ _ _ E Hi) as (e & He & Hk & Hv).
    pose proof (Forall2_lookup_lr _ _ _ _ _ _ Hkm He Hi) as Hlook.
    rewrite Forall_forall in Hkeys.
    destruct (Hkeys kv) as [(s & Hs & Hne) Hwv]; [by eapply list_elem_of_lookup_2|].
    destruct (key_string_scalar _ _ Hs) as (Hcan & Hdk & Hwkk).
    destruct (depth_map_entry kvs kv fuel) as [Hd1 Hd2];
      [by eapply list_elem_of_lookup_2|destruct kvs; [done|simpl in *; lia]|].
    apply fits_app in Hw' as [Hw1 Hw2]. simpl in Hw1, Hw2.
    unfold emit_entry. unfold entry_string at 1. simpl. fold (entry_string kv).
    rewrite Hlook.
    rewrite (IH e.1 kv.1); [|done|done|lia|by rewrite Hcan]. simpl. rewrite Hcan.
    rewrite (Map_get_entry h mp kvs i e); [|..|done|done].
    { simpl. rewrite (IH e.2 kv.2); [|done|done|lia|done].
      by rewrite append_append. }
    eapply Forall2_impl; [exact E|]. intros x y [Hx _]. by exists n.
Qed.

End Serializer.

Section Roundtrip.
Context `{host : Host} {laws : HostLaws host}.

(** ** Items that unfold to a tree *)

Lemma max_list_le (l : list nat) (k : nat) :
  Forall (fun x => x <= k) l -> max_list l <= k.
Proof. induction 1; simpl; lia. Qed.

Lemma max_list_pairs (mp : list (value * value)) :
  max_list (map depth (flat_map (fun kv => [kv.1; kv.2]) mp)) =
  max_list (map (fun kv => depth kv.1 `max` depth kv.2) mp).
Proof.
  induction mp as [|kv mp IH]; [done|].
  change (max_list (map depth (flat_map (fun kv => [kv.1; kv.2]) (kv :: mp))))
    with (depth kv.1 `max` (depth kv.2 `max`
            max_list (map depth (flat_map (fun kv => [kv.1; kv.2]) mp)))).
  change (max_list (map (fun kv => depth kv.1 `max` depth kv.2) (kv :: mp)))
    with ((depth kv.1 `max` depth kv.2) `max`
            max_list (map (fun kv => depth kv.1 `max` depth kv.2) mp)).
  rewrite IH. lia.
Qed.

Lemma read_back_children (n : nat) (h : Heap) (l : loc) (v : value) :
  read_back n h l = Some v ->
  exists cs, children h l = Some cs /\
    Forall (fun c => exists n' v', read_back n' h c = Some v') cs.
Proof.
  destruct n as [|n]; [done|]. simpl. unfold children.
  destruct (items h !! l) as [[b|b|z|a|a|m|]|]; try done; eauto.
  - destruct (arrays h !! a) as [elems|]; simpl; [|done].
    destruct (mapM _ elems) as [vs|] eqn:E; simpl; [|done]. intros _.
    exists elems. split; [done|]. apply mapM_Some in E.
    eapply Forall2_Forall_l; [done|]. apply Forall_true. eauto.
  - destruct (arrays h !! a) as [elems|]; simpl; [|done].
    destruct (mapM _ elems) as [vs|] eqn:E; simpl; [|done]. intros _.
    exists elems. split; [done|]. apply mapM_Some in E.
    eapply Forall2_Forall_l; [done|]. apply Forall_true. eauto.
  - destruct (maps h !! m) as [mp|]; simpl; [|done].
    destruct (mapM _ mp) as [kvs|] eqn:E; simpl; [|done]. intros _.
    eexists. split; [done|]. apply read_back_entries in E.
    induction E as [|e kv mp kvs [Hk Hv] _ IH]; simpl; [constructor|].
    repeat constructor; eauto.
Qed.

(** The depth of the tree is the depth the guard measures in the store. *)
Lemma read_back_within_depth (n : nat) (h : Heap) :
  forall (l : loc) (v : value) (m : nat),
    read_back n h l = Some v ->
    within_depth h m l = true <-> depth v <= m.
Proof.
  induction n as [|n IH]; intros l v m HR; [done|].
  rewrite within_depth_unfold. simpl in HR. unfold children.
  assert (forall elems vs,
            Forall2 (fun x y => read_back n h x = Some y) elems vs ->
            match elems with
            | [] => true
            | _ => match m with O => false | S m' => forallb (within_depth h m') elems end
            end = true <->
            match vs with [] => 0 | _ => S (max_list (map depth vs)) end <= m) as Hseq.
  { intros elems vs HF. pose proof HF as HF0.
    destruct HF as [|x y elems vs Hxy HF]; [split; [lia|done]|].
    destruct m as [|m]; [split; [done|lia]|].
    rewrite forallb_forall, <- Nat.succ_le_mono. split.
    - intros Hall. apply max_list_le. change (map depth (y :: vs)) with (depth <$> y :: vs).
      apply Forall_fmap, Forall_forall. intros y' Hy'. simpl.
      apply list_elem_of_lookup_1 in Hy' as [i Hi].
      destruct (Forall2_lookup_r _ _ _ _ _ HF0 Hi)
        as (x' & Hx' & Hxy').
      apply (IH x'); [done|]. apply Hall, list_elem_of_In. by eapply list_elem_of_lookup_2.
    - intros Hmax x' Hx'%list_elem_of_In.
      apply list_elem_of_lookup_1 in Hx' as [i Hi].
      destruct (Forall2_lookup_l _ _ _ _ _ HF0 Hi)
        as (y' & Hy' & Hxy').
      apply (IH x' y'); [done|].
      assert (depth y' <= max_list (map depth (y :: vs))); [|lia].
      apply max_list_elem_of_le, list_elem_of_In, in_map, list_elem_of_In.
      by eapply list_elem_of_lookup_2. }
  destruct (items h !! l) as [[b|b|z|a|a|mm|]|]; try done.
  - injection HR as <-. simpl. split; [lia|done].
  - injection HR as <-. simpl. split; [lia|done].
  - injection HR as <-. simpl. split; [lia|done].
  - destruct (arrays h !! a) as [elems|]; simpl in *; [|done].
    destruct (mapM _ elems) as [vs|] eqn:E; simpl in *; [|done].
    injection HR as <-. apply mapM_Some in E. simpl. by apply Hseq.
  - destruct (arrays h !! a) as [elems|]; simpl in *; [|done].
    destruct (mapM _ elems) as [vs|] eqn:E; simpl in *; [|done].
    injection HR as <-. apply mapM_Some in E. simpl. by apply Hseq.
  - destruct (maps h !! mm) as [mp|]; simpl in *; [|done].
    destruct (mapM _ mp) as [kvs|] eqn:E; simpl in *; [|done].
    injection HR as <-. apply read_back_entries in E. simpl.
    assert (Forall2 (fun x y => read_back n h x = Some y)
              (flat_map (fun e => [e.1; e.2]) mp)
              (flat_map (fun kv => [kv.1; kv.2]) kvs)) as HF.
    { induction E as [|e kv mp kvs [Hk Hv] _ IHE]; simpl; repeat constructor; done. }
    apply Hseq in HF.
    destruct E as [|e kv mp kvs [Hk Hv] E]; [done|].
    etransitivity; [exact HF|].
    rewrite (max_list_pairs (kv :: kvs)). done.
Qed.

Lemma represents_closed (h : Heap) (l : loc) :
  (exists n v, read_back n h l = Some v) ->
  exists cs, children h l = Some cs /\
    Forall (fun c => exists n v, read_back n h c = Some v) cs.
Proof. intros (n & v & HR). by eapply read_back_children. Qed.

(** On an item that unfolds to a tree the guard answers, and what it answers
    is whether the tree is deeper than the limit. *)
Lemma guard_represents (h : Heap) (l : loc) (v : value) :
  represents h l v ->
  circularRefAndDepthDetection h l = Ok (bool_decide (MAX_STRUCT_DEPTH < depth v)).
Proof.
  intros [n HR]. case_bool_decide as Hd.
  - destruct (guard_total_on _ h (represents_closed h) (MAX_STRUCT_DEPTH + 2) l ∅ 0)
      as [[b V] HG]; [eauto|lia|lia|].
    unfold circularRefAndDepthDetection. rewrite HG. simpl.
    destruct b; [done|]. exfalso.
    apply guard_false_within_depth in HG as [_ Hw].
    apply (read_back_within_depth n h l v) in Hw; [lia|done].
  - unfold circularRefAndDepthDetection. rewrite guard_accepts; [done|].
    apply (read_back_within_depth n h l v); [done|lia].
Qed.

Lemma serializeStackItem_represents (h : Heap) (l : loc) (v : value) :
  represents h l v -> well_keyed v = true -> depth v <= MAX_STRUCT_DEPTH ->
  (N.of_nat (length (encode (canonical v))) <= MAX_BYTEARRAY_SIZE)%N ->
  serializeStackItem h l = Ok (encode (canonical v)).
Proof.
  intros HR Hwk Hd Hsize. unfold serializeStackItem.
  rewrite (guard_represents h l v HR), bool_decide_eq_false_2 by lia. simpl.
  destruct HR as [n HR].
  rewrite (serialize_read_back n h l v); [done|done|done|lia|done].
Qed.

Lemma serializeStackItem_too_deep (h : Heap) (l : loc) (v : value) :
  represents h l v -> MAX_STRUCT_DEPTH < depth v ->
  serializeStackItem h l =
    Throw (Error "runtime serialize: can not serialize circular reference data").
Proof.
  intros HR Hd. unfold serializeStackItem.
  by rewrite (guard_represents h l v HR), bool_decide_eq_true_2.
Qed.

Lemma deserializeStackItem_encode (v : value) :
  longs v = true -> sized v = true -> deserializeStackItem (encode v) = Ok v.
Proof.
  intros Hl Hs. unfold deserializeStackItem.
  rewrite <- (app_nil_r (encode v)) at 2.
  rewrite deserialize_encode; [done|done|done|lia].
Qed.

(** *** The sorted tree *)

Lemma same_structure_refl (v : value) : same_structure v v.
Proof.
  induction v as [b|b|z|arr IH|arr IH|mp IH] using value_ind_nested;
    try by constructor.
  - constructor. induction IH; constructor; auto.
  - constructor. induction IH; constructor; auto.
  - apply same_Map with (m1' := mp); [done|].
    induction IH as [|kv mp [? ?] _ IH']; constructor; auto.
Qed.

(** Sorting the entries of the Maps of a tree changes nothing but their
    order. *)
Lemma same_structure_canonical (v : value) : same_structure v (canonical v).
Proof.
  induction v as [b|b|z|arr IH|arr IH|mp IH] using value_ind_nested;
    try by constructor.
  - simpl. constructor. induction IH; constructor; auto.
  - simpl. constructor. induction IH; constructor; auto.
  - simpl.
    destruct (Permutation_map_inv _ _
                (merge_sort_Permutation entry_le
                   (map (fun kv : value * value => (kv.1, canonical kv.2)) mp)))
      as (mp' & Heq & Hperm).
    fold (sort_entries (map (fun kv : value * value => (kv.1, canonical kv.2)) mp)) in Heq.
    rewrite Heq. apply same_Map with (m1' := mp'); [done|].
    rewrite Hperm in IH. clear Heq Hperm.
    induction IH as [|kv mp' [_ ?] _ IH']; constructor; auto.
    split; [apply same_structure_refl|done].
Qed.

Lemma forallb_Permutation {A} (f : A -> bool) (l1 l2 : list A) :
  l1 ≡ₚ l2 -> forallb f l1 = forallb f l2.
Proof.
  induction 1 as [|x l1 l2 _ IH|x y l|l1 l2 l3 _ IH1 _ IH2]; simpl;
    [done|by rewrite IH|by destruct (f x), (f y)|congruence].
Qed.

Lemma longs_canonical (v : value) : longs v = true -> longs (canonical v) = true.
Proof.
  induction v as [b|b|z|arr IH|arr IH|mp IH] using value_ind_nested; try done.
  - simpl. rewrite !forallb_forall. intros Hl y (x & <- & Hx)%in_map_iff.
    rewrite Forall_forall in IH. apply IH; [by apply list_elem_of_In|by apply Hl].
  - simpl. rewrite !forallb_forall. intros Hl y (x & <- & Hx)%in_map_iff.
    rewrite Forall_forall in IH. apply IH; [by apply list_elem_of_In|by apply Hl].
  - simpl. unfold sort_entries.
    rewrite (forallb_Permutation _ _ _ (merge_sort_Permutation _ _)).
    rewrite !forallb_forall. intros Hl y (x & <- & Hx)%in_map_iff. simpl.
    rewrite Forall_forall in IH. destruct (IH x) as [_ IHv]; [by apply list_elem_of_In|].
    apply Hl in Hx as [Hk Hv]%andb_true_iff. by rewrite Hk, IHv.
Qed.

Lemma sized_of_length (v : value) :
  (N.of_nat (length (encode v)) < 2 ^ 64)%N -> sized v = true.
Proof.
  induction v as [b|b|z|arr IH|arr IH|mp IH] using value_ind_nested; try done.
  - simpl. rewrite length_app. intros Hlen. apply bool_decide_eq_true. lia.
  - simpl. rewrite length_app. intros Hlen. apply andb_true_iff. split.
    + apply bool_decide_eq_true.
      assert (length arr <= length (concat (map encode arr))); [|lia].
      clear. induction arr as [|v arr IH']; simpl; [lia|].
      rewrite length_app. pose proof (encode_nonempty v). lia.
    + apply forallb_forall. intros v Hv%list_elem_of_In.
      rewrite Forall_forall in IH. apply IH; [done|].
      pose proof (length_concat_le encode arr v Hv). lia.
  - simpl. rewrite length_app. intros Hlen. apply andb_true_iff. split.
    + apply bool_decide_eq_true.
      assert (length arr <= length (concat (map encode arr))); [|lia].
      clear. induction arr as [|v arr IH']; simpl; [lia|].
      rewrite length_app. pose proof (encode_nonempty v). lia.
    + apply forallb_forall. intros v Hv%list_elem_of_In.
      rewrite Forall_forall in IH. apply IH; [done|].
      pose proof (length_concat_le encode arr v Hv). lia.
  - simpl. rewrite length_app. intros Hlen. apply andb_true_iff. split.
    + apply bool_decide_eq_true.
      assert (length mp <= length (concat (map (fun kv => encode kv.1 ++ encode kv.2) mp)));
        [|lia].
      clear. induction mp as [|kv mp IH']; simpl; [lia|].
      rewrite !length_app. pose proof (encode_nonempty kv.1). lia.
    + apply forallb_forall. intros kv Hkv%list_elem_of_In.
      rewrite Forall_forall in IH. destruct (IH kv Hkv) as [IHk IHv].
      pose proof (length_concat_le (fun kv => encode kv.1 ++ encode kv.2) mp kv Hkv) as Hle.
      cbn beta in Hle. rewrite length_app in Hle.
      rewrite IHk, IHv; [done|lia..].
Qed.

End Roundtrip.

Section Claims.
Context `{host : Host} {laws : HostLaws host}.

(** ** Round trip *)

(** Claim C1, as the code has it. Take a tree of ByteArray, Boolean,
    Integer, Array, Struct and Map items whose Integers are 64-bit, whose
    depth is at most [MAX_STRUCT_DEPTH] and whose encoding has at most
    [MAX_BYTEARRAY_SIZE] bytes, and in which every key of a Map is a
    ByteArray or Integer with a non-empty string, no two keys of one Map
    having the same string. However the tree is laid out in the store,
    serializing and then deserializing it succeeds and gives the tree with
    the entries of each Map sorted by the strings of their keys: the same
    variants, the elements of every Array and Struct in order, the same
    entries in every Map. *)
Theorem serialize_deserialize_roundtrip (h : Heap) (l : loc) (v : value) :
  represents h l v ->
  well_keyed v = true -> longs v = true ->
  depth v <= MAX_STRUCT_DEPTH ->
  (N.of_nat (length (encode (canonical v))) <= MAX_BYTEARRAY_SIZE)%N ->
  exists data v',
    serializeStackItem h l = Ok data /\
    deserializeStackItem data = Ok v' /\
    v' = canonical v /\
    same_structure v v'.
Proof.
  intros HR Hwk Hl Hd Hsize.
  exists (encode (canonical v)), (canonical v).
  split; [by apply serializeStackItem_represents|].
  split; [|split; [done|apply same_structure_canonical]].
  apply deserializeStackItem_encode; [by apply longs_canonical|].
  apply sized_of_length. pose proof MAX_BYTEARRAY_SIZE_lt. lia.
Qed.

(** ** Integers *)

(** Claim C2. After the tag 0x02 the deserializer reads a length-prefixed
    payload and takes it as a little-endian two's complement number, which
    lies in the signed 64-bit range; a payload of more than eight bytes is an
    error. What the serializer writes for an Integer, the tag and the
    length-prefixed bytes of [bigIntToBytes], is read back as that
    Integer. *)
Theorem integer_tag_roundtrip (h : Heap) (l : loc) (z : Z) (payload rest : Buffer) :
  items h !! l = Some (IntegerType z) ->
  (- 2 ^ 63 <= z < 2 ^ 63)%Z ->
  (N.of_nat (length (IntegerType_id ::
     encodeVarUint (N.of_nat (length (bigIntToBytes z))) ++ bigIntToBytes z))
   <= MAX_BYTEARRAY_SIZE)%N ->
  (N.of_nat (length payload) < 2 ^ 64)%N ->
  deserializeStackItem
    (IntegerType_id :: encodeVarUint (N.of_nat (length payload)) ++ payload ++ rest) =
    (if 8 <? length payload
     then Throw (Rethrown "Deserialize error: "
                   (Rethrown "Deserialize stackItems Integer error: " ReaderError))
     else Ok (VInteger (bigIntFromBytes payload)))
  /\ (length payload <= 8 -> (- 2 ^ 63 <= bigIntFromBytes payload < 2 ^ 63)%Z)
  /\ serializeStackItem h l =
       Ok (IntegerType_id ::
             encodeVarUint (N.of_nat (length (bigIntToBytes z))) ++ bigIntToBytes z)
  /\ deserializeStackItem
       (IntegerType_id ::
          encodeVarUint (N.of_nat (length (bigIntToBytes z))) ++ bigIntToBytes z) =
     Ok (VInteger z).
Proof.
  intros Hit Hz Hsize Hp. split; [|split; [|split]].
  - unfold deserializeStackItem. simpl. unfold readInt64.
    rewrite readVarBytes_encode by done. simpl.
    by destruct (8 <? length payload).
  - apply bigIntFromBytes_int64.
  - apply (serializeStackItem_represents h l (VInteger z)); [|done|simpl; lia|done].
    exists 1. simpl. by rewrite Hit.
  - apply (deserializeStackItem_encode (VInteger z)); [|done].
    simpl. by apply bool_decide_eq_true.
Qed.

(** ** Depth *)

Lemma depth_nest (n : nat) (v : value) : depth (nest n v) = n + depth v.
Proof.
  induction n as [|n IH]; [done|].
  change (depth (nest (S n) v)) with (S (max_list [depth (nest n v)])).
  rewrite IH. simpl. lia.
Qed.

Lemma childless_spec (v : value) :
  childless v = true -> depth v = 0 /\ canonical v = v /\ well_keyed v = true.
Proof. by destruct v as [| | |[|]|[|]|[|]]. Qed.

Lemma nest_childless (n : nat) (v : value) :
  childless v = true ->
  canonical (nest n v) = nest n v /\ well_keyed (nest n v) = true.
Proof.
  intros (_ & Hc & Hw)%childless_spec. induction n as [|n [IH1 IH2]]; [done|].
  simpl. by rewrite IH1, IH2.
Qed.

(** Claim C5, as the code has it. The deserializer takes no depth argument
    and never compares its nesting with [MAX_STRUCT_DEPTH]: nesting is
    limited by the length of the input alone. For every [n] the encoding of
    [n] Arrays of one element around an empty Array is decoded, and the
    result has depth [n]. *)
Theorem deserialize_depth_unbounded (n : nat) :
  deserializeStackItem (encode (nest n (VArray []))) = Ok (nest n (VArray []))
  /\ depth (nest n (VArray [])) = n.
Proof.
  split; [|rewrite depth_nest; simpl; lia].
  apply deserializeStackItem_encode.
  - induction n as [|n IH]; [done|]. simpl. by rewrite IH.
  - induction n as [|n IH]; [done|]. simpl. by rewrite IH.
Qed.

(** Claim C7, as the code has it. The guard counts how far an item lies
    below the root, and an empty container is an item like a scalar: it has
    nothing below it. [MAX_STRUCT_DEPTH + 1] one-element Arrays around a
    scalar or an empty container are rejected with the circular-reference
    error, and [MAX_STRUCT_DEPTH] one-element Arrays around it are
    serialized, provided the encoding fits the size cap. *)
Theorem nested_array_depth_limit (h h' : Heap) (l l' : loc) (leaf : value) :
  childless leaf = true ->
  represents h l (nest (MAX_STRUCT_DEPTH + 1) leaf) ->
  represents h' l' (nest MAX_STRUCT_DEPTH leaf) ->
  (N.of_nat (length (encode (nest MAX_STRUCT_DEPTH leaf))) <= MAX_BYTEARRAY_SIZE)%N ->
  serializeStackItem h l =
    Throw (Error "runtime serialize: can not serialize circular reference data")
  /\ serializeStackItem h' l' = Ok (encode (nest MAX_STRUCT_DEPTH leaf)).
Proof.
  intros Hs HR HR' Hsize.
  destruct (childless_spec leaf Hs) as (Hleaf & _ & _).
  split.
  - apply (serializeStackItem_too_deep h l _ HR). rewrite depth_nest. lia.
  - destruct (nest_childless MAX_STRUCT_DEPTH leaf Hs) as [Hcan Hwk].
    rewrite <- Hcan.
    apply serializeStackItem_represents; [done|done|rewrite depth_nest; lia|by rewrite Hcan].
Qed.

(** ** Maps *)

Lemma NoDup_map_inj {A B} (f : A -> B) (l : list A) (x y : A) :
  NoDup (map f l) -> x ∈ l -> y ∈ l -> f x = f y -> x = y.
Proof.
  induction l as [|a l IH]; simpl; [by intros _ ?%elem_of_nil|].
  intros [Hfresh Hnd]%NoDup_cons [->|Hx]%elem_of_cons [->|Hy]%elem_of_cons Heq; auto.
  - exfalso. apply Hfresh. rewrite Heq. by apply list_elem_of_In, in_map, list_elem_of_In.
  - exfalso. apply Hfresh. rewrite <- Heq. by apply list_elem_of_In, in_map, list_elem_of_In.
Qed.

(** Entries with pairwise distinct key strings have one sorted order. *)
Lemma sort_entries_Permutation (mp1 mp2 : list (value * value)) :
  mp1 ≡ₚ mp2 -> NoDup (map entry_string mp1) -> sort_entries mp1 = sort_entries mp2.
Proof.
  intros HP Hnd. unfold sort_entries.
  apply (StronglySorted_unique_strong entry_le).
  - intros x1 x2 Hx1 Hx2 H12 H21.
    rewrite merge_sort_Permutation in Hx1. rewrite merge_sort_Permutation, <- HP in Hx2.
    apply (NoDup_map_inj entry_string mp1); [done..|].
    by apply (anti_symm jsstring_le).
  - apply StronglySorted_merge_sort; apply _.
  - apply StronglySorted_merge_sort; apply _.
  - by rewrite !merge_sort_Permutation.
Qed.

Lemma well_keyed_Permutation (mp1 mp2 : list (value * value)) :
  mp1 ≡ₚ mp2 -> well_keyed (VMap mp1) = true -> well_keyed (VMap mp2) = true.
Proof.
  intros HP. simpl. rewrite !andb_true_iff, !distinct_NoDup.
  rewrite (forallb_Permutation _ _ _ HP). intros [? Hnd]. split; [done|].
  assert (map entry_string mp1 ≡ₚ map entry_string mp2) as HP'
    by (by apply Permutation_map).
  by rewrite <- HP'.
Qed.

Lemma depth_Permutation (mp1 mp2 : list (value * value)) :
  mp1 ≡ₚ mp2 -> depth (VMap mp1) = depth (VMap mp2).
Proof.
  intros HP. simpl.
  assert (max_list (map (fun kv => depth kv.1 `max` depth kv.2) mp1) =
          max_list (map (fun kv => depth kv.1 `max` depth kv.2) mp2)) as Hm.
  { apply max_list_with_Permutation_proper. by apply Permutation_map. }
  destruct mp1 as [|e1 mp1], mp2 as [|e2 mp2]; try done.
  - by apply Permutation_nil_cons in HP.
  - symmetry in HP. by apply Permutation_nil_cons in HP.
  - by rewrite Hm.
Qed.

Lemma canonical_Permutation (mp1 mp2 : list (value * value)) :
  mp1 ≡ₚ mp2 -> NoDup (map entry_string mp1) ->
  canonical (VMap mp1) = canonical (VMap mp2).
Proof.
  intros HP Hnd. simpl. f_equal. apply sort_entries_Permutation.
  - by apply Permutation_map.
  - by rewrite map_map.
Qed.

(** Claim C3, as the code has it. For a Map whose keys are ByteArray or
    Integer items with non-empty, pairwise distinct strings, the serializer
    writes the tag, the number of entries, and then every entry, key before
    value, in ascending order of the strings of the keys
    ([Buffer.prototype.toString()] of the key bytes, compared as JavaScript
    strings); two such Maps with the same entries in different insertion
    orders are written as the same bytes. *)
Theorem map_entries_sorted (h : Heap) (l1 l2 : loc) (mp1 mp2 : list (value * value)) :
  represents h l1 (VMap mp1) ->
  represents h l2 (VMap mp2) ->
  mp1 ≡ₚ mp2 ->
  well_keyed (VMap mp1) = true ->
  depth (VMap mp1) <= MAX_STRUCT_DEPTH ->
  (N.of_nat (length (encode (canonical (VMap mp1)))) <= MAX_BYTEARRAY_SIZE)%N ->
  exists sorted : list (value * value),
    sorted ≡ₚ map (fun kv => (kv.1, canonical kv.2)) mp1 /\
    StronglySorted jsstring_le (map entry_string sorted) /\
    serializeStackItem h l1 =
      Ok (MapType_id :: encodeVarUint (N.of_nat (length mp1)) ++
            concat (map (fun kv => encode kv.1 ++ encode kv.2) sorted)) /\
    serializeStackItem h l2 = serializeStackItem h l1.
Proof.
  intros HR1 HR2 HP Hwk Hd Hsize.
  destruct (well_keyed_entries mp1 Hwk) as [_ Hnd].
  exists (sort_entries (map (fun kv => (kv.1, canonical kv.2)) mp1)).
  split; [apply merge_sort_Permutation|]. split; [|split].
  - rewrite sort_entries_strings. apply sort_sorted.
  - rewrite (serializeStackItem_represents h l1 (VMap mp1)) by done.
    simpl. f_equal. f_equal. f_equal. f_equal.
    unfold sort_entries. by rewrite merge_sort_Permutation, length_map.
  - rewrite (serializeStackItem_represents h l1 (VMap mp1)) by done.
    rewrite (canonical_Permutation mp1 mp2 HP Hnd) in *.
    apply serializeStackItem_represents; [done| |by rewrite <- (depth_Permutation mp1 mp2)|done].
    by apply (well_keyed_Permutation mp1 mp2).
Qed.

Lemma sort_sorted_id (l : list jsstring) : Sorted jsstring_le l -> sort l = l.
Proof.
  intros Hs. apply (Sorted_unique jsstring_le); [|done|apply merge_sort_Permutation].
  apply Sorted_merge_sort. apply _.
Qed.

Lemma jsstring_le_refl (s : jsstring) : jsstring_le s s.
Proof. by destruct (jsstring_le_total s s). Qed.

Lemma serialize_scalar (h : Heap) (x : loc) (v : value) (fuel : nat) (w : Writer) :
  represents h x v -> scalar v = true -> fits (encode v) w ->
  serializeStackItemInternal (S fuel) h x w = Ok (append (encode v) w).
Proof.
  intros [n HR] Hs Hfit.
  assert (canonical v = v /\ depth v = 0 /\ well_keyed v = true) as (Hc & Hd & Hwk)
    by (by destruct v).
  rewrite <- Hc. apply (serialize_read_back n); [done|done|lia|by rewrite Hc].
Qed.

(** Claim C4. Let a Map have two entries whose keys are ByteArray items with
    different bytes but the same string. The serializer succeeds and writes
    the entry count 2, and then writes the entry inserted last twice; the
    entry inserted first is not written. Deserializing the result gives a Map
    of two equal entries. (The values are taken to be scalars.) *)
Theorem colliding_keys_drop_entry (h : Heap) (l m k1 x1 k2 x2 : loc)
    (b1 b2 : Buffer) (v1 v2 : value) :
  items h !! l = Some (MapType m) ->
  maps h !! m = Some [(k1, x1); (k2, x2)] ->
  items h !! k1 = Some (ByteArrayType b1) ->
  items h !! k2 = Some (ByteArrayType b2) ->
  k1 <> k2 -> b1 <> b2 ->
  Buffer_toString b1 = Buffer_toString b2 -> Buffer_toString b2 <> [] ->
  represents h x1 v1 -> represents h x2 v2 ->
  scalar v1 = true -> scalar v2 = true -> longs v2 = true ->
  1 <= MAX_STRUCT_DEPTH ->
  (N.of_nat (length (encode (VMap [(VByteArray b2, v2); (VByteArray b2, v2)])))
   <= MAX_BYTEARRAY_SIZE)%N ->
  serializeStackItem h l =
    Ok (MapType_id :: encodeVarUint 2 ++
          (encode (VByteArray b2) ++ encode v2) ++
          (encode (VByteArray b2) ++ encode v2))
  /\ deserializeStackItem
       (MapType_id :: encodeVarUint 2 ++
          (encode (VByteArray b2) ++ encode v2) ++
          (encode (VByteArray b2) ++ encode v2)) =
     Ok (VMap [(VByteArray b2, v2); (VByteArray b2, v2)]).
Proof.
  intros Hl Hm Hk1 Hk2 Hk Hb Hs Hne [n1 HR1] [n2 HR2] Hs1 Hs2 Hl2 Hmax Hsize.
  assert (depth v1 = 0 /\ depth v2 = 0) as [Hd1 Hd2] by (by destruct v1, v2).
  set (out := MapType_id :: encodeVarUint 2 ++
          (encode (VByteArray b2) ++ encode v2) ++
          (encode (VByteArray b2) ++ encode v2)).
  assert (encode (VMap [(VByteArray b2, v2); (VByteArray b2, v2)]) = out) as Hout.
  { unfold out. cbn [encode map concat fst snd length]. by rewrite app_nil_r. }
  rewrite Hout in Hsize.
  split.
  - assert (represents h l (VMap [(VByteArray b1, v1); (VByteArray b2, v2)])) as HR.
    { remember (S (n1 `max` n2)) as N eqn:HN.
      assert (read_back N h k1 = Some (VByteArray b1)) as E1
        by (rewrite HN; simpl; by rewrite Hk1).
      assert (read_back N h k2 = Some (VByteArray b2)) as E2
        by (rewrite HN; simpl; by rewrite Hk2).
      assert (read_back N h x1 = Some v1) as E3
        by (apply (read_back_mono n1); [done|lia]).
      assert (read_back N h x2 = Some v2) as E4
        by (apply (read_back_mono n2); [done|lia]).
      clear HN.
      exists (S N). simpl. rewrite Hl. simpl. rewrite Hm. simpl.
      by rewrite E1, E2, E3, E4. }
    unfold serializeStackItem.
    rewrite (guard_represents h l _ HR).
    rewrite bool_decide_eq_false_2 by (simpl; lia). simpl.
    replace (MAX_STRUCT_DEPTH + 1) with (S (S (pred MAX_STRUCT_DEPTH))) by lia.
    remember (S (pred MAX_STRUCT_DEPTH)) as fuel eqn:Hfuel.
    assert (fits out (LimitedWriter MAX_BYTEARRAY_SIZE)) as Hfit
      by (unfold fits, LimitedWriter; cbn [written limit length]; lia).
    unfold out in Hfit.
    apply fits_cons in Hfit as [F1 [F2 F3]%fits_app].
    set (s := Buffer_toString b2) in *.
    set (keyMap := <[s := k2]> (<[s := k1]> (∅ : gmap jsstring loc))).
    assert (forall w, fits (encode (VByteArray b2) ++ encode v2) w ->
              emit_entry (serializeStackItemInternal fuel h) [(k1, x1); (k2, x2)] keyMap s w
              = Ok (append (encode (VByteArray b2) ++ encode v2) w)) as Hemit.
    { intros w [Fk Fv]%fits_app. unfold emit_entry, keyMap.
      rewrite lookup_insert_eq, Hfuel.
      rewrite (serialize_scalar h k2 (VByteArray b2));
        [|exists 1; simpl; by rewrite Hk2|done|done].
      cbn [mbind result_bind Map_get]. rewrite decide_False, decide_True by done.
      cbn [deref mbind result_bind].
      rewrite (serialize_scalar h x2 v2); [|by exists n2|done|done].
      by rewrite append_append. }
    cbn [serializeStackItemInternal]. rewrite Hl. simpl.
    unfold serialize_map. rewrite Hm. simpl.
    rewrite writeUint8_fits by done. simpl.
    rewrite writeVarUint_fits by done. simpl.
    rewrite Hk1, Hk2. simpl. rewrite Hs. fold s.
    rewrite !decide_False by done. simpl. fold keyMap.
    rewrite sort_sorted_id by (repeat constructor; apply jsstring_le_refl).
    rewrite (for_of_append _ (fun _ => encode (VByteArray b2) ++ encode v2)).
    + simpl. unfold getBytes, out. simpl. by rewrite app_nil_r.
    + repeat constructor; apply Hemit.
    + simpl. by rewrite app_nil_r.
  - rewrite <- Hout. apply deserializeStackItem_encode.
    + simpl. by rewrite Hl2.
    + apply sized_of_length. rewrite Hout. pose proof MAX_BYTEARRAY_SIZE_lt. lia.
Qed.

End Claims.

Section Fuel.
Context `{host : Host} {laws : HostLaws host}.

(** ** The recursion budgets are never used up *)

Lemma try_rethrow_fuel {A} (prefix : string) (m : result A) :
  m <> OutOfFuel -> try_rethrow prefix m <> OutOfFuel.
Proof. by destruct m. Qed.

(** *** The deserializer *)

Lemma readVarUInt_length (r r' : Reader) (n : N) :
  readVarUInt r = Ok (n, r') -> length r' <= length r.
Proof.
  unfold readVarUInt. destruct (decodeVarUint r) as [[n' r'']|] eqn:E; [|done].
  intros [= <- <-]. by eapply decodeVarUint_length.
Qed.

Lemma readVarBytes_length (r r' : Reader) (bs : Buffer) :
  readVarBytes r = Ok (bs, r') -> length r' <= length r.
Proof.
  unfold readVarBytes. destruct (readVarUInt r) as [[n r1]| |] eqn:E; try done. simpl.
  destruct (_ <? _)%N; [done|]. intros [= <- <-].
  apply readVarUInt_length in E. rewrite length_drop. lia.
Qed.

Lemma readVarUInt_fuel (r : Reader) : readVarUInt r <> OutOfFuel.
Proof. unfold readVarUInt. by destruct (decodeVarUint r) as [[? ?]|]. Qed.

Lemma readVarBytes_fuel (r : Reader) : readVarBytes r <> OutOfFuel.
Proof.
  unfold readVarBytes. pose proof (readVarUInt_fuel r).
  destruct (readVarUInt r) as [[n r1]| |]; simpl; try done. by destruct (_ <? _)%N.
Qed.

Lemma read_items_progress (rec : Reader -> result (value * Reader)) (bound : nat)
    (count : nat) (r : Reader) :
  progresses rec bound -> length r <= bound ->
  read_items rec count r <> OutOfFuel /\
  forall arr r', read_items rec count r = Ok (arr, r') -> length r' <= length r.
Proof.
  intros Hrec. revert r. induction count as [|count IH]; intros r Hr; simpl.
  - split; [done|]. by intros arr r' [= <- <-].
  - destruct (Hrec r Hr) as [Hne Hlen].
    destruct (rec r) as [[v r1]| |]; simpl; try done.
    specialize (Hlen v r1 eq_refl).
    destruct (IH r1) as [Hne1 Hlen1]; [lia|].
    destruct (read_items rec count r1) as [[arr r2]| |]; simpl; try done.
    split; [done|]. intros arr' r' [= <- <-]. specialize (Hlen1 arr r2 eq_refl). lia.
Qed.

Lemma read_entries_progress (rec : Reader -> result (value * Reader)) (bound : nat)
    (count : nat) (r : Reader) :
  progresses rec bound -> length r <= bound ->
  read_entries rec count r <> OutOfFuel /\
  forall mp r', read_entries rec count r = Ok (mp, r') -> length r' <= length r.
Proof.
  intros Hrec. revert r. induction count as [|count IH]; intros r Hr; simpl.
  - split; [done|]. by intros arr r' [= <- <-].
  - destruct (Hrec r Hr) as [Hne Hlen].
    destruct (rec r) as [[k r1]| |]; simpl; try done.
    specialize (Hlen k r1 eq_refl).
    destruct (Hrec r1) as [Hne' Hlen']; [lia|].
    destruct (rec r1) as [[v r2]| |]; simpl; try done.
    specialize (Hlen' v r2 eq_refl).
    destruct (IH r2) as [Hne1 Hlen1]; [lia|].
    destruct (read_entries rec count r2) as [[mp r3]| |]; simpl; try done.
    split; [done|]. intros mp' r' [= <- <-]. specialize (Hlen1 mp r3 eq_refl). lia.
Qed.

Lemma try_rethrow_progress (prefix : string) (m : result (value * Reader)) (n : nat) :
  (m <> OutOfFuel /\ forall v r', m = Ok (v, r') -> length r' < n) ->
  try_rethrow prefix m <> OutOfFuel /\
  forall v r', try_rethrow prefix m = Ok (v, r') -> length r' < n.
Proof. by destruct m. Qed.

Lemma deserialize_progress (fuel : nat) :
  progresses (deserializeStackItemInternal (S fuel)) fuel.
Proof.
  induction fuel as [fuel IH] using lt_wf_ind. intros r Hr.
  cbn [deserializeStackItemInternal].
  apply try_rethrow_progress.
  destruct r as [|t r1]; [done|]. cbn [readByte mbind result_bind].
  assert (length r1 < fuel) as Hr1 by (simpl in Hr; lia).
  destruct fuel as [|fuel']; [lia|].
  assert (progresses (deserializeStackItemInternal (S fuel')) fuel') as Hrec
    by (apply IH; lia).
  repeat case_decide; try apply try_rethrow_progress.
  - pose proof (readVarBytes_fuel r1).
    destruct (readVarBytes r1) as [[b r2]| |] eqn:E; simpl; try done.
    split; [done|]. intros v r' [= <- <-]. apply readVarBytes_length in E. simpl. lia.
  - destruct r1 as [|b r2]; simpl; [done|].
    split; [done|]. intros v r' [= <- <-]. lia.
  - unfold readInt64. pose proof (readVarBytes_fuel r1).
    destruct (readVarBytes r1) as [[b r2]| |] eqn:E; simpl; try done.
    destruct (8 <? length b); simpl; [done|].
    split; [done|]. intros v r' [= <- <-]. apply readVarBytes_length in E. simpl. lia.
  - pose proof (readVarUInt_fuel r1).
    destruct (readVarUInt r1) as [[count r2]| |] eqn:E; simpl; try done.
    apply readVarUInt_length in E.
    destruct (read_items_progress _ fuel' (N.to_nat count) r2 Hrec) as [Hne Hlen]; [lia|].
    destruct (read_items _ _ r2) as [[arr r3]| |]; simpl; try done.
    specialize (Hlen arr r3 eq_refl).
    split; [done|]. intros v r' [= <- <-]. lia.
  - pose proof (readVarUInt_fuel r1).
    destruct (readVarUInt r1) as [[count r2]| |] eqn:E; simpl; try done.
    apply readVarUInt_length in E.
    destruct (read_items_progress _ fuel' (N.to_nat count) r2 Hrec) as [Hne Hlen]; [lia|].
    destruct (read_items _ _ r2) as [[arr r3]| |]; simpl; try done.
    specialize (Hlen arr r3 eq_refl).
    split; [done|]. intros v r' [= <- <-]. lia.
  - pose proof (readVarUInt_fuel r1).
    destruct (readVarUInt r1) as [[count r2]| |] eqn:E; simpl; try done.
    apply readVarUInt_length in E.
    destruct (read_entries_progress _ fuel' (N.to_nat count) r2 Hrec) as [Hne Hlen]; [lia|].
    destruct (read_entries _ _ r2) as [[mp r3]| |]; simpl; try done.
    specialize (Hlen mp r3 eq_refl).
    split; [done|]. intros v r' [= <- <-]. lia.
  - done.
Qed.

(** [deserializeStackItem] returns a value or throws. *)
Lemma deserializeStackItem_fuel (data : Buffer) : deserializeStackItem data <> OutOfFuel.
Proof.
  unfold deserializeStackItem.
  destruct (deserialize_progress (length data) data) as [Hne _]; [done|].
  by destruct (deserializeStackItemInternal _ data) as [[v r]| |].
Qed.

(** *** The guard and the serializer *)

Lemma guard_each_fuel (rec : loc -> gmap (loc + loc) bool -> nat ->
                             result (bool * gmap (loc + loc) bool))
    (cs : list loc) (V : gmap (loc + loc) bool) (d : nat) :
  (forall c V', rec c V' (d + 1) <> OutOfFuel) ->
  guard_each rec cs V d <> OutOfFuel.
Proof.
  intros Hrec. revert V. induction cs as [|c cs IH]; intros V; simpl; [done|].
  specialize (Hrec c V). destruct (rec c V (d + 1)) as [[[] V1]| |]; simpl; auto.
Qed.

Lemma guard_entries_fuel (rec : loc -> gmap (loc + loc) bool -> nat ->
                                result (bool * gmap (loc + loc) bool))
    (mp : list (loc * loc)) (V : gmap (loc + loc) bool) (d : nat) :
  (forall c V', rec c V' (d + 1) <> OutOfFuel) ->
  guard_entries rec mp V d <> OutOfFuel.
Proof.
  intros Hrec. revert V. induction mp as [|[k v] mp IH]; intros V; simpl; [done|].
  pose proof (Hrec k V). destruct (rec k V (d + 1)) as [[[] V1]| |]; simpl; auto.
  pose proof (Hrec v V1). destruct (rec v V1 (d + 1)) as [[[] V2]| |]; simpl; auto.
Qed.

Lemma guard_fuel (fuel : nat) (h : Heap) (l : loc) (V : gmap (loc + loc) bool) (d : nat) :
  1 <= fuel -> MAX_STRUCT_DEPTH + 2 <= fuel + d ->
  circularRefAndDepthDetectionInternal fuel h l V d <> OutOfFuel.
Proof.
  revert l V d. induction fuel as [|fuel IH]; intros l V d H1 Hf; [lia|].
  simpl. case_decide as Hd; [done|].
  assert (forall c V', circularRefAndDepthDetectionInternal fuel h c V' (d + 1) <> OutOfFuel)
    as Hrec by (intros c V'; apply IH; lia).
  destruct (items h !! l) as [[bs|bo|z|a|a|a|]|]; simpl; try done.
  - unfold guard_sequence. destruct (arrays h !! a) as [cs|]; simpl; [|done].
    repeat case_decide; try done.
    pose proof (guard_each_fuel _ cs (<[inl a:=true]> V) d Hrec).
    by destruct (guard_each _ cs _ d) as [[[] V1]| |].
  - unfold guard_sequence. destruct (arrays h !! a) as [cs|]; simpl; [|done].
    repeat case_decide; try done.
    pose proof (guard_each_fuel _ cs (<[inl a:=true]> V) d Hrec).
    by destruct (guard_each _ cs _ d) as [[[] V1]| |].
  - destruct (maps h !! a) as [mp|]; simpl; [|done].
    case_decide; try done.
    pose proof (guard_entries_fuel _ mp (<[inr a:=true]> V) d Hrec).
    by destruct (guard_entries _ mp _ d) as [[[] V1]| |].
Qed.

Lemma write_fuel (bs : Buffer) (w : Writer) : write bs w <> OutOfFuel.
Proof. unfold write. by destruct (_ <? _)%N. Qed.

Lemma writeVarBytes_fuel (bs : Buffer) (w : Writer) : writeVarBytes bs w <> OutOfFuel.
Proof.
  unfold writeVarBytes, writeVarUint. pose proof (write_fuel (encodeVarUint (N.of_nat (length bs))) w).
  destruct (write _ w); simpl; try done. apply write_fuel.
Qed.

Lemma for_of_fuel {A S} (f : A -> S -> result S) (l : list A) (s : S) :
  (forall x s', x ∈ l -> f x s' <> OutOfFuel) -> for_of f l s <> OutOfFuel.
Proof.
  revert s. induction l as [|x l IH]; intros s Hf; simpl; [done|].
  pose proof (Hf x s (list_elem_of_here _ _)).
  destruct (f x s); simpl; try done.
  apply IH. intros y s' Hy. apply Hf. by apply list_elem_of_further.
Qed.

(** [collect_keys] only registers keys of the Map. *)
Lemma collect_keys_range (h : Heap) (mp : list (loc * loc))
    (unsortKey unsortKey' : list jsstring) (keyMap keyMap' : gmap jsstring loc) :
  collect_keys h mp unsortKey keyMap = Ok (unsortKey', keyMap') ->
  forall s k, keyMap' !! s = Some k -> keyMap !! s = Some k \/ k ∈ map fst mp.
Proof.
  revert unsortKey keyMap. induction mp as [|[k0 v0] mp IH]; intros unsortKey keyMap; simpl.
  - intros [= <- <-]. auto.
  - destruct (items h !! k0) as [it|]; simpl; [|done].
    destruct (key_bytes it) as [ba|]; [|done]. case_decide; [done|].
    intros HR s k Hk. destruct (IH _ _ HR s k Hk) as [Hin|Hin].
    + destruct (decide (Buffer_toString ba = s)) as [<-|Hne].
      * rewrite lookup_insert_eq in Hin. injection Hin as <-. right. apply list_elem_of_here.
      * rewrite lookup_insert_ne in Hin by done. auto.
    + right. by apply list_elem_of_further.
Qed.

Lemma collect_keys_fuel (h : Heap) (mp : list (loc * loc))
    (unsortKey : list jsstring) (keyMap : gmap jsstring loc) :
  collect_keys h mp unsortKey keyMap <> OutOfFuel.
Proof.
  revert unsortKey keyMap. induction mp as [|[k0 v0] mp IH]; intros unsortKey keyMap; simpl; [done|].
  destruct (items h !! k0) as [it|]; simpl; [|done].
  destruct (key_bytes it) as [ba|]; [|done]. case_decide; [done|]. apply IH.
Qed.

Lemma Map_get_range (mp : list (loc * loc)) (k v : loc) :
  Map_get mp k = Some v -> v ∈ map snd mp.
Proof.
  induction mp as [|[k0 v0] mp IH]; simpl; [done|].
  case_decide.
  - intros [= <-]. apply list_elem_of_here.
  - intros Hv. by apply list_elem_of_further, IH.
Qed.

Lemma serialize_fuel (fuel : nat) (h : Heap) :
  forall (m : nat) (l : loc) (w : Writer),
    within_depth h m l = true -> m < fuel ->
    serializeStackItemInternal fuel h l w <> OutOfFuel.
Proof.
  induction fuel as [|fuel IH]; intros m l w Hw Hm; [lia|].
  assert (forall c w', child h l c ->
            serializeStackItemInternal fuel h c w' <> OutOfFuel) as Hrec.
  { intros c w' Hc. destruct (within_depth_child h m l c Hw Hc) as (m' & -> & Hw').
    apply (IH m'); [done|lia]. }
  unfold child, children in Hrec. simpl.
  destruct (items h !! l) as [[b|b|z|a|a|mm|]|]; simpl; try done.
  - apply try_rethrow_fuel.
    pose proof (write_fuel [ByteArrayType_id] w). unfold writeUint8.
    destruct (write _ w); simpl; try done. apply writeVarBytes_fuel.
  - apply try_rethrow_fuel.
    pose proof (write_fuel [BooleanType_id] w). unfold writeUint8.
    destruct (write _ w); simpl; try done. apply write_fuel.
  - apply try_rethrow_fuel.
    pose proof (write_fuel [IntegerType_id] w). unfold writeUint8.
    destruct (write _ w); simpl; try done. apply writeVarBytes_fuel.
  - apply try_rethrow_fuel. unfold serialize_sequence, writeUint8, writeVarUint.
    pose proof (write_fuel [ArrayType_id] w).
    destruct (write _ w) as [w1| |]; simpl; try done.
    destruct (arrays h !! a) as [elems|]; simpl; [|done].
    pose proof (write_fuel (encodeVarUint (N.of_nat (length elems))) w1).
    destruct (write _ w1) as [w2| |]; simpl; try done.
    apply for_of_fuel. intros c w' Hc. apply Hrec. eauto.
  - apply try_rethrow_fuel. unfold serialize_sequence, writeUint8, writeVarUint.
    pose proof (write_fuel [StructType_id] w).
    destruct (write _ w) as [w1| |]; simpl; try done.
    destruct (arrays h !! a) as [elems|]; simpl; [|done].
    pose proof (write_fuel (encodeVarUint (N.of_nat (length elems))) w1).
    destruct (write _ w1) as [w2| |]; simpl; try done.
    apply for_of_fuel. intros c w' Hc. apply Hrec. eauto.
  - unfold serialize_map, writeUint8, writeVarUint.
    destruct (maps h !! mm) as [mp|]; simpl in *; [|done].
    pose proof (write_fuel [MapType_id] w).
    destruct (write _ w) as [w1| |]; simpl; try done.
    pose proof (write_fuel (encodeVarUint (N.of_nat (length mp))) w1).
    destruct (write _ w1) as [w2| |]; simpl; try done.
    pose proof (collect_keys_fuel h mp [] ∅).
    destruct (collect_keys h mp [] ∅) as [[unsortKey keyMap]| |] eqn:Eck; simpl; try done.
    apply for_of_fuel. intros s w' _. unfold emit_entry.
    destruct (keyMap !! s) as [key|] eqn:Ekey; [|done].
    destruct (collect_keys_range _ _ _ _ _ _ Eck s key Ekey) as [?|Hkey]; [done|].
    assert (forall c, c ∈ map fst mp \/ c ∈ map snd mp ->
              c ∈ flat_map (fun e => [e.1; e.2]) mp) as Hflat.
    { intros c. clear. induction mp as [|[k v] mp IH]; simpl.
      - by intros [?%elem_of_nil|?%elem_of_nil].
      - rewrite !elem_of_cons. intros [[->|?]|[->|?]]; auto. }
    pose proof (Hrec key w') as Hk.
    destruct (serializeStackItemInternal fuel h key w') as [w1'| |]; simpl.
    + destruct (Map_get mp key) as [val|] eqn:Eval; simpl; [|done].
      apply Hrec. eexists. split; [done|]. apply Hflat. right. by eapply Map_get_range.
    + done.
    + apply Hk. eexists. split; [done|]. apply Hflat. by left.
Qed.

(** [serializeStackItem] returns the bytes or throws. *)
Lemma serializeStackItem_fuel (h : Heap) (l : loc) : serializeStackItem h l <> OutOfFuel.
Proof.
  unfold serializeStackItem, circularRefAndDepthDetection.
  pose proof (guard_fuel (MAX_STRUCT_DEPTH + 2) h l ∅ 0) as Hg.
  destruct (circularRefAndDepthDetectionInternal _ h l ∅ 0) as [[[] V]| |] eqn:E;
    simpl; try done; [|exfalso; apply Hg; [lia|lia|done]].
  apply guard_false_within_depth in E as [_ Hw].
  pose proof (serialize_fuel (MAX_STRUCT_DEPTH + 1) h (MAX_STRUCT_DEPTH - 0) l
                (LimitedWriter MAX_BYTEARRAY_SIZE) Hw) as Hs.
  destruct (serializeStackItemInternal _ h l _); simpl; try done.
  exfalso. apply Hs; [lia|done].
Qed.

End Fuel.

(** ** Worked examples on the concrete host *)

(** The round trip of an Array of scalars, a Map and a Struct. *)
Lemma serialize_deserialize_roundtrip_witness :
  exists data v',
    serializeStackItem store_mixed 0 = Ok data /\
    deserializeStackItem data = Ok v' /\
    v' = canonical tree_mixed /\
    same_structure tree_mixed v'.
Proof.
  apply (serialize_deserialize_roundtrip store_mixed 0 tree_mixed).
  - exists 3. reflexivity.
  - reflexivity.
  - reflexivity.
  - vm_compute. lia.
  - by vm_compute.
Defined.

(** [Integer(0)] is written as the bytes 0x02 0x00 and read back; the
    payload 0xFF denotes -1. *)
Lemma integer_tag_roundtrip_witness :
  deserializeStackItem [x02; x01; xff] = Ok (VInteger (-1))
  /\ serializeStackItem store_zero 0 = Ok [x02; x00]
  /\ deserializeStackItem [x02; x00] = Ok (VInteger 0).
Proof.
  destruct (integer_tag_roundtrip store_zero 0 0 [xff] [])
    as (H1 & _ & H2 & H3); [reflexivity|lia|by vm_compute|by vm_compute|].
  split; [exact H1|]. split; [exact H2|exact H3].
Defined.

(** Two Maps holding "b" -> 2 and "a" -> 1 in opposite insertion orders:
    both are written with the entry of "a" first. *)
Lemma map_entries_sorted_witness :
  serializeStackItem store_two_orders 0 =
    Ok [x82; x02; x00; x01; x61; x02; x01; x01; x00; x01; x62; x02; x01; x02]
  /\ serializeStackItem store_two_orders 1 = serializeStackItem store_two_orders 0.
Proof.
  destruct (map_entries_sorted store_two_orders 0 1
              [(VByteArray [x62], VInteger 2); (VByteArray [x61], VInteger 1)]
              [(VByteArray [x61], VInteger 1); (VByteArray [x62], VInteger 2)])
    as (sorted & _ & _ & _ & H2).
  - exists 2. reflexivity.
  - exists 2. reflexivity.
  - apply perm_swap.
  - reflexivity.
  - vm_compute. lia.
  - by vm_compute.
  - split; [reflexivity|exact H2].
Defined.

(** The keys 0xFF and 0xFE both become the string U+FFFD: the entry of 0xFE
    is written twice and the entry of 0xFF not at all. *)
Lemma colliding_keys_drop_entry_witness :
  [xff] <> [xfe] /\ utf8_toString [xff] = utf8_toString [xfe]
  /\ serializeStackItem store_colliding 0 =
       Ok [x82; x02; x00; x01; xfe; x02; x01; x02; x00; x01; xfe; x02; x01; x02]
  /\ deserializeStackItem
       [x82; x02; x00; x01; xfe; x02; x01; x02; x00; x01; xfe; x02; x01; x02] =
     Ok (VMap [(VByteArray [xfe], VInteger 2); (VByteArray [xfe], VInteger 2)]).
Proof.
  split; [done|]. split; [reflexivity|].
  destruct (colliding_keys_drop_entry store_colliding 0 0 1 2 3 4 [xff] [xfe]
              (VInteger 1) (VInteger 2)) as [H1 H2];
    try reflexivity; try done.
  - exists 1. reflexivity.
  - exists 1. reflexivity.
  - simpl. lia.
Defined.

(** Twelve nested Arrays are decoded although the limit is ten. *)
Lemma deserialize_depth_unbounded_witness :
  deserializeStackItem (encode (nest 11 (VArray []))) = Ok (nest 11 (VArray []))
  /\ depth (nest 11 (VArray [])) = 11.
Proof. apply (deserialize_depth_unbounded 11). Defined.

(** An Array that contains itself inside a Struct inside a Map. *)
Lemma cyclic_rejected_witness :
  circularRefAndDepthDetection store_cyclic 0 = Ok true
  /\ serializeStackItem store_cyclic 0 =
       Throw (Error "runtime serialize: can not serialize circular reference data").
Proof.
  apply cyclic_rejected.
  - apply (bool_decide_unpack _). by vm_compute.
  - apply (tc_l _ 0 2 0); [exists [1; 2]; split; [reflexivity|set_solver]|].
    apply (tc_l _ 2 4 0); [exists [3; 4]; split; [reflexivity|set_solver]|].
    apply tc_once. exists [0]. split; [reflexivity|set_solver].
Defined.

(** Eleven Arrays around an Integer are rejected, ten are serialized. *)
Lemma nested_array_depth_limit_witness :
  serializeStackItem (chain_store 11 (IntegerType 1) []) 0 =
    Throw (Error "runtime serialize: can not serialize circular reference data")
  /\ serializeStackItem (chain_store 10 (IntegerType 1) []) 0 =
       Ok (encode (nest 10 (VInteger 1))).
Proof.
  destruct (nested_array_depth_limit
              (chain_store 11 (IntegerType 1) []) (chain_store 10 (IntegerType 1) [])
              0 0 (VInteger 1)) as [H1 H2].
  - reflexivity.
  - exists 12. reflexivity.
  - exists 11. reflexivity.
  - by vm_compute.
  - split; [exact H1|exact H2].
Defined.

(** An empty Array at depth 3 whose payload is in the open set. *)
Lemma guard_empty_container_witness :
  circularRefAndDepthDetectionInternal 1 store_empty 0 {[inl 0 := true]} 3 =
    Ok (false, {[inl 0 := true]}).
Proof.
  refine (guard_empty_container 0 store_empty 0 {[inl 0 := true]} 3 _). reflexivity.
Defined.

(** An Array holding one Array twice and one Map twice. *)
Lemma guard_accepts_shared_witness :
  circularRefAndDepthDetectionInternal (MAX_STRUCT_DEPTH + 2) store_shared 0 ∅ 0
    = Ok (false, ∅)
  /\ circularRefAndDepthDetection store_shared 0 = Ok false.
Proof. apply guard_accepts_shared. reflexivity. Defined.

(** [Integer(5)] equals an item with the bytes 0x05 whose numeric coercion
    throws; [Boolean(true)], whose byte is 0x01, does not. *)
Lemma equals_fallback_witness :
  IntegerType.equals integer_five (Some bytes_five) = Returns true
  /\ BooleanType.equals boolean_true (Some bytes_five) = Returns false
  /\ BooleanType.equals boolean_true None = Returns false.
Proof.
  apply (equals_fallback integer_five boolean_true bytes_five); by vm_compute.
Defined.

(** ** Where the code differs from the specification *)

(** Claim C1 fails: a Map with a Boolean key is a value of the variant
    grammar, of depth 1 and a few bytes, and the serializer refuses it. *)
Lemma roundtrip_counterexample :
  read_back 2 store_boolean_key 0 = Some (VMap [(VBoolean true, VInteger 1)])
  /\ serializeStackItem store_boolean_key 0 =
       Throw (Rethrown "Serialize Struct stackItems error: "
                (Error "Unsupport map key type.")).
Proof. split; reflexivity. Qed.

(** Claim C3 fails twice. The key 0x80 is below the key 0xC2 0x80 as a byte
    sequence, but its string U+FFFD is above the string U+0080, and it is
    written second. And of two Maps with the same two entries, whose keys
    ByteArray(0x01) and Integer(1) have the same bytes, each is written as two
    copies of the entry it got last. *)
Lemma map_order_counterexample :
  (bytes_leb [x80] [xc2; x80] = true /\ bytes_leb [xc2; x80] [x80] = false /\
   serializeStackItem store_byte_order 0 =
     Ok [x82; x02; x00; x02; xc2; x80; x02; x01; x02; x00; x01; x80; x02; x01; x01])
  /\
  (serializeStackItem store_same_bytes 0 =
     Ok [x82; x02; x02; x01; x01; x01; x00; x02; x01; x01; x01; x00] /\
   serializeStackItem store_same_bytes 1 =
     Ok [x82; x02; x00; x01; x01; x01; x01; x00; x01; x01; x01; x01] /\
   serializeStackItem store_same_bytes 0 <> serializeStackItem store_same_bytes 1).
Proof. repeat split; try reflexivity. by vm_compute. Qed.

(** Claim C5 fails: with the limit at 10, an input of twelve nested Arrays is
    decoded into a value of depth 11. *)
Lemma deserialize_depth_counterexample :
  deserializeStackItem (concat (replicate 11 [x80; x01]) ++ [x80; x00]) =
    Ok (nest 11 (VArray []))
  /\ MAX_STRUCT_DEPTH < depth (nest 11 (VArray [])).
Proof. split; [reflexivity|vm_compute; lia]. Qed.

(** Claim C7 fails when the Arrays themselves are counted: ten Arrays around
    an empty Array are eleven Arrays inside one another, one more than the
    limit of ten, and they are serialized. *)
Lemma nested_array_depth_counterexample :
  read_back 12 (chain_store 10 (ArrayType 10) [(10, [])]) 0 = Some (nest 10 (VArray []))
  /\ levels (nest 10 (VArray [])) = MAX_STRUCT_DEPTH + 1
  /\ serializeStackItem (chain_store 10 (ArrayType 10) [(10, [])]) 0 =
       Ok (encode (nest 10 (VArray []))).
Proof. repeat split; reflexivity. Qed.

(** Claim C8 fails: an empty Array met beyond the depth limit makes the guard
    answer [true]. Eleven Arrays around an empty Array are flagged, ten are
    not. *)
Lemma guard_empty_container_counterexample :
  circularRefAndDepthDetectionInternal 1 store_empty 0 ∅ 11 = Ok (true, ∅)
  /\ circularRefAndDepthDetection (chain_store 11 (ArrayType 11) [(11, [])]) 0 = Ok true
  /\ circularRefAndDepthDetection (chain_store 10 (ArrayType 10) [(10, [])]) 0 = Ok false.
Proof. repeat split; reflexivity. Qed.

(** * Further properties of the code *)

(** ** Equality between Integer and Boolean items *)

(** The bytes of an Integer are a single byte exactly for the values other
    than zero between -128 and 127. *)
Lemma bigIntToBytes_single (v : Z) (b : byte) :
  bigIntToBytes v = [b] <-> (-128 <= v < 128)%Z /\ v <> 0%Z /\ b = byte_of_Z v.
Proof.
  unfold bigIntToBytes. destruct (v =? 0)%Z eqn:E0.
  - apply Z.eqb_eq in E0. split; [done|]. intros (_ & H & _). done.
  - apply Z.eqb_neq in E0. cbn [minimalLE].
    destruct ((-128 <=? v) && (v <? 128))%Z eqn:Es.
    + apply small_test in Es. split.
      * intros [= <-]. done.
      * intros (_ & _ & ->). done.
    + split.
      * destruct ((-128 <=? v / 256) && (v / 256 <? 128))%Z; done.
      * intros (Hr & _). apply small_test in Hr. congruence.
Qed.

Lemma byte_of_Z_small (v : Z) (k : Z) :
  (-128 <= v < 128)%Z -> (0 <= k < 128)%Z ->
  byte_of_Z v = byte_of_Z k <-> v = k.
Proof.
  intros Hv Hk. split; [|by intros ->].
  intros E. apply (f_equal Z_of_byte) in E. rewrite !Z_of_byte_of_Z in E.
  rewrite (Z.mod_small k) in E by lia.
  pose proof (Z.div_mod v 256 ltac:(lia)) as Hdm.
  pose proof (Z.mod_pos_bound v 256 ltac:(lia)) as Hb.
  assert (v / 256 = 0 \/ v / 256 = -1)%Z as [Hq|Hq] by lia; lia.
Qed.

(** The byte array of a Boolean is the byte array of an Integer only for
    [true] and 1. *)
Lemma bigIntToBytes_flag (v : Z) (b : bool) :
  bigIntToBytes v = [if b then x01 else x00] <-> b = true /\ v = 1%Z.
Proof.
  split; [|by intros [-> ->]].
  intros E. apply bigIntToBytes_single in E as (Hr & H0 & E). symmetry in E.
  destruct b.
  - apply (byte_of_Z_small v 1) in E; [done|done|lia].
  - apply (byte_of_Z_small v 0) in E; [done|done|lia].
Qed.

(** Property X16. [IntegerType.equals] against another Integer or a Boolean
    never reaches its byte comparison: both have a [getBigInteger] that
    returns, so the comparison is numeric, a Boolean counting as 1 or 0. *)
Theorem integer_equals_numeric (i j : IntegerType.t) (b : BooleanType.t) :
  IntegerType.this i <> IntegerType.this j ->
  IntegerType.this i <> BooleanType.this b ->
  IntegerType.equals i (Some (IntegerType.object j)) =
    Returns (IntegerType.value i =? IntegerType.value j)%Z
  /\ IntegerType.equals i (Some (BooleanType.object b)) =
    Returns (IntegerType.value i =? (if BooleanType.value b then 1 else 0))%Z.
Proof.
  intros Hj Hb. unfold IntegerType.equals. split.
  - rewrite decide_False by done. reflexivity.
  - rewrite decide_False by done. reflexivity.
Qed.

(** Property X17. [BooleanType.equals] compares byte arrays: two Booleans are
    equal when their values are, and a Boolean equals an Integer only when it
    is [true] and the Integer is 1. The byte of [false] is 0x00, which no
    Integer has: the bytes of the Integer 0 are empty. *)
Theorem boolean_equals_bytes (b c : BooleanType.t) (i : IntegerType.t) :
  BooleanType.this b <> BooleanType.this c ->
  BooleanType.this b <> IntegerType.this i ->
  BooleanType.equals b (Some (BooleanType.object c)) =
    Returns (Bool.eqb (BooleanType.value b) (BooleanType.value c))
  /\ BooleanType.equals b (Some (IntegerType.object i)) =
    Returns (BooleanType.value b && (IntegerType.value i =? 1)%Z).
Proof.
  intros Hc Hi. unfold BooleanType.equals. split.
  - rewrite decide_False by (simpl; congruence). simpl. f_equal.
    destruct (BooleanType.value b), (BooleanType.value c); reflexivity.
  - rewrite decide_False by (simpl; congruence). simpl. f_equal.
    apply eq_true_iff_eq. rewrite bool_decide_eq_true, andb_true_iff, Z.eqb_eq.
    split.
    + intros E. symmetry in E. by apply bigIntToBytes_flag in E.
    + intros E. symmetry. by apply bigIntToBytes_flag.
Qed.

(** Property X18. Equality between an Integer and a Boolean depends on which
    of the two is asked, in exactly one case: the Integer 0 says it equals
    [false], and [false] says it does not equal the Integer 0. *)
Theorem equals_symmetric_except_zero (i : IntegerType.t) (b : BooleanType.t) :
  IntegerType.this i <> BooleanType.this b ->
  IntegerType.equals i (Some (BooleanType.object b)) =
    BooleanType.equals b (Some (IntegerType.object i))
  <-> ~ (IntegerType.value i = 0%Z /\ BooleanType.value b = false).
Proof.
  intros Hib. unfold IntegerType.equals, BooleanType.equals.
  rewrite decide_False by done.
  rewrite decide_False by (simpl; congruence). simpl.
  pose proof (bigIntToBytes_flag (IntegerType.value i) (BooleanType.value b)) as Hf.
  destruct (bool_decide_reflect
              ([if BooleanType.value b then x01 else x00] =
               bigIntToBytes (IntegerType.value i))) as [E|E].
  - symmetry in E. apply Hf in E as [-> ->]. simpl. split; [intros _ [? _]|]; done.
  - destruct (BooleanType.value b).
    + assert (IntegerType.value i <> 1%Z) as H1.
      { intros H1. apply E. symmetry. by apply Hf. }
      apply Z.eqb_neq in H1. rewrite H1. split; [intros _ [_ ?]|]; done.
    + split.
      * intros [= H0] [H0' _]. apply Z.eqb_neq in H0. done.
      * intros Hn. f_equal. apply Z.eqb_neq. intros H0. by apply Hn.
Qed.

(** Property X19. [BooleanType.equals] never throws, whatever it is given:
    it always returns a boolean. For [undefined], and for any other object
    whose [getByteArray] throws, that boolean is [false]: the [catch] turns
    the TypeError of [undefined] and every exception of the byte coercion
    into [false]. *)
Theorem boolean_equals_total (b : BooleanType.t) (other : option StackItemObject) :
  (exists r, BooleanType.equals b other = Returns r)
  /\ (other = None -> BooleanType.equals b other = Returns false)
  /\ (forall o e, other = Some o -> BooleanType.this b <> identity o ->
        getByteArray o = Throws e -> BooleanType.equals b other = Returns false).
Proof.
  unfold BooleanType.equals. split; [|split].
  - case_decide; [eauto|]. destruct other as [o|]; simpl; [|eauto].
    destruct (getByteArray o); simpl; eauto.
  - intros ->. reflexivity.
  - intros o e -> Hid Hthrow. rewrite decide_False by (simpl; congruence).
    simpl. by rewrite Hthrow.
Qed.

Section GuardMore.
Context `{host : Host}.

(** ** More on the cycle and depth guard *)

Notation visited_set := (gmap (loc + loc) bool).

Lemma guard_answer (h : Heap) (l : loc) :
  closed h -> is_Some (items h !! l) ->
  circularRefAndDepthDetection h l = Ok (negb (within_depth h MAX_STRUCT_DEPTH l)).
Proof.
  intros Hc Hl. unfold circularRefAndDepthDetection.
  destruct (guard_total (MAX_STRUCT_DEPTH + 2) h l ∅ 0 Hc Hl) as [[b V'] Hr]; [lia..|].
  rewrite Hr. simpl. destruct b.
  - destruct (within_depth h MAX_STRUCT_DEPTH l) eqn:Ew; [|done].
    apply guard_accepts in Ew. rewrite Ew in Hr. done.
  - apply guard_false_within_depth in Hr as [_ Hw].
    rewrite Nat.sub_0_r in Hw. by rewrite Hw.
Qed.

Lemma guard_each_restores (P : visited_set -> Prop)
    (rec : loc -> visited_set -> nat -> result (bool * visited_set))
    (cs : list loc) (V V' : visited_set) (d : nat) :
  (forall c V1 V2, P V1 -> rec c V1 (d + 1) = Ok (false, V2) -> V2 = V1) ->
  P V -> guard_each rec cs V d = Ok (false, V') -> V' = V.
Proof.
  intros Hrec. revert V. induction cs as [|c cs IH]; intros V HP; simpl.
  - by intros [= <-].
  - destruct (rec c V (d + 1)) as [[[] V1]| |] eqn:E; simpl; try done.
    apply Hrec in E; [|done]. subst V1. by apply IH.
Qed.

Lemma guard_entries_restores (P : visited_set -> Prop)
    (rec : loc -> visited_set -> nat -> result (bool * visited_set))
    (mp : list (loc * loc)) (V V' : visited_set) (d : nat) :
  (forall c V1 V2, P V1 -> rec c V1 (d + 1) = Ok (false, V2) -> V2 = V1) ->
  P V -> guard_entries rec mp V d = Ok (false, V') -> V' = V.
Proof.
  intros Hrec. revert V. induction mp as [|[k v] mp IH]; intros V HP; simpl.
  - by intros [= <-].
  - destruct (rec k V (d + 1)) as [[[] V1]| |] eqn:Ek; simpl; try done.
    apply Hrec in Ek; [|done]. subst V1.
    destruct (rec v V (d + 1)) as [[[] V2]| |] eqn:Ev; simpl; try done.
    apply Hrec in Ev; [|done]. subst V2. by apply IH.
Qed.

(** Property X2. The open set is handed back as it was received whenever the
    answer is [false]: every container the guard enters it also leaves. The
    entries of the open set are [true], which is all the guard ever stores. *)
Theorem guard_false_restores (fuel : nat) (h : Heap) (l : loc)
    (V V' : visited_set) (d : nat) :
  map_Forall (fun _ b => b = true) V ->
  circularRefAndDepthDetectionInternal fuel h l V d = Ok (false, V') ->
  V' = V.
Proof.
  revert l V V' d. induction fuel as [|fuel IH]; intros l V V' d HV; [done|].
  simpl. case_decide as Hd; [done|].
  assert (forall c : loc + loc, V !! c <> Some true -> V !! c = None) as Hnone.
  { intros c Hc. destruct (V !! c) as [b|] eqn:E; [|done].
    apply HV in E. by subst b. }
  assert (forall c : loc + loc,
            map_Forall (fun _ b => b = true) (<[c := true]> V)) as Hins.
  { intros c. by apply map_Forall_insert_2. }
  destruct (items h !! l) as [[bs|bo|z|a|a|m|]|]; simpl;
    try (by intros [= <-]); try done.
  1,2: unfold guard_sequence; destruct (arrays h !! a) as [elems|]; [|done]; simpl;
       (case_decide; [by intros [= <-]|]); (case_decide as Hopen; [done|]);
       destruct (guard_each _ elems _ d) as [[[] V1]| |] eqn:E; simpl; try done;
       intros [= <-];
       apply (guard_each_restores (map_Forall (fun _ b => b = true))) in E;
         [|by intros; eapply IH|done];
       subst V1; apply delete_insert_id; by apply Hnone.
  destruct (maps h !! m) as [mp|]; [|done]. simpl.
  case_decide as Hopen; [done|].
  destruct (guard_entries _ mp _ d) as [[[] V1]| |] eqn:E; simpl; try done.
  intros [= <-].
  apply (guard_entries_restores (map_Forall (fun _ b => b = true))) in E;
    [|by intros; eapply IH|done].
  subst V1. apply delete_insert_id. by apply Hnone.
Qed.

End GuardMore.

Section SerializerMore.
Context `{host : Host} {laws : HostLaws host}.

(** ** More on the serializer *)

(** *** What is written does not depend on the writer *)

Lemma write_Ok (bs : Buffer) (w w' : Writer) :
  write bs w = Ok w' <-> fits bs w /\ w' = append bs w.
Proof.
  unfold write, fits, append.
  destruct (limit w <? N.of_nat (length (written w) + length bs))%N eqn:E.
  - apply N.ltb_lt in E. split; [done|]. intros [? _]. lia.
  - apply N.ltb_ge in E. split; [by intros [= <-]|]. by intros [_ ->].
Qed.

Lemma emits_write (bs : Buffer) : emits (write bs).
Proof.
  intros w w' [Hf ->]%write_Ok. exists bs. split; [done|]. split; [done|].
  intros w2 Hf2. by apply write_Ok.
Qed.

Lemma emits_bind (f g : Writer -> result Writer) :
  emits f -> emits g -> emits (fun w => w1 ← f w; g w1).
Proof.
  intros Hf Hg w w' H. destruct (f w) as [w1| |] eqn:E; simpl in H; try done.
  destruct (Hf _ _ E) as (b1 & -> & F1 & R1).
  destruct (Hg _ _ H) as (b2 & -> & F2 & R2).
  exists (b1 ++ b2). split; [by rewrite append_append|]. split.
  - intros F0. apply fits_app. split; [by apply F1|]. apply F2.
    specialize (F1 F0). unfold fits, append in *. simpl in *.
    rewrite length_app in *. lia.
  - intros w2 [Fa Fb]%fits_app. rewrite (R1 _ Fa). simpl.
    rewrite (R2 _ Fb). by rewrite append_append.
Qed.

Lemma emits_try_rethrow (prefix : string) (f : Writer -> result Writer) :
  emits f -> emits (fun w => try_rethrow prefix (f w)).
Proof.
  intros Hf w w' H. destruct (f w) as [w1| |] eqn:E; simpl in H; try done.
  injection H as <-. destruct (Hf _ _ E) as (bs & -> & F & R).
  exists bs. split; [done|]. split; [done|]. intros w2 F2. by rewrite (R _ F2).
Qed.

Lemma emits_deref {A} (o : option A) (g : A -> Writer -> result Writer) :
  (forall a, o = Some a -> emits (g a)) -> emits (fun w => a ← deref o; g a w).
Proof.
  intros Hg w w' H. destruct o as [a|]; simpl in *; [|done]. by apply (Hg a).
Qed.

Lemma emits_for_of {A} (f : A -> Writer -> result Writer) (l : list A) :
  Forall (fun x => emits (f x)) l -> emits (for_of f l).
Proof.
  induction 1 as [|x l Hx _ IH].
  - intros w w' [= <-]. exists []. split; [by rewrite append_nil|]. split; [done|].
    intros w2 _. simpl. by rewrite append_nil.
  - apply (emits_bind (f x) (for_of f l)); done.
Qed.

Lemma serialize_emits (fuel : nat) (h : Heap) (l : loc) :
  emits (serializeStackItemInternal fuel h l).
Proof.
  revert l. induction fuel as [|fuel IH]; intros l; [by intros w w' H|].
  assert (forall cs : list loc,
            Forall (fun c => emits (serializeStackItemInternal fuel h c)) cs) as Hall.
  { intros cs. apply Forall_forall. intros c _. apply IH. }
  cbn [serializeStackItemInternal].
  apply (emits_deref (items h !! l)). intros it _.
  destruct it as [ba|b|z|a|a|m|].
  1-3: apply emits_try_rethrow; unfold writeVarBytes, writeVarUint, writeUint8;
       repeat (apply emits_bind || apply emits_write).
  1,2: apply emits_try_rethrow; unfold serialize_sequence, writeVarUint, writeUint8;
       (apply emits_bind; [apply emits_write|]);
       apply (emits_deref (arrays h !! a)); intros elems _;
       (apply emits_bind; [apply emits_write|]); apply emits_for_of, Hall.
  - unfold serialize_map. apply (emits_deref (maps h !! m)). intros mp _.
    intros w w' H. unfold writeUint8, writeVarUint in *.
    destruct (write [MapType_id] w) as [w1| |] eqn:E1; simpl in H; try done.
    destruct (write (encodeVarUint (N.of_nat (length mp))) w1) as [w2| |] eqn:E2;
      simpl in H; try done.
    destruct (collect_keys h mp [] ∅) as [[unsortKey keyMap]| |] eqn:Eck;
      simpl in H; try done.
    assert (emits (for_of (emit_entry (serializeStackItemInternal fuel h) mp keyMap)
                     (sort unsortKey))) as Hloop.
    { apply emits_for_of. apply Forall_forall. intros s _. unfold emit_entry.
      destruct (keyMap !! s) as [key|]; [|by intros ? ? ?].
      apply emits_bind; [apply IH|].
      apply (emits_deref (Map_get mp key)). intros val _. apply IH. }
    pose proof (emits_bind _ _ (emits_write [MapType_id])
                  (emits_bind _ _
                     (emits_write (encodeVarUint (N.of_nat (length mp)))) Hloop))
      as Hall3.
    destruct (Hall3 w w') as (bs & -> & F & R).
    { simpl. rewrite E1. simpl. rewrite E2. done. }
    exists bs. split; [done|]. split; [done|]. intros w3 F3.
    specialize (R w3 F3). simpl in R.
    destruct (write [MapType_id] w3) as [w4| |]; simpl in *; try done.
    destruct (write (encodeVarUint (N.of_nat (length mp))) w4) as [w5| |];
      simpl in *; done.
  - by intros w w' H.
Qed.

(** *** The size cap *)

(** Property X5. Whatever [serializeStackItem] returns has at most
    [MAX_BYTEARRAY_SIZE] bytes, and the internal serializer adds those same
    bytes to any writer that has room for them: the output of an item does not
    depend on what was written before it. *)
Theorem serialize_within_cap (h : Heap) (l : loc) (data : Buffer) :
  serializeStackItem h l = Ok data ->
  (N.of_nat (length data) <= MAX_BYTEARRAY_SIZE)%N /\
  forall w, fits data w ->
    serializeStackItemInternal (MAX_STRUCT_DEPTH + 1) h l w = Ok (append data w).
Proof.
  unfold serializeStackItem. intros H.
  destruct (circularRefAndDepthDetection h l) as [[]| |]; simpl in H; try done.
  destruct (serializeStackItemInternal _ h l _) as [w'| |] eqn:E; simpl in H; try done.
  injection H as <-.
  destruct (serialize_emits _ _ _ _ _ E) as (bs & -> & F & R). simpl.
  split; [|done].
  assert (fits [] (LimitedWriter MAX_BYTEARRAY_SIZE)) as F0.
  { unfold fits. simpl. lia. }
  specialize (F F0). unfold fits in F. simpl in F. lia.
Qed.

Lemma serializeStackItem_Ok_encode (h : Heap) (l : loc) (v : value) (data : Buffer) :
  represents h l v -> well_keyed v = true ->
  serializeStackItem h l = Ok data ->
  data = encode (canonical v) /\ depth v <= MAX_STRUCT_DEPTH /\
  (N.of_nat (length data) <= MAX_BYTEARRAY_SIZE)%N.
Proof.
  intros HR Hwk H. unfold serializeStackItem in H.
  rewrite (guard_represents h l v HR) in H. simpl in H.
  case_bool_decide as Hd; [done|].
  destruct (serializeStackItemInternal _ h l _) as [w'| |] eqn:E; simpl in H; try done.
  injection H as <-.
  destruct (serialize_emits _ _ _ _ _ E) as (bs & -> & F & R). simpl.
  assert (fits [] (LimitedWriter MAX_BYTEARRAY_SIZE)) as F0.
  { unfold fits. simpl. lia. }
  specialize (F F0).
  set (w2 := mkWriter (N.of_nat (length bs + length (encode (canonical v)))) []).
  assert (fits bs w2) as F2 by (unfold fits; simpl; lia).
  assert (fits (encode (canonical v)) w2) as F3 by (unfold fits; simpl; lia).
  specialize (R w2 F2). destruct HR as [n HR].
  rewrite (serialize_read_back n h l v _ w2 HR Hwk) in R; [|lia|done].
  injection R as R. split; [done|]. split; [lia|].
  unfold fits in F. simpl in F. lia.
Qed.

(** Property X4. For an item that unfolds to a tree with serializable Map
    keys, the two limits are all that stands between it and its encoding: the
    call returns the canonical encoding when the nesting is at most
    [MAX_STRUCT_DEPTH] and the encoding has at most [MAX_BYTEARRAY_SIZE]
    bytes, and throws when either limit is exceeded. *)
Theorem serialize_succeeds_iff (h : Heap) (l : loc) (v : value) :
  represents h l v -> well_keyed v = true ->
  match serializeStackItem h l with
  | Ok data =>
      data = encode (canonical v) /\ depth v <= MAX_STRUCT_DEPTH /\
      (N.of_nat (length (encode (canonical v))) <= MAX_BYTEARRAY_SIZE)%N
  | Throw _ =>
      MAX_STRUCT_DEPTH < depth v \/
      (MAX_BYTEARRAY_SIZE < N.of_nat (length (encode (canonical v))))%N
  | OutOfFuel => False
  end.
Proof.
  intros HR Hwk.
  destruct (serializeStackItem h l) as [data|e|] eqn:E.
  - destruct (serializeStackItem_Ok_encode h l v data HR Hwk E) as (-> & Hd & Hs).
    done.
  - destruct (decide (depth v <= MAX_STRUCT_DEPTH)) as [Hd|Hd]; [|left; lia].
    destruct (decide (N.of_nat (length (encode (canonical v))) <= MAX_BYTEARRAY_SIZE)%N)
      as [Hs|Hs]; [|right; lia].
    rewrite (serializeStackItem_represents h l v HR Hwk Hd Hs) in E. done.
  - by apply (serializeStackItem_fuel h l).
Qed.

(** Property X7. Two items that both serialize give the same bytes exactly
    when their trees are equal up to the order of Map entries: neither the
    identity of the objects, nor sharing, nor the insertion order of a Map
    leaves a trace in the output, and nothing else is lost. *)
Theorem serialize_equal_iff (h1 h2 : Heap) (l1 l2 : loc) (v1 v2 : value)
    (d1 d2 : Buffer) :
  represents h1 l1 v1 -> represents h2 l2 v2 ->
  well_keyed v1 = true -> well_keyed v2 = true ->
  longs v1 = true -> longs v2 = true ->
  serializeStackItem h1 l1 = Ok d1 -> serializeStackItem h2 l2 = Ok d2 ->
  d1 = d2 <-> canonical v1 = canonical v2.
Proof.
  intros HR1 HR2 Hw1 Hw2 Hl1 Hl2 E1 E2.
  destruct (serializeStackItem_Ok_encode h1 l1 v1 d1 HR1 Hw1 E1) as (-> & _ & Hs1).
  destruct (serializeStackItem_Ok_encode h2 l2 v2 d2 HR2 Hw2 E2) as (-> & _ & Hs2).
  split; [|by intros ->].
  intros Heq. pose proof MAX_BYTEARRAY_SIZE_lt as Hcap.
  assert (deserializeStackItem (encode (canonical v1)) = Ok (canonical v1)) as D1.
  { apply deserializeStackItem_encode; [by apply longs_canonical|].
    apply sized_of_length. lia. }
  assert (deserializeStackItem (encode (canonical v2)) = Ok (canonical v2)) as D2.
  { apply deserializeStackItem_encode; [by apply longs_canonical|].
    apply sized_of_length. lia. }
  rewrite Heq in D1. congruence.
Qed.

(** *** How the serializer fails *)

Lemma benign_write (bs : Buffer) (w : Writer) : benign (write bs w).
Proof.
  intros e. unfold write. case_match; [|done]. intros [= <-]. apply list_elem_of_here.
Qed.

Lemma benign_bind {A B} (m : result A) (k : A -> result B) :
  benign m -> (forall a, m = Ok a -> benign (k a)) -> benign (m ≫= k).
Proof.
  intros Hm Hk e. destruct m as [a| |]; simpl; [exact (Hk a eq_refl e)| |done].
  intros [= <-]. by apply Hm.
Qed.

Lemma benign_try_rethrow {A} (prefix : string) (m : result A) :
  benign m -> benign (try_rethrow prefix m).
Proof.
  intros Hm e. destruct m as [a|e0|]; simpl; try done.
  intros [= <-]. simpl. by apply Hm.
Qed.

Lemma benign_for_of {A S} (f : A -> S -> result S) (l : list A) (s : S) :
  (forall x s', x ∈ l -> benign (f x s')) -> benign (for_of f l s).
Proof.
  revert s. induction l as [|x l IH]; intros s Hf; simpl; [done|].
  apply benign_bind; [apply Hf; set_solver|].
  intros s' _. apply IH. intros y s'' Hy. apply Hf. set_solver.
Qed.

Lemma benign_collect_keys (h : Heap) (mp : list (loc * loc))
    (unsortKey : list jsstring) (keyMap : gmap jsstring loc) :
  Forall (fun e => is_Some (items h !! e.1)) mp ->
  benign (collect_keys h mp unsortKey keyMap).
Proof.
  intros HF. revert unsortKey keyMap.
  induction HF as [|[k v] mp [it Hit] _ IH]; intros unsortKey keyMap; simpl; [done|].
  simpl in Hit. rewrite Hit. simpl.
  destruct (key_bytes it) as [ba|].
  - case_decide; [|apply IH]. intros e [= <-]. simpl. unfold internal_failures.
    do 2 apply list_elem_of_further. apply list_elem_of_here.
  - intros e [= <-]. simpl. unfold internal_failures.
    do 3 apply list_elem_of_further. apply list_elem_of_here.
Qed.

Lemma collect_keys_registered (h : Heap) (mp : list (loc * loc))
    (unsortKey unsortKey' : list jsstring) (keyMap keyMap' : gmap jsstring loc) :
  collect_keys h mp unsortKey keyMap = Ok (unsortKey', keyMap') ->
  (forall s, s ∈ unsortKey -> is_Some (keyMap !! s)) ->
  forall s, s ∈ unsortKey' -> is_Some (keyMap' !! s).
Proof.
  revert unsortKey keyMap. induction mp as [|[k v] mp IH]; intros unsortKey keyMap; simpl.
  - intros [= <- <-]. done.
  - destruct (items h !! k) as [it|]; simpl; [|done].
    destruct (key_bytes it) as [ba|]; [|done]. case_decide; [done|].
    intros Hck Hreg. eapply IH; [done|]. intros s [Hs|Hs%list_elem_of_singleton]%elem_of_app.
    + destruct (decide (Buffer_toString ba = s)) as [->|Hne].
      * rewrite lookup_insert_eq. eauto.
      * rewrite lookup_insert_ne by done. by apply Hreg.
    + subst s. rewrite lookup_insert_eq. eauto.
Qed.

Lemma Map_get_Some (mp : list (loc * loc)) (k : loc) :
  k ∈ map fst mp -> is_Some (Map_get mp k).
Proof.
  induction mp as [|[k' v] mp IH]; simpl; [by intros ?%elem_of_nil|].
  case_decide; [eauto|]. intros [?|?]%elem_of_cons; [done|auto].
Qed.

Lemma entries_children (mp : list (loc * loc)) (c : loc) :
  c ∈ map fst mp \/ c ∈ map snd mp -> c ∈ flat_map (fun e => [e.1; e.2]) mp.
Proof.
  induction mp as [|[k v] mp IH]; simpl.
  - by intros [?%elem_of_nil|?%elem_of_nil].
  - rewrite !elem_of_cons. intros [[->|?]|[->|?]]; auto.
Qed.

(** In a store without dangling references the exceptions of the internal
    serializer go back to the writer's cap, an item of no known type or a
    refused Map key: the lookups [keyMap.get(v)!] and [mp.get(key)!] of the
    Map branch always find what they look for. *)
Lemma serialize_benign (h : Heap) (fuel : nat) :
  closed h ->
  forall (l : loc) (w : Writer),
    is_Some (items h !! l) -> benign (serializeStackItemInternal fuel h l w).
Proof.
  intros Hc. induction fuel as [|fuel IH]; intros l w Hl; [done|].
  destruct (closed_children h l Hc Hl) as (cs & Hcs & Hall).
  rewrite Forall_forall in Hall. unfold children in Hcs.
  cbn [serializeStackItemInternal].
  destruct (items h !! l) as [[ba|b|z|a|a|m|]|]; simpl; try done.
  1-3: apply benign_try_rethrow; unfold writeVarBytes, writeVarUint, writeUint8;
       repeat (apply benign_bind; [|intros ? _]); apply benign_write.
  1,2: apply benign_try_rethrow; unfold serialize_sequence, writeVarUint, writeUint8;
       (apply benign_bind; [apply benign_write|]); intros w1 _; rewrite Hcs; simpl;
       (apply benign_bind; [apply benign_write|]); intros w2 _;
       apply benign_for_of; intros c w' Hin; apply IH; by apply Hall.
  - unfold serialize_map, writeVarUint, writeUint8.
    destruct (maps h !! m) as [mp|]; simpl in Hcs |- *; [|done].
    injection Hcs as <-.
    apply benign_bind.
    + apply benign_try_rethrow.
      apply benign_bind; [apply benign_write|]. intros w1 _.
      apply benign_bind; [apply benign_write|]. intros w2 _.
      apply benign_bind; [|by intros [] _].
      apply benign_collect_keys. apply Forall_forall. intros [k v] Hin.
      apply Hall, entries_children. left. apply list_elem_of_fmap. by exists (k, v).
    + intros [[w2 unsortKey] keyMap] Hpre.
      assert (collect_keys h mp [] ∅ = Ok (unsortKey, keyMap)) as Eck.
      { destruct (write [MapType_id] w) as [w1| |]; simpl in Hpre; try done.
        destruct (write (encodeVarUint (N.of_nat (length mp))) w1) as [w2'| |];
          simpl in Hpre; try done.
        destruct (collect_keys h mp [] ∅) as [[u k]| |]; simpl in Hpre; try done.
        by injection Hpre as _ <- <-. }
      apply benign_for_of. intros s w' Hs. unfold emit_entry.
      assert (s ∈ unsortKey) as Hs'.
      { unfold sort in Hs. by rewrite merge_sort_Permutation in Hs. }
      destruct (collect_keys_registered _ _ _ _ _ _ Eck
                  ltac:(by intros ? ?%elem_of_nil) s Hs') as [key Hkey].
      rewrite Hkey.
      destruct (collect_keys_range _ _ _ _ _ _ Eck s key Hkey) as [?|Hin]; [done|].
      apply benign_bind; [apply IH, Hall, entries_children; by left|]. intros w1 _.
      destruct (Map_get_Some mp key Hin) as [val Hval]. rewrite Hval. simpl.
      apply IH, Hall, entries_children. right. by eapply Map_get_range.
  - intros e [= <-]. simpl. unfold internal_failures.
    apply list_elem_of_further, list_elem_of_here.
Qed.

(** Property X9. In a store without dangling references [serializeStackItem]
    fails in one of five ways: with the circular-reference error of the guard,
    or with an exception that goes back to the size cap, to an item of no
    known type, or to one of the two refusals of a Map key. It never fails on
    a missing object: the keys it looks up in [keyMap] and in the Map itself
    are always there. *)
Theorem serialize_failures (h : Heap) (l : loc) (e : exn) :
  closed h -> is_Some (items h !! l) ->
  serializeStackItem h l = Throw e ->
  (e = Error "runtime serialize: can not serialize circular reference data"
   \/ root_cause e ∈ internal_failures)
  /\ root_cause e <> TypeError.
Proof.
  intros Hc Hl H.
  assert (e = Error "runtime serialize: can not serialize circular reference data"
          \/ root_cause e ∈ internal_failures) as Hcase.
  { unfold serializeStackItem in H. rewrite (guard_answer h l Hc Hl) in H.
    simpl in H. destruct (negb _); [injection H as <-; by left|].
    destruct (serializeStackItemInternal _ h l _) as [w'|e'|] eqn:E; simpl in H; try done.
    injection H as <-. right. by eapply (serialize_benign h _ Hc l _ Hl). }
  split; [done|]. destruct Hcase as [->|Hin]; [done|].
  intros Heq. rewrite Heq in Hin. unfold internal_failures in Hin.
  repeat (apply elem_of_cons in Hin as [?|Hin]; [done|]). by apply elem_of_nil in Hin.
Qed.

(** Property X1. In a store without dangling references the guard always
    answers, and its answer is [false] exactly when every chain of references
    from the item ends after at most [MAX_STRUCT_DEPTH] containers; a cycle is
    an endless chain. The circular-reference error of [serializeStackItem] is
    raised in exactly those cases: no later failure is reported as one. *)
Theorem guard_decides_depth (h : Heap) (l : loc) :
  closed h -> is_Some (items h !! l) ->
  circularRefAndDepthDetection h l = Ok (negb (within_depth h MAX_STRUCT_DEPTH l))
  /\ (serializeStackItem h l =
        Throw (Error "runtime serialize: can not serialize circular reference data")
      <-> within_depth h MAX_STRUCT_DEPTH l = false).
Proof.
  intros Hc Hl. split; [by apply guard_answer|].
  unfold serializeStackItem. rewrite (guard_answer h l Hc Hl). simpl.
  destruct (within_depth h MAX_STRUCT_DEPTH l); simpl; [|done].
  split; [|done]. intros H.
  destruct (serializeStackItemInternal _ h l _) as [w'|e'|] eqn:E; simpl in H; try done.
  injection H as ->. eapply (serialize_benign h _ Hc l _ Hl) in E.
  simpl in E. unfold internal_failures in E.
  repeat (apply elem_of_cons in E as [?|E]; [done|]). by apply elem_of_nil in E.
Qed.

(** *** Items that cannot be serialized *)

Lemma for_of_not_Ok {A S} (f : A -> S -> result S) (l : list A) (x : A) (s : S) :
  x ∈ l -> (forall s1 s2, f x s1 <> Ok s2) -> forall s', for_of f l s <> Ok s'.
Proof.
  intros Hin Hx. revert s. induction l as [|y l IH]; intros s s'; simpl.
  - by apply elem_of_nil in Hin.
  - destruct (f y s) as [s1| |] eqn:E; simpl; try done.
    apply elem_of_cons in Hin as [->|Hin]; [by apply Hx in E|by apply IH].
Qed.

Lemma collect_keys_refused (h : Heap) (mp : list (loc * loc)) (e : loc * loc)
    (it : StackItem) (unsortKey : list jsstring) (keyMap : gmap jsstring loc) :
  e ∈ mp -> items h !! e.1 = Some it -> key_refused it = true ->
  forall r, collect_keys h mp unsortKey keyMap <> Ok r.
Proof.
  intros Hin Hit Href. revert unsortKey keyMap.
  induction mp as [|[k v] mp IH]; intros unsortKey keyMap r; simpl.
  - by apply elem_of_nil in Hin.
  - destruct (items h !! k) as [it'|] eqn:Ek; simpl; [|done].
    destruct (key_bytes it') as [ba|] eqn:Eb; [|done]. case_decide as Hs; [done|].
    apply elem_of_cons in Hin as [->|Hin]; [|by apply IH].
    simpl in Hit. rewrite Ek in Hit. injection Hit as <-.
    unfold key_refused in Href. rewrite Eb in Href.
    by apply bool_decide_eq_true in Href.
Qed.

Lemma unserializable_not_Ok (h : Heap) (l : loc) :
  unserializable h l ->
  forall (fuel : nat) (w w' : Writer), serializeStackItemInternal fuel h l w <> Ok w'.
Proof.
  induction 1 as [l Hl|l a elems c Hl Ha Hin _ IH|l a elems c Hl Ha Hin _ IH
                  |l m mp e it Hl Hm Hin Hit Href];
    intros [|fuel] w w'; try done; cbn [serializeStackItemInternal]; rewrite Hl; simpl.
  1: done.
  1,2: unfold serialize_sequence; rewrite Ha;
       destruct (writeUint8 _ w) as [w1| |]; simpl; try done;
       destruct (writeVarUint _ w1) as [w2| |]; simpl; try done;
       destruct (for_of _ elems w2) as [w3| |] eqn:E; simpl; try done;
       by apply (for_of_not_Ok _ _ c _ Hin (IH fuel)) in E.
  - unfold serialize_map. rewrite Hm. simpl.
    destruct (writeUint8 _ w) as [w1| |]; simpl; try done.
    destruct (writeVarUint _ w1) as [w2| |]; simpl; try done.
    destruct (collect_keys h mp [] ∅) as [r| |] eqn:E; simpl; try done.
    by apply (collect_keys_refused h mp e it [] ∅ Hin Hit Href) in E.
Qed.

(** Property X10. An Interop item, and a Map with a key that is neither a
    ByteArray nor an Integer or whose bytes give the empty string, make
    [serializeStackItem] throw, also when they sit inside Arrays and Structs
    at any depth. *)
Theorem unserializable_throws (h : Heap) (l : loc) :
  unserializable h l -> exists e, serializeStackItem h l = Throw e.
Proof.
  intros Hu. pose proof (serializeStackItem_fuel h l) as Hfuel.
  destruct (serializeStackItem h l) as [data|e|] eqn:E; [|eauto|done].
  exfalso. unfold serializeStackItem in E.
  destruct (circularRefAndDepthDetection h l) as [[]| |]; simpl in E; try done.
  destruct (serializeStackItemInternal _ h l _) as [w'| |] eqn:Es; simpl in E; try done.
  by apply (unserializable_not_Ok h l Hu) in Es.
Qed.

(** Property X11. The Integer 0 and the empty ByteArray cannot be keys of a
    Map that is to be serialized: their bytes are empty, the string of no
    bytes is the empty string, and the Map branch refuses the empty string. *)
Theorem empty_key_refused (h : Heap) (l m k : loc) (mp : list (loc * loc)) :
  Buffer_toString [] = [] ->
  items h !! l = Some (MapType m) -> maps h !! m = Some mp ->
  k ∈ map fst mp ->
  items h !! k = Some (IntegerType 0) \/ items h !! k = Some (ByteArrayType []) ->
  exists e, serializeStackItem h l = Throw e.
Proof.
  intros Hempty Hl Hm Hk Hit.
  apply list_elem_of_fmap in Hk as ([k' x] & -> & Hin). simpl in Hit.
  assert (exists it, items h !! k' = Some it /\ key_refused it = true)
    as (it & Hit' & Href).
  { destruct Hit as [Hit|Hit]; eexists; (split; [exact Hit|]);
      unfold key_refused; simpl; by apply bool_decide_eq_true. }
  assert (unserializable h l) as Hu by (by eapply unserializable_key).
  pose proof (serializeStackItem_fuel h l) as Hfuel.
  destruct (serializeStackItem h l) as [data|e|] eqn:E; [|eauto|done].
  exfalso. unfold serializeStackItem in E.
  destruct (circularRefAndDepthDetection h l) as [[]| |]; simpl in E; try done.
  destruct (serializeStackItemInternal _ h l _) as [w'| |] eqn:Es; simpl in E; try done.
  by apply (unserializable_not_Ok h l Hu) in Es.
Qed.

(** *** An Array is written as its elements, one after the other *)

Lemma within_depth_mono (h : Heap) (n m : nat) (l : loc) :
  within_depth h n l = true -> n <= m -> within_depth h m l = true.
Proof.
  revert m l. induction n as [|n IH]; intros m l; rewrite !within_depth_unfold.
  - destruct (children h l) as [[|c cs]|]; done.
  - destruct (children h l) as [[|c cs]|]; try done.
    intros Hw Hm. destruct m as [|m]; [lia|].
    rewrite forallb_forall in Hw. apply forallb_forall. intros x Hx.
    apply IH; [by apply Hw|lia].
Qed.

Lemma for_of_Ok_mono {A S} (f g : A -> S -> result S) (l : list A) :
  (forall x s s', x ∈ l -> f x s = Ok s' -> g x s = Ok s') ->
  forall s s', for_of f l s = Ok s' -> for_of g l s = Ok s'.
Proof.
  induction l as [|x l IH]; intros Hfg s s'; simpl; [done|].
  destruct (f x s) as [s1| |] eqn:E; simpl; try done.
  rewrite (Hfg x s s1) by (done || set_solver). simpl.
  apply IH. intros y ? ? Hy. apply Hfg. set_solver.
Qed.

(** A deeper recursion budget changes nothing in what is returned. *)
Lemma serialize_fuel_mono (h : Heap) (fuel : nat) :
  forall (l : loc) (w w' : Writer),
    serializeStackItemInternal fuel h l w = Ok w' ->
    serializeStackItemInternal (S fuel) h l w = Ok w'.
Proof.
  induction fuel as [|fuel IH]; intros l w w'; [done|].
  remember (S fuel) as fuel1 eqn:Efuel.
  rewrite Efuel at 1. cbn [serializeStackItemInternal].
  destruct (items h !! l) as [[ba|b|z|a|a|m|]|]; simpl; try done.
  1,2: unfold serialize_sequence;
       destruct (writeUint8 _ w) as [w1| |]; simpl; try done;
       destruct (arrays h !! a) as [elems|]; simpl; try done;
       destruct (writeVarUint _ w1) as [w2| |]; simpl; try done;
       destruct (for_of _ elems w2) as [w3| |] eqn:E; simpl; try done;
       (eapply for_of_Ok_mono in E as ->; [done|]); intros c s s' _; subst fuel1; apply IH.
  - unfold serialize_map.
    destruct (maps h !! m) as [mp|]; simpl; try done.
    destruct (writeUint8 _ w) as [w1| |]; simpl; try done.
    destruct (writeVarUint _ w1) as [w2| |]; simpl; try done.
    destruct (collect_keys h mp [] ∅) as [[unsortKey keyMap]| |]; simpl; try done.
    apply for_of_Ok_mono. intros s w3 w4 _. unfold emit_entry.
    destruct (keyMap !! s) as [key|]; [|done].
    destruct (serializeStackItemInternal fuel h key w3) as [w5| |] eqn:Ek;
      simpl; try done.
    subst fuel1. rewrite (IH _ _ _ Ek). simpl.
    destruct (Map_get mp key) as [val|]; simpl; [|done]. apply IH.
Qed.

Lemma for_of_pieces {A} (f : A -> Writer -> result Writer) (l : list A)
    (w w' : Writer) :
  Forall (fun x => emits (f x)) l ->
  for_of f l w = Ok w' ->
  exists ds,
    Forall2 (fun x d => forall w2, fits d w2 -> f x w2 = Ok (append d w2)) l ds /\
    w' = append (concat ds) w /\ (fits [] w -> fits (concat ds) w).
Proof.
  intros HF. revert w. induction HF as [|x l Hx _ IH]; intros w; simpl.
  - intros [= <-]. exists []. simpl. by rewrite append_nil.
  - destruct (f x w) as [w1| |] eqn:E; simpl; try done. intros Hl.
    destruct (Hx _ _ E) as (d & -> & F & R).
    destruct (IH _ Hl) as (ds & HF2 & -> & F2).
    exists (d :: ds). split; [by constructor|]. simpl.
    split; [by rewrite append_append|]. intros F0. specialize (F F0).
    apply fits_app. split; [done|]. apply F2.
    unfold fits, append in *. simpl in *. rewrite length_app in *. lia.
Qed.

Lemma length_concat_elem (ds : list Buffer) (d : Buffer) :
  d ∈ ds -> length d <= length (concat ds).
Proof.
  induction ds as [|d' ds IH]; simpl; [by intros ?%elem_of_nil|].
  rewrite length_app. intros [->|Hin]%elem_of_cons; [lia|]. specialize (IH Hin). lia.
Qed.

(** Property X6. The bytes of an Array or Struct are its tag, its length, and
    then what [serializeStackItem] returns for each of its elements, in order:
    every element of an item that can be serialized can itself be serialized,
    and no byte of it depends on where it sits. *)
Theorem serialize_sequence_concat (h : Heap) (l a : loc) (id : byte)
    (elems : list loc) (data : Buffer) :
  (items h !! l = Some (ArrayType a) /\ id = ArrayType_id) \/
  (items h !! l = Some (StructType a) /\ id = StructType_id) ->
  arrays h !! a = Some elems ->
  serializeStackItem h l = Ok data ->
  exists ds,
    Forall2 (fun c d => serializeStackItem h c = Ok d) elems ds /\
    data = id :: encodeVarUint (N.of_nat (length elems)) ++ concat ds.
Proof.
  intros Hl Ha H. unfold serializeStackItem in H.
  unfold circularRefAndDepthDetection in H.
  destruct (circularRefAndDepthDetectionInternal _ h l ∅ 0) as [[[] V]| |] eqn:G;
    simpl in H; try done.
  apply guard_false_within_depth in G as [_ Hw]. rewrite Nat.sub_0_r in Hw.
  assert (children h l = Some elems) as Hcs.
  { unfold children. by destruct Hl as [[-> _]|[-> _]]. }
  assert (forall c, c ∈ elems -> circularRefAndDepthDetection h c = Ok false) as Hguard.
  { intros c Hc. destruct (within_depth_child h _ l c Hw) as (n' & En & Hwc).
    { by exists elems. }
    unfold circularRefAndDepthDetection.
    rewrite (guard_accepts h c); [done|]. apply (within_depth_mono h n'); [done|lia]. }
  destruct (serializeStackItemInternal _ h l _) as [w'| |] eqn:E; simpl in H; try done.
  injection H as <-. rewrite Nat.add_1_r in E. cbn [serializeStackItemInternal] in E.
  assert (try_rethrow (if decide (id = ArrayType_id)
                       then "Serialize Array stackItems error: "
                       else "Serialize Struct stackItems error: ")
            (serialize_sequence h (serializeStackItemInternal MAX_STRUCT_DEPTH h) id a
               (LimitedWriter MAX_BYTEARRAY_SIZE)) = Ok w') as E'.
  { destruct Hl as [[Hl ->]|[Hl ->]]; rewrite Hl in E; simpl in E; done. }
  clear E. unfold serialize_sequence, writeUint8, writeVarUint in E'. rewrite Ha in E'.
  destruct (write [id] _) as [w1| |] eqn:E1; simpl in E'; try done.
  destruct (write (encodeVarUint _) w1) as [w2| |] eqn:E2; simpl in E'; try done.
  destruct (for_of _ elems w2) as [w3| |] eqn:E3; simpl in E'; try done.
  injection E' as <-.
  apply write_Ok in E1 as [F1 ->]. apply write_Ok in E2 as [F2 ->].
  apply for_of_pieces in E3 as (ds & HF & -> & F3);
    [|apply Forall_forall; intros c _; apply serialize_emits].
  exists ds. split; [|reflexivity].
  assert (fits (concat ds)
            (append (encodeVarUint (N.of_nat (length elems)))
               (append [id] (LimitedWriter MAX_BYTEARRAY_SIZE)))) as F4.
  { apply F3. unfold fits in *. simpl in *. rewrite ?length_app in *. simpl in *. lia. }
  assert (forall d, d ∈ ds -> fits d (LimitedWriter MAX_BYTEARRAY_SIZE)) as Hfit.
  { intros d Hd. apply length_concat_elem in Hd.
    unfold fits in *. simpl in *. rewrite ?length_app in *. simpl in *. lia. }
  clear F3 F4 F1 F2.
  assert (forall cs ds',
            Forall2 (fun x d => forall w2, fits d w2 ->
                       serializeStackItemInternal MAX_STRUCT_DEPTH h x w2 =
                         Ok (append d w2)) cs ds' ->
            (forall c, c ∈ cs -> c ∈ elems) -> (forall d, d ∈ ds' -> d ∈ ds) ->
            Forall2 (fun c d => serializeStackItem h c = Ok d) cs ds') as Hgen.
  { induction 1 as [|c d cs ds' Hcd _ IH]; intros Hsub Hsub'; constructor.
    - unfold serializeStackItem. rewrite (Hguard c) by (apply Hsub; by left). simpl.
      rewrite Nat.add_1_r.
      rewrite (serialize_fuel_mono h _ c _ (append d (LimitedWriter MAX_BYTEARRAY_SIZE))).
      + done.
      + apply Hcd, Hfit, Hsub'. by left.
    - apply IH; [intros c' ?; apply Hsub|intros d' ?; apply Hsub']; by right. }
  by apply Hgen.
Qed.

(** *** A second round trip *)

Lemma canonical_entries_strings (mp : list (value * value)) :
  map entry_string (map (fun kv => (kv.1, canonical kv.2)) mp) = map entry_string mp.
Proof. rewrite map_map. by apply map_ext. Qed.

Lemma canonical_spec (v : value) :
  well_keyed v = true ->
  canonical (canonical v) = canonical v /\ well_keyed (canonical v) = true /\
  depth (canonical v) = depth v.
Proof.
  induction v as [b|b|z|arr IH|arr IH|mp IH] using value_ind_nested; try done.
  1,2: simpl; intros Hwk; rewrite forallb_forall in Hwk; rewrite Forall_forall in IH;
       assert (forall x, x ∈ arr -> canonical (canonical x) = canonical x /\
                 well_keyed (canonical x) = true /\ depth (canonical x) = depth x) as IH'
         by (intros x Hx; apply IH; [done|]; by apply Hwk, list_elem_of_In);
       (split; [|split]);
       [ f_equal; rewrite map_map; apply map_ext_in; intros x Hx%list_elem_of_In;
         by apply IH'
       | apply forallb_forall; intros y (x & <- & Hx%list_elem_of_In)%in_map_iff;
         by apply IH'
       | rewrite map_map;
         rewrite (map_ext_in (fun x => depth (canonical x)) depth)
           by (intros x Hx%list_elem_of_In; by apply IH');
         by destruct arr ].
  intros Hwk. destruct (well_keyed_entries mp Hwk) as [Hkeys Hnd].
  rewrite Forall_forall in IH, Hkeys.
  assert (forall kv, kv ∈ mp -> canonical (canonical kv.2) = canonical kv.2 /\
            well_keyed (canonical kv.2) = true /\
            depth (canonical kv.2) = depth kv.2) as IH'.
  { intros kv Hkv. apply IH; [done|]. by apply Hkeys. }
  set (mp' := map (fun kv => (kv.1, canonical kv.2)) mp).
  assert (sort_entries mp' ≡ₚ mp') as HP by apply merge_sort_Permutation.
  assert (well_keyed (VMap mp') = true) as Hwk'.
  { simpl. apply andb_true_iff. split.
    - apply forallb_forall. intros y (kv & <- & Hkv%list_elem_of_In)%in_map_iff.
      simpl. destruct (Hkeys kv Hkv) as [(s & -> & Hs) _].
      rewrite bool_decide_eq_true_2 by done. simpl. by apply IH'.
    - unfold mp'. rewrite canonical_entries_strings. by apply distinct_NoDup. }
  change (canonical (VMap mp)) with (VMap (sort_entries mp')).
  split; [|split].
  - simpl. f_equal.
    rewrite (map_ext_in _ id).
    + rewrite map_id. apply sort_entries_Permutation; [done|].
      assert (map entry_string (sort_entries mp') ≡ₚ map entry_string mp') as HP'
        by (by apply Permutation_map).
      rewrite HP'. unfold mp'. by rewrite canonical_entries_strings.
    + intros y Hy%list_elem_of_In. rewrite HP in Hy.
      apply list_elem_of_In, in_map_iff in Hy as (kv & <- & Hkv%list_elem_of_In).
      simpl. f_equal. by apply IH'.
  - apply (well_keyed_Permutation mp'); [done|done].
  - rewrite (depth_Permutation _ mp') by done. simpl. unfold mp'. rewrite map_map.
    rewrite (map_ext_in _ (fun kv => depth kv.1 `max` depth kv.2)).
    + by destruct mp.
    + intros kv Hkv%list_elem_of_In. simpl. by destruct (IH' kv Hkv) as (_ & _ & ->).
Qed.

(** Property X8. What comes back from a round trip serializes to the bytes it
    came from, whatever store holds it: the first round trip may reorder the
    entries of a Map, a second one changes nothing. *)
Theorem reserialize_stable (h h' : Heap) (l l' : loc) (v : value) (data : Buffer) :
  represents h l v -> well_keyed v = true -> longs v = true ->
  serializeStackItem h l = Ok data ->
  represents h' l' (canonical v) ->
  deserializeStackItem data = Ok (canonical v) /\ serializeStackItem h' l' = Ok data.
Proof.
  intros HR Hwk Hl E HR'.
  destruct (serializeStackItem_Ok_encode h l v data HR Hwk E) as (-> & Hd & Hs).
  destruct (canonical_spec v Hwk) as (Hidem & Hwk' & Hdepth).
  pose proof MAX_BYTEARRAY_SIZE_lt as Hcap. split.
  - apply deserializeStackItem_encode; [by apply longs_canonical|].
    apply sized_of_length. lia.
  - rewrite <- Hidem.
    apply serializeStackItem_represents; [done|done|lia|by rewrite Hidem].
Qed.

End SerializerMore.

Section DeserializerMore.
Context `{host : Host} {laws : HostLaws host}.

(** ** More on the deserializer *)

(** *** The first byte decides *)

(** Property X12. The first byte of the input selects the variant of the
    result, and a first byte that is none of the six tags is reported as an
    unknown type, whatever follows it. *)
Theorem deserialize_by_tag (t : byte) (rest : Buffer) :
  (t ∉ tags ->
   deserializeStackItem (t :: rest) =
     Throw (Rethrown "Deserialize error: " (Error "unknown type")))
  /\ (forall v, deserializeStackItem (t :: rest) = Ok v -> tag_of v = t).
Proof.
  unfold deserializeStackItem. cbn [deserializeStackItemInternal readByte mbind result_bind].
  unfold tags. split.
  - intros Ht. repeat case_decide; try done; exfalso; apply Ht;
      repeat match goal with H : _ \/ _ |- _ => destruct H end; subst t;
      repeat (first [apply list_elem_of_here | apply list_elem_of_further]).
  - intros v. repeat case_decide; subst; simpl.
    + destruct (readVarBytes rest) as [[b r2]| |]; simpl; try done. by intros [= <-].
    + destruct (readByte rest) as [[b r2]| |]; simpl; try done. by intros [= <-].
    + destruct (readInt64 rest) as [[z r2]| |]; simpl; try done. by intros [= <-].
    + destruct (readVarUInt rest) as [[count r2]| |]; simpl; try done.
      destruct (read_items _ _ r2) as [[arr r3]| |]; simpl; try done. by intros [= <-].
    + destruct (readVarUInt rest) as [[count r2]| |]; simpl; try done.
      destruct (read_items _ _ r2) as [[arr r3]| |]; simpl; try done.
      intros [= <-]. simpl.
      match goal with H : _ \/ _ |- _ => by destruct H end.
    + destruct (readVarUInt rest) as [[count r2]| |]; simpl; try done.
      destruct (read_entries _ _ r2) as [[mp r3]| |]; simpl; try done. by intros [= <-].
    + done.
Qed.

(** *** Nesting is bounded by the length of the input *)

Lemma max_list_lt (l : list nat) (k n : nat) :
  k < n -> Forall (fun x => x + k < n) l -> max_list l + k < n.
Proof.
  intros Hk. induction 1 as [|x l Hx _ IH]; simpl; lia.
Qed.

Lemma read_items_depth (rec : Reader -> result (value * Reader))
    (count : nat) (r r' : Reader) (arr : list value) :
  (forall r1 x r2, rec r1 = Ok (x, r2) -> depth x + length r2 < length r1) ->
  read_items rec count r = Ok (arr, r') ->
  length r' <= length r /\ Forall (fun x => depth x + length r' < length r) arr.
Proof.
  intros Hrec. revert r arr. induction count as [|count IH]; intros r arr; simpl.
  - intros [= <- <-]. split; [done|constructor].
  - destruct (rec r) as [[item r1]| |] eqn:E; simpl; try done.
    destruct (read_items rec count r1) as [[arr1 r2]| |] eqn:E1; simpl; try done.
    intros [= <- <-]. apply Hrec in E. destruct (IH _ _ E1) as [Hlen HF].
    split; [lia|]. constructor; [lia|].
    eapply Forall_impl; [done|]. simpl. intros x Hx. lia.
Qed.

Lemma read_entries_depth (rec : Reader -> result (value * Reader))
    (count : nat) (r r' : Reader) (mp : list (value * value)) :
  (forall r1 x r2, rec r1 = Ok (x, r2) -> depth x + length r2 < length r1) ->
  read_entries rec count r = Ok (mp, r') ->
  length r' <= length r /\
  Forall (fun kv => depth kv.1 `max` depth kv.2 + length r' < length r) mp.
Proof.
  intros Hrec. revert r mp. induction count as [|count IH]; intros r mp; simpl.
  - intros [= <- <-]. split; [done|constructor].
  - destruct (rec r) as [[key r1]| |] eqn:Ek; simpl; try done.
    destruct (rec r1) as [[val r2]| |] eqn:Ev; simpl; try done.
    destruct (read_entries rec count r2) as [[mp1 r3]| |] eqn:E1; simpl; try done.
    intros [= <- <-]. apply Hrec in Ek, Ev. destruct (IH _ _ E1) as [Hlen HF].
    split; [lia|]. constructor; [simpl; lia|].
    eapply Forall_impl; [done|]. simpl. intros x Hx. lia.
Qed.

(** The Array and the Struct branch. *)
Ltac sequence_depth IH r1 :=
  destruct (readVarUInt r1) as [[count r2]| |] eqn:E; simpl; try done;
  apply readVarUInt_length in E;
  destruct (read_items _ _ r2) as [[arr r3]| |] eqn:Ei; simpl; try done;
  (apply read_items_depth in Ei as [Hlen HF]; [|intros ? ? ? ?; by eapply IH]);
  intros [= <- <-]; simpl; (destruct arr as [|x arr]; [lia|]);
  enough (max_list (map depth (x :: arr)) + length r3 < length r2) by lia;
  apply Forall_cons in HF as HF'; destruct HF' as [Hx _];
  (apply max_list_lt; [lia|]); by apply Forall_fmap.

Lemma deserialize_depth (fuel : nat) :
  forall (r r' : Reader) (v : value),
    deserializeStackItemInternal fuel r = Ok (v, r') ->
    depth v + length r' < length r.
Proof.
  induction fuel as [|fuel IH]; intros r r' v; [done|].
  cbn [deserializeStackItemInternal].
  destruct r as [|t r1]; [done|]. cbn [readByte mbind result_bind].
  intros E.
  assert (forall m : result (value * Reader),
            try_rethrow "Deserialize error: " m = Ok (v, r') -> m = Ok (v, r')) as Hun.
  { by intros [| |]. }
  apply Hun in E. clear Hun. revert E. repeat case_decide.
  - destruct (readVarBytes r1) as [[b r2]| |] eqn:E; simpl; try done.
    intros [= <- <-]. apply readVarBytes_length in E. simpl. lia.
  - destruct r1 as [|b r2]; simpl; [done|]. intros [= <- <-]. simpl. lia.
  - unfold readInt64. destruct (readVarBytes r1) as [[b r2]| |] eqn:E; simpl; try done.
    destruct (8 <? length b); simpl; [done|].
    intros [= <- <-]. apply readVarBytes_length in E. simpl. lia.
  - sequence_depth IH r1.
  - sequence_depth IH r1.
  - destruct (readVarUInt r1) as [[count r2]| |] eqn:E; simpl; try done.
    apply readVarUInt_length in E.
    destruct (read_entries _ _ r2) as [[mp r3]| |] eqn:Ei; simpl; try done.
    apply read_entries_depth in Ei as [Hlen HF]; [|intros ? ? ? ?; by eapply IH].
    intros [= <- <-]. simpl. destruct mp as [|x mp]; [lia|].
    enough (max_list (map (fun kv => depth kv.1 `max` depth kv.2) (x :: mp))
            + length r3 < length r2) by lia.
    apply Forall_cons in HF as HF'. destruct HF' as [Hx _].
    apply max_list_lt; [lia|]. by apply Forall_fmap.
  - done.
Qed.

(** Property X13. The deserializer has no depth limit of its own, but every
    level of nesting costs at least one byte of input: the nesting depth of
    what it returns is below the length of what it was given. *)
Theorem deserialize_depth_lt_length (data : Buffer) (v : value) :
  deserializeStackItem data = Ok v -> depth v < length data.
Proof.
  unfold deserializeStackItem.
  destruct (deserializeStackItemInternal _ data) as [[item r']| |] eqn:E; simpl; try done.
  intros [= <-]. apply deserialize_depth in E. lia.
Qed.

(** *** Bytes after the item *)

(** Property X14. The deserializer reads one item and stops: bytes that follow
    the encoding of an item are not looked at, and are no error. *)
Theorem deserialize_ignores_trailing (h : Heap) (l : loc) (v : value)
    (data rest : Buffer) :
  represents h l v -> well_keyed v = true -> longs v = true ->
  serializeStackItem h l = Ok data ->
  deserializeStackItem (data ++ rest) = Ok (canonical v).
Proof.
  intros HR Hwk Hl E.
  destruct (serializeStackItem_Ok_encode h l v data HR Hwk E) as (-> & _ & Hs).
  pose proof MAX_BYTEARRAY_SIZE_lt as Hcap.
  unfold deserializeStackItem.
  rewrite deserialize_encode; [done|by apply longs_canonical| |].
  - apply sized_of_length. lia.
  - rewrite length_app. lia.
Qed.

(** *** Every call comes to an end *)

(** Property X3. On every store, cyclic ones included, and on every input, the
    guard, the serializer and the deserializer return or throw within the
    recursion budgets of the model: the guard never goes deeper than
    [MAX_STRUCT_DEPTH + 2] calls, the serializer behind it never deeper than
    [MAX_STRUCT_DEPTH + 1], and the deserializer never deeper than the input
    is long. *)
Theorem calls_terminate (h : Heap) (l : loc) (data : Buffer) :
  circularRefAndDepthDetection h l <> OutOfFuel
  /\ serializeStackItem h l <> OutOfFuel
  /\ deserializeStackItem data <> OutOfFuel.
Proof.
  split; [|split].
  - unfold circularRefAndDepthDetection.
    pose proof (guard_fuel (MAX_STRUCT_DEPTH + 2) h l ∅ 0) as Hg.
    destruct (circularRefAndDepthDetectionInternal _ h l ∅ 0) as [[b V]| |];
      simpl; try done.
    intros _. apply Hg; [lia|lia|done].
  - apply serializeStackItem_fuel.
  - apply deserializeStackItem_fuel.
Qed.

End DeserializerMore.

Section Truncated.
Context `{host : Host} {laws : HostLaws host}.

(** *** Truncated input *)

(** What the format of the variable-length integer must provide for the
    next theorem: a variable-length integer that is cut short cannot be
    read. *)
Hypothesis varint_prefix : forall (n : N) (a b : Buffer),
  a ++ b = encodeVarUint n -> b <> [] -> decodeVarUint a = None.

Lemma app_split {A} (a b p q : list A) :
  a ++ b = p ++ q ->
  (exists k, k <> [] /\ a = p ++ k) \/ (exists k, p = a ++ k /\ b = k ++ q).
Proof.
  intros Heq. apply app_eq_app in Heq as [k [[E1 E2]|[E1 E2]]].
  - destruct k as [|x k].
    + right. exists []. rewrite app_nil_r in *. by subst.
    + left. by exists (x :: k).
  - right. by exists k.
Qed.

Lemma readVarUInt_truncated (n : N) (body p q : Buffer) :
  (n < 2 ^ 64)%N -> encodeVarUint n ++ body = p ++ q ->
  (exists e, readVarUInt p = Throw e) \/
  (exists k, p = encodeVarUint n ++ k /\ body = k ++ q /\ readVarUInt p = Ok (n, k)).
Proof.
  intros Hn [(k & Hk & E)|(k & -> & E)]%app_split.
  - left. unfold readVarUInt. rewrite (varint_prefix n p k); eauto.
  - right. exists k. split; [done|]. split; [done|]. by apply readVarUInt_encode.
Qed.

Lemma readVarBytes_truncated (body p q : Buffer) :
  (N.of_nat (length body) < 2 ^ 64)%N ->
  encodeVarUint (N.of_nat (length body)) ++ body = p ++ q -> q <> [] ->
  exists e, readVarBytes p = Throw e.
Proof.
  intros Hn Heq Hq. unfold readVarBytes.
  destruct (readVarUInt_truncated _ _ _ _ Hn Heq) as [[e ->]|(k & -> & Hb & ->)];
    simpl; [eauto|].
  assert (length k < length body) as Hlt.
  { rewrite Hb, length_app. destruct q; [done|]. simpl. lia. }
  destruct (N.ltb_spec (N.of_nat (length k)) (N.of_nat (length body))); [eauto|lia].
Qed.

Lemma read_items_truncated (rec : Reader -> result (value * Reader)) (bound : nat)
    (arr : list value) :
  Forall (fun x =>
            (forall p k, k <> [] -> encode x = p ++ k -> length p <= bound ->
                         exists e, rec p = Throw e) /\
            (forall rest, length (encode x ++ rest) <= bound ->
                          rec (encode x ++ rest) = Ok (x, rest))) arr ->
  forall p q, concat (map encode arr) = p ++ q -> q <> [] -> length p <= bound ->
    exists e, read_items rec (length arr) p = Throw e.
Proof.
  induction 1 as [|x arr [Hcut Hfull] _ IH]; intros p q Heq Hq Hp; simpl in *.
  - symmetry in Heq. apply app_eq_nil in Heq as [_ ->]. done.
  - apply app_split in Heq as [(k & Hk & E)|(k & -> & E)].
    + destruct (Hcut p k Hk E Hp) as [e ->]. simpl. eauto.
    + rewrite Hfull by done. simpl. rewrite length_app in Hp.
      destruct (IH k q) as [e ->]; [done|done|lia|]. simpl. eauto.
Qed.

Lemma read_entries_truncated (rec : Reader -> result (value * Reader)) (bound : nat)
    (mp : list (value * value)) :
  Forall (fun kv =>
            ((forall p k, k <> [] -> encode kv.1 = p ++ k -> length p <= bound ->
                          exists e, rec p = Throw e) /\
             (forall rest, length (encode kv.1 ++ rest) <= bound ->
                           rec (encode kv.1 ++ rest) = Ok (kv.1, rest))) /\
            ((forall p k, k <> [] -> encode kv.2 = p ++ k -> length p <= bound ->
                          exists e, rec p = Throw e) /\
             (forall rest, length (encode kv.2 ++ rest) <= bound ->
                           rec (encode kv.2 ++ rest) = Ok (kv.2, rest)))) mp ->
  forall p q,
    concat (map (fun kv => encode kv.1 ++ encode kv.2) mp) = p ++ q ->
    q <> [] -> length p <= bound ->
    exists e, read_entries rec (length mp) p = Throw e.
Proof.
  induction 1 as [|[key val] mp [[Hkcut Hkfull] [Hvcut Hvfull]] _ IH];
    intros p q Heq Hq Hp; simpl in *.
  - symmetry in Heq. apply app_eq_nil in Heq as [_ ->]. done.
  - rewrite <- app_assoc in Heq.
    apply app_split in Heq as [(k & Hk & E)|(k & -> & E)].
    { destruct (Hkcut p k Hk E Hp) as [e ->]. simpl. eauto. }
    rewrite Hkfull by done. simpl. rewrite length_app in Hp.
    apply app_split in E as [(k' & Hk' & E)|(k' & -> & E)].
    { destruct (Hvcut k k' Hk' E) as [e ->]; [lia|]. simpl. eauto. }
    rewrite Hvfull by lia. simpl. rewrite length_app in Hp.
    destruct (IH k' q) as [e ->]; [done|done|lia|]. simpl. eauto.
Qed.

Lemma try_rethrow_Throw {A} (prefix : string) (m : result A) :
  (exists e, m = Throw e) -> exists e, try_rethrow prefix m = Throw e.
Proof. intros [e ->]. simpl. eauto. Qed.

(** The Array and the Struct branch. *)
Ltac sequence_cut IH Hl Hs Heq Hf fuel arr q :=
  apply try_rethrow_Throw;
  simpl in Hl, Hs; apply andb_true_iff in Hs as [Hn%bool_decide_eq_true Hs];
  (destruct (readVarUInt_truncated _ _ _ _ Hn Heq) as [[e ->]|(k & -> & Hb & ->)];
     simpl; [eauto|]);
  rewrite Nat2N.id; rewrite length_app in Hf;
  (destruct (read_items_truncated (deserializeStackItemInternal fuel) (length k) arr)
     with (p := k) (q := q) as [e ->]; [|done|done|done|simpl; eauto]);
  rewrite forallb_forall in Hl, Hs; rewrite Forall_forall in IH |- *;
  intros x Hx; split;
  [ intros p' k' Hk' E' Hp';
    eapply IH; [done|by apply Hl, list_elem_of_In|by apply Hs, list_elem_of_In|
                done|done|lia]
  | intros rest Hrest; rewrite length_app in Hrest;
    apply deserialize_encode; [by apply Hl, list_elem_of_In|
                               by apply Hs, list_elem_of_In|lia] ].

Lemma deserialize_cut (v : value) :
  forall (fuel : nat) (p q : Buffer),
    longs v = true -> sized v = true ->
    encode v = p ++ q -> q <> [] -> length p < fuel ->
    exists e, deserializeStackItemInternal fuel p = Throw e.
Proof.
  induction v as [b|b|z|arr IH|arr IH|mp IH] using value_ind_nested;
    intros fuel p q Hl Hs Heq Hq Hf;
    (destruct fuel as [|fuel]; [lia|]);
    cbn [deserializeStackItemInternal]; apply try_rethrow_Throw;
    (destruct p as [|t p]; [simpl; by eauto|]);
    simpl in Heq; injection Heq as <- Heq; cbn [readByte mbind result_bind];
    simpl in Hf.
  - rewrite decide_True by done. apply try_rethrow_Throw.
    simpl in Hs. apply bool_decide_eq_true in Hs.
    destruct (readVarBytes_truncated _ _ _ Hs Heq Hq) as [e ->]. simpl. eauto.
  - rewrite decide_False by done. rewrite decide_True by done.
    apply try_rethrow_Throw.
    destruct p as [|b' p]; [simpl; eauto|].
    destruct p; destruct q; done.
  - rewrite !decide_False by done. rewrite decide_True by done.
    apply try_rethrow_Throw. unfold readInt64.
    pose proof (length_bigIntToBytes z) as Hlen.
    destruct (readVarBytes_truncated (bigIntToBytes z) p q) as [e ->];
      [lia|done|done|]. simpl. eauto.
  - rewrite !decide_False by done. rewrite decide_True by (by left).
    sequence_cut IH Hl Hs Heq Hf fuel arr q.
  - rewrite !decide_False by done. rewrite decide_True by (by right).
    sequence_cut IH Hl Hs Heq Hf fuel arr q.
  - rewrite !decide_False by (done || by intros [|]). rewrite decide_True by done.
    apply try_rethrow_Throw.
    simpl in Hl, Hs. apply andb_true_iff in Hs as [Hn%bool_decide_eq_true Hs].
    destruct (readVarUInt_truncated _ _ _ _ Hn Heq) as [[e ->]|(k & -> & Hb & ->)];
      simpl; [eauto|].
    rewrite Nat2N.id. rewrite length_app in Hf.
    destruct (read_entries_truncated (deserializeStackItemInternal fuel) (length k) mp)
      with (p := k) (q := q) as [e ->]; [|done|done|done|simpl; eauto].
    rewrite forallb_forall in Hl, Hs. rewrite Forall_forall in IH |- *.
    intros kv Hkv. destruct (IH kv Hkv) as [IHk IHv].
    apply list_elem_of_In in Hkv as Hin.
    apply Hl in Hin as [? ?]%andb_true_iff. apply list_elem_of_In in Hkv as Hin.
    apply Hs in Hin as [? ?]%andb_true_iff.
    repeat split.
    + intros p' k' Hk' E' Hp'. eapply IHk; [done|done|done|done|lia].
    + intros rest Hrest. rewrite length_app in Hrest.
      apply deserialize_encode; [done|done|lia].
    + intros p' k' Hk' E' Hp'. eapply IHv; [done|done|done|done|lia].
    + intros rest Hrest. rewrite length_app in Hrest.
      apply deserialize_encode; [done|done|lia].
Qed.

(** Property X15. No proper prefix of what [serializeStackItem] returns can be
    deserialized: an encoding that has lost bytes at its end makes
    [deserializeStackItem] throw, it is never taken for a shorter item. *)
Theorem deserialize_truncated (h : Heap) (l : loc) (v : value) (data p q : Buffer) :
  represents h l v -> well_keyed v = true -> longs v = true ->
  serializeStackItem h l = Ok data ->
  data = p ++ q -> q <> [] ->
  exists e, deserializeStackItem p = Throw e.
Proof.
  intros HR Hwk Hl E Heq Hq.
  destruct (serializeStackItem_Ok_encode h l v data HR Hwk E) as (-> & _ & Hs).
  pose proof MAX_BYTEARRAY_SIZE_lt as Hcap.
  unfold deserializeStackItem.
  destruct (deserialize_cut (canonical v) (S (length p)) p q) as [e ->];
    [by apply longs_canonical|apply sized_of_length; lia|done|done|lia|].
  simpl. eauto.
Qed.

End Truncated.

(** ** Further worked examples on the concrete host *)

(** The Integer 5 equals another Integer 5 and does not equal [true]. *)
Lemma integer_equals_numeric_witness :
  IntegerType.equals integer_five (Some (IntegerType.object (IntegerType.new 3 5))) =
    Returns true
  /\ IntegerType.equals integer_five (Some (BooleanType.object boolean_true)) =
    Returns false.
Proof.
  apply (integer_equals_numeric integer_five (IntegerType.new 3 5) boolean_true); done.
Defined.

(** [true] equals another [true] and the Integer 1. *)
Lemma boolean_equals_bytes_witness :
  BooleanType.equals boolean_true (Some (BooleanType.object (BooleanType.new 4 true))) =
    Returns true
  /\ BooleanType.equals boolean_true (Some (IntegerType.object (IntegerType.new 5 1))) =
    Returns true.
Proof.
  apply (boolean_equals_bytes boolean_true (BooleanType.new 4 true) (IntegerType.new 5 1));
    done.
Defined.

(** The Integer 0 and [false] disagree on whether they are equal. *)
Lemma equals_symmetric_except_zero_witness :
  IntegerType.equals (IntegerType.new 0 0)
    (Some (BooleanType.object (BooleanType.new 1 false))) <>
  BooleanType.equals (BooleanType.new 1 false)
    (Some (IntegerType.object (IntegerType.new 0 0))).
Proof.
  intros Heq.
  apply (equals_symmetric_except_zero (IntegerType.new 0 0) (BooleanType.new 1 false))
    in Heq; [|done].
  apply Heq. done.
Defined.

(** [true] asked about [undefined] and about an item whose coercion to
    bytes throws. *)
Lemma boolean_equals_total_witness :
  BooleanType.equals boolean_true None = Returns false
  /\ BooleanType.equals boolean_true (Some no_bytes) = Returns false.
Proof.
  split.
  - by apply (boolean_equals_total boolean_true None).
  - destruct (boolean_equals_total boolean_true (Some no_bytes)) as (_ & _ & H).
    by apply (H no_bytes (Error "Not support to byte array")).
Defined.

(** The guard on the Array that contains itself. *)
Lemma guard_decides_depth_witness :
  circularRefAndDepthDetection store_cyclic 0 =
    Ok (negb (within_depth store_cyclic MAX_STRUCT_DEPTH 0))
  /\ (serializeStackItem store_cyclic 0 =
        Throw (Error "runtime serialize: can not serialize circular reference data")
      <-> within_depth store_cyclic MAX_STRUCT_DEPTH 0 = false).
Proof.
  apply (guard_decides_depth store_cyclic 0).
  - apply (bool_decide_unpack _). by vm_compute.
  - by eexists.
Defined.

(** The guard on an Array with shared parts, entered with a container
    already open. *)
Lemma guard_false_restores_witness :
  circularRefAndDepthDetectionInternal 12 store_shared 0 {[inl 7 := true]} 0 =
    Ok (false, {[inl 7 := true]}).
Proof.
  assert (exists V', circularRefAndDepthDetectionInternal 12 store_shared 0
                       {[inl 7 := true]} 0 = Ok (false, V')) as [V' E]
    by (eexists; vm_compute; reflexivity).
  rewrite E. do 2 f_equal.
  apply (guard_false_restores 12 store_shared 0 {[inl 7 := true]} V' 0); [|exact E].
  intros k b [_ <-]%lookup_singleton_Some. reflexivity.
Defined.

(** The guard and the serializer on the Array that contains itself, the
    deserializer on an Array tag with nothing behind it. *)
Lemma calls_terminate_witness :
  circularRefAndDepthDetection store_cyclic 0 <> OutOfFuel
  /\ serializeStackItem store_cyclic 0 <> OutOfFuel
  /\ deserializeStackItem [x80] <> OutOfFuel.
Proof. apply (calls_terminate store_cyclic 0 [x80]). Defined.

(** The two-entry Map is written in 14 bytes, whatever was written before
    it. *)
Lemma serialize_within_cap_witness :
  (N.of_nat (length [x82; x02; x00; x01; x61; x02; x01; x01;
                     x00; x01; x62; x02; x01; x02]) <= MAX_BYTEARRAY_SIZE)%N
  /\ forall w,
       fits [x82; x02; x00; x01; x61; x02; x01; x01; x00; x01; x62; x02; x01; x02] w ->
       serializeStackItemInternal (MAX_STRUCT_DEPTH + 1) store_two_orders 0 w =
         Ok (append [x82; x02; x00; x01; x61; x02; x01; x01;
                     x00; x01; x62; x02; x01; x02] w).
Proof.
  apply (serialize_within_cap store_two_orders 0). reflexivity.
Defined.

(** The Array of scalars, a Map and a Struct is within both limits. *)
Lemma serialize_succeeds_iff_witness :
  match serializeStackItem store_mixed 0 with
  | Ok data =>
      data = encode (canonical tree_mixed) /\ depth tree_mixed <= MAX_STRUCT_DEPTH /\
      (N.of_nat (length (encode (canonical tree_mixed))) <= MAX_BYTEARRAY_SIZE)%N
  | Throw _ =>
      MAX_STRUCT_DEPTH < depth tree_mixed \/
      (MAX_BYTEARRAY_SIZE < N.of_nat (length (encode (canonical tree_mixed))))%N
  | OutOfFuel => False
  end.
Proof.
  apply (serialize_succeeds_iff store_mixed 0 tree_mixed).
  - exists 3. reflexivity.
  - reflexivity.
Defined.

(** The two Maps with opposite insertion orders give the same bytes. *)
Lemma serialize_equal_iff_witness :
  [x82; x02; x00; x01; x61; x02; x01; x01; x00; x01; x62; x02; x01; x02] =
  [x82; x02; x00; x01; x61; x02; x01; x01; x00; x01; x62; x02; x01; x02]
  <-> canonical (VMap [(VByteArray [x62], VInteger 2); (VByteArray [x61], VInteger 1)]) =
      canonical (VMap [(VByteArray [x61], VInteger 1); (VByteArray [x62], VInteger 2)]).
Proof.
  apply (serialize_equal_iff store_two_orders store_two_orders 0 1); try reflexivity.
  - exists 2. reflexivity.
  - exists 2. reflexivity.
Defined.

(** The Map with a Boolean key fails on the refusal of that key. *)
Lemma serialize_failures_witness :
  (Rethrown "Serialize Struct stackItems error: " (Error "Unsupport map key type.") =
     Error "runtime serialize: can not serialize circular reference data"
   \/ root_cause (Rethrown "Serialize Struct stackItems error: "
                    (Error "Unsupport map key type.")) ∈ internal_failures)
  /\ root_cause (Rethrown "Serialize Struct stackItems error: "
                   (Error "Unsupport map key type.")) <> TypeError.
Proof.
  apply (serialize_failures store_boolean_key 0).
  - apply (bool_decide_unpack _). by vm_compute.
  - by eexists.
  - reflexivity.
Defined.

(** An Interop item inside a Struct inside an Array. *)
Lemma unserializable_throws_witness :
  exists e, serializeStackItem store_interop 0 = Throw e.
Proof.
  apply unserializable_throws.
  apply (unserializable_array _ 0 0 [1] 1);
    [reflexivity|reflexivity|apply list_elem_of_here|].
  apply (unserializable_struct _ 1 1 [2] 2);
    [reflexivity|reflexivity|apply list_elem_of_here|].
  apply unserializable_interop. reflexivity.
Defined.

(** A Map with the Integer 0 as its key. *)
Lemma empty_key_refused_witness :
  exists e, serializeStackItem store_zero_key 0 = Throw e.
Proof.
  apply (empty_key_refused store_zero_key 0 0 1 [(1, 2)]).
  - reflexivity.
  - reflexivity.
  - reflexivity.
  - apply list_elem_of_here.
  - left. reflexivity.
Defined.

(** The Array that holds one Array twice and one Map twice: the bytes of
    the shared Array and of the shared Map appear twice each. *)
Lemma serialize_sequence_concat_witness :
  exists ds,
    Forall2 (fun c d => serializeStackItem store_shared c = Ok d) [1; 1; 3; 3] ds /\
    [x80; x04;
     x80; x02; x02; x01; x07; x02; x01; x07;
     x80; x02; x02; x01; x07; x02; x01; x07;
     x82; x01; x00; x01; x6b; x80; x02; x02; x01; x07; x02; x01; x07;
     x82; x01; x00; x01; x6b; x80; x02; x02; x01; x07; x02; x01; x07] =
    ArrayType_id :: encodeVarUint (N.of_nat (length [1; 1; 3; 3])) ++ concat ds.
Proof.
  apply (serialize_sequence_concat store_shared 0 0).
  - left. split; reflexivity.
  - reflexivity.
  - reflexivity.
Defined.

(** The Map inserted as "b", "a" comes back as "a", "b"; the Map inserted
    as "a", "b" serializes to the same bytes. *)
Lemma reserialize_stable_witness :
  deserializeStackItem
    [x82; x02; x00; x01; x61; x02; x01; x01; x00; x01; x62; x02; x01; x02] =
    Ok (canonical (VMap [(VByteArray [x62], VInteger 2); (VByteArray [x61], VInteger 1)]))
  /\ serializeStackItem store_two_orders 1 =
    Ok [x82; x02; x00; x01; x61; x02; x01; x01; x00; x01; x62; x02; x01; x02].
Proof.
  apply (reserialize_stable store_two_orders store_two_orders 0 1); try reflexivity.
  - exists 2. reflexivity.
  - exists 2. reflexivity.
Defined.

(** 0x03 is no tag. *)
Lemma deserialize_by_tag_witness :
  deserializeStackItem [x03; x00] =
    Throw (Rethrown "Deserialize error: " (Error "unknown type")).
Proof.
  apply (deserialize_by_tag x03 [x00]). unfold tags. intros Hin.
  repeat (apply elem_of_cons in Hin as [?|Hin]; [done|]). by apply elem_of_nil in Hin.
Defined.

(** An Array in an Array: depth 1, four bytes. *)
Lemma deserialize_depth_lt_length_witness :
  depth (VArray [VArray []]) < length [x80; x01; x80; x00].
Proof.
  apply (deserialize_depth_lt_length [x80; x01; x80; x00] (VArray [VArray []])).
  reflexivity.
Defined.

(** The Integer 0 followed by two more bytes. *)
Lemma deserialize_ignores_trailing_witness :
  deserializeStackItem ([x02; x00] ++ [xff; xff]) = Ok (canonical (VInteger 0)).
Proof.
  apply (deserialize_ignores_trailing store_zero 0 (VInteger 0)); try reflexivity.
  exists 1. reflexivity.
Defined.

(** The variable-length integer of the Ontology wire format cannot be read
    when it is cut short. *)
Lemma varuint_read_prefix (n : N) (a b : Buffer) :
  a ++ b = varuint_bytes n -> b <> [] -> varuint_read a = None.
Proof.
  intros Heq Hb. destruct a as [|c a]; [done|].
  assert (length (c :: a) < length (varuint_bytes n)) as Hlen.
  { rewrite <- Heq, length_app. destruct b; [done|]. simpl. lia. }
  unfold varuint_bytes in *. simpl in Heq.
  repeat case_match; injection Heq as -> Heq; simpl in Hlen;
    rewrite ?length_le_bytes in Hlen; try lia; simpl;
    unfold read_le; repeat case_decide; try done;
    by (case_match; [done|]; match goal with H : (_ <? _) = false |- _ =>
          apply Nat.ltb_ge in H; lia end).
Qed.

(** The first five bytes of the 14 bytes of the two-entry Map. *)
Lemma deserialize_truncated_witness :
  exists e, deserializeStackItem [x82; x02; x00; x01; x61] = Throw e.
Proof.
  apply (@deserialize_truncated ontology_host ontology_laws varuint_read_prefix
           store_two_orders 0
           (VMap [(VByteArray [x62], VInteger 2); (VByteArray [x61], VInteger 1)])
           [x82; x02; x00; x01; x61; x02; x01; x01; x00; x01; x62; x02; x01; x02]
           [x82; x02; x00; x01; x61]
           [x02; x01; x01; x00; x01; x62; x02; x01; x02]); try reflexivity.
  - exists 2. reflexivity.
  - done.
Defined.
